(** * Pairwise prioritiser: the comparison cache and the merge engine

    A shallow embedding of [src/domain/sortingEngine/cache.ts] (the
    comparison cache and its transitive closure pass) and of
    [src/domain/sortingEngine/mergeEngine.ts] (the resumable merge sort
    whose comparator is a person), with the properties stated about them.

    JavaScript objects used as dictionaries and [Map]s are finite maps
    ([gmap]); arrays are lists; the in-place mutation of the session
    state is explicit state passing. *)

From stdpp Require Import gmap strings list fin_maps sorting.
From Stdlib Require Import Ascii ZArith Lia.

(** ** Core domain types ([domain/types.ts]) *)

Definition TaskId := string.

(** [CompareResult = -1 | 0 | 1]: a < b, tie, a > b. *)
Inductive CompareResult := Less | Equal | Greater.

Global Instance CompareResult_eq_dec : EqDecision CompareResult.
Proof. solve_decision. Defined.

(** What an array of identifiers yields when it is read: an identifier,
    or [undefined] when the index is past the end. *)
Inductive IdVal := Id (s : TaskId) | Undef.

Global Instance IdVal_eq_dec : EqDecision IdVal.
Proof. solve_decision. Defined.

Global Instance Id_inj : Inj (=) (=) Id.
Proof. by intros ?? [= ->]. Qed.

(** [a < b] of JavaScript on such values: two strings compare code unit
    by code unit; [undefined] converts to NaN, so the test is false. *)
Definition js_lt (a b : IdVal) : bool :=
  match a, b with
  | Id x, Id y => String.ltb x y
  | _, _ => false
  end.

(** What a template literal prints for such a value. *)
Definition js_text (a : IdVal) : string :=
  match a with
  | Id s => s
  | Undef => "undefined"
  end.

(** [-result], with [0] kept as [0]. *)
Definition negate (r : CompareResult) : CompareResult :=
  match r with
  | Less => Greater
  | Equal => Equal
  | Greater => Less
  end.

(** ** The comparison cache ([sortingEngine/cache.ts]) *)

Definition createCacheKey (a b : IdVal) : string :=
  if js_lt a b then js_text a +:+ "|" +:+ js_text b
  else js_text b +:+ "|" +:+ js_text a.

Definition normalizeResult (a b : IdVal) (result : CompareResult)
  : CompareResult :=
  if js_lt a b then result else negate result.

(** [record[key] = value] on an object literal: the key ["__proto__"]
    reaches the prototype setter, which ignores a number, so no own
    property is created for it. *)
Definition record_assign (key : string) (value : CompareResult)
    (record : gmap string CompareResult) : gmap string CompareResult :=
  if decide (key = "__proto__") then record else <[key := value]> record.

Module Cache.

(** The [Map] captured by the closure that [createComparisonCache]
    returns; the methods take it and return it. *)
Abbreviation t := (gmap string CompareResult).

Definition get (cache : t) (a b : IdVal) : option CompareResult :=
  match cache !! createCacheKey a b with
  | None => None
  | Some cached => Some (normalizeResult a b cached)
  end.

Definition set (cache : t) (a b : IdVal) (result : CompareResult) : t :=
  <[createCacheKey a b := normalizeResult a b result]> cache.

Definition has (cache : t) (a b : IdVal) : bool :=
  bool_decide (is_Some (cache !! createCacheKey a b)).

Definition clear (cache : t) : t := ∅.

Definition toRecord (cache : t) : gmap string CompareResult :=
  map_fold record_assign ∅ cache.

Definition fromRecord (cache : t) (record : gmap string CompareResult) : t :=
  map_fold (λ key value c, <[key := value]> c) (clear cache) record.

End Cache.

Definition createComparisonCache
    (initialData : option (gmap string CompareResult)) : Cache.t :=
  match initialData with
  | Some record => map_fold (λ key value c, <[key := value]> c) ∅ record
  | None => ∅
  end.


(** ** The transitive closure pass ([applyTransitiveClosure]) *)

(** [graph.get(a)?.add(b)]: nothing happens when [a] has no entry. *)
Definition graph_add (graph : gmap TaskId (gset TaskId)) (a b : TaskId)
  : gmap TaskId (gset TaskId) :=
  match graph !! a with
  | Some s => <[a := s ∪ {[b]}]> graph
  | None => graph
  end.

(** [graph.get(a)?.has(b)], read as a condition. *)
Definition graph_has (graph : gmap TaskId (gset TaskId)) (a b : TaskId) : bool :=
  match graph !! a with
  | Some s => bool_decide (b ∈ s)
  | None => false
  end.

Definition closure_init (taskIds : list TaskId) : gmap TaskId (gset TaskId) :=
  foldl (λ graph id, <[id := ∅]> graph) ∅ taskIds.

(** The body of the two nested loops that enter the direct comparisons. *)
Definition closure_direct_body (cache : Cache.t) (a b : TaskId)
    (graph : gmap TaskId (gset TaskId)) : gmap TaskId (gset TaskId) :=
  if decide (a = b) then graph
  else match Cache.get cache (Id a) (Id b) with
       | Some Greater => graph_add graph a b
       | Some Less => graph_add graph b a
       | _ => graph
       end.

Definition closure_direct (cache : Cache.t) (taskIds : list TaskId)
    (graph : gmap TaskId (gset TaskId)) : gmap TaskId (gset TaskId) :=
  foldl (λ g a, foldl (λ g b, closure_direct_body cache a b g) g taskIds)
        graph taskIds.

(** The body of the three nested loops; the graph and the cache are both
    updated in place. *)
Definition closure_body (k i j : TaskId)
    (st : gmap TaskId (gset TaskId) * Cache.t)
  : gmap TaskId (gset TaskId) * Cache.t :=
  let '(graph, cache) := st in
  if decide (i = j ∨ i = k ∨ j = k) then st
  else if graph_has graph i k && graph_has graph k j then
    (graph_add graph i j,
     if Cache.has cache (Id i) (Id j) then cache
     else Cache.set cache (Id i) (Id j) Greater)
  else st.

Definition closure_loop (taskIds : list TaskId)
    (st : gmap TaskId (gset TaskId) * Cache.t)
  : gmap TaskId (gset TaskId) * Cache.t :=
  foldl (λ st k,
    foldl (λ st i,
      foldl (λ st j, closure_body k i j st) st taskIds) st taskIds)
    st taskIds.

Definition applyTransitiveClosure (cache : Cache.t) (taskIds : list TaskId)
  : Cache.t :=
  (closure_loop taskIds
     (closure_direct cache taskIds (closure_init taskIds), cache)).2.

(** ** The merge engine ([sortingEngine/mergeEngine.ts]) *)

Inductive Algo := merge | insertion.

Module Frame.
Record t := mk {
  left : list IdVal;
  right : list IdVal;
  leftIdx : nat;
  rightIdx : nat;
  merged : list IdVal
}.
End Frame.

Abbreviation MergeFrame := Frame.t.

Record MergeSortState := MkMergeSortState {
  runs : list (list IdVal);
  stack : list MergeFrame;
  result : list IdVal
}.

Record SortingState := MkSortingState {
  algo : Algo;
  comparisonsAsked : nat;
  comparisonsTotal : nat;
  cache : gmap string CompareResult;
  internal : option MergeSortState
}.

Record ComparisonPair := MkPair { pair_a : IdVal; pair_b : IdVal }.

Global Instance ComparisonPair_eq_dec : EqDecision ComparisonPair.
Proof. solve_decision. Defined.

(** [ceil(n * log2 n)] for [n > 1], taken exactly: the rounding of
    [Math.log2] on doubles is not part of the model. *)
Definition estimateComparisons (n : nat) : nat :=
  if decide (n ≤ 1) then 0
  else Z.to_nat (Z.log2_up (Z.of_nat n ^ Z.of_nat n)).

Definition createSession (taskIds : list TaskId)
    (existingCache : option (gmap string CompareResult)) : SortingState :=
  let cache := createComparisonCache existingCache in
  let runs := (λ id, [Id id]) <$> taskIds in
  {| algo := merge;
     comparisonsAsked := 0;
     comparisonsTotal := estimateComparisons (length taskIds);
     cache := Cache.toRecord cache;
     internal := Some {| runs := runs; stack := []; result := [] |} |}.

(** [arr[i]]: [undefined] past the end. *)
Definition array_get (arr : list IdVal) (i : nat) : IdVal :=
  default Undef (arr !! i).

(** [arr.pop()], with what is left of the array. *)
Definition array_pop {A} (arr : list A) : option (list A * A) :=
  match last arr with
  | Some x => Some (take (length arr - 1) arr, x)
  | None => None
  end.

Definition advanceFrame (frame : MergeFrame) (res : CompareResult)
  : MergeFrame :=
  match res with
  | Greater | Equal =>
      Frame.mk (Frame.left frame) (Frame.right frame)
        (S (Frame.leftIdx frame)) (Frame.rightIdx frame)
        (Frame.merged frame ++ [array_get (Frame.left frame) (Frame.leftIdx frame)])
  | Less =>
      Frame.mk (Frame.left frame) (Frame.right frame)
        (Frame.leftIdx frame) (S (Frame.rightIdx frame))
        (Frame.merged frame ++ [array_get (Frame.right frame) (Frame.rightIdx frame)])
  end.

Definition with_internal (state : SortingState) (int : MergeSortState)
  : SortingState :=
  {| algo := algo state;
     comparisonsAsked := comparisonsAsked state;
     comparisonsTotal := comparisonsTotal state;
     cache := cache state;
     internal := Some int |}.

(** [requestNextPair] calls itself until it can return; [fuel] bounds the
    number of calls and [None] means that it ran out.  The state that the
    source mutates in place is returned next to the pair. *)
Fixpoint requestNextPair_fuel (fuel : nat) (state : SortingState)
  : option (option ComparisonPair * SortingState) :=
  match fuel with
  | 0 => None
  | S fuel =>
    match internal state with
    | None => Some (None, state)
    | Some int =>
      let cache := createComparisonCache (Some (cache state)) in
      match array_pop (stack int) with
      | Some (rest, frame) =>
        if bool_decide (length (Frame.left frame) ≤ Frame.leftIdx frame)
           || bool_decide (length (Frame.right frame) ≤ Frame.rightIdx frame)
        then
          (* the frame is complete: drain both sides, queue the run *)
          let merged :=
            Frame.merged frame
              ++ drop (Frame.leftIdx frame) (Frame.left frame)
              ++ drop (Frame.rightIdx frame) (Frame.right frame) in
          requestNextPair_fuel fuel
            (with_internal state
               {| runs := runs int ++ [merged];
                  stack := rest;
                  result := result int |})
        else
          let a := array_get (Frame.left frame) (Frame.leftIdx frame) in
          let b := array_get (Frame.right frame) (Frame.rightIdx frame) in
          if Cache.has cache a b then
            (* [cache.get(a, b)!]: an absent answer would be [undefined],
               which is neither 1 nor 0 *)
            let res := default Less (Cache.get cache a b) in
            requestNextPair_fuel fuel
              (with_internal state
                 {| runs := runs int;
                    stack := rest ++ [advanceFrame frame res];
                    result := result int |})
          else Some (Some (MkPair a b), state)
      | None =>
        match runs int with
        | [] => Some (None, state)
        | [run] =>
          Some (None,
                with_internal state
                  {| runs := runs int; stack := stack int; result := run |})
        | left_run :: right_run :: others =>
          requestNextPair_fuel fuel
            (with_internal state
               {| runs := others;
                  stack := stack int ++ [Frame.mk left_run right_run 0 0 []];
                  result := result int |})
        end
      end
    end
  end.

(** Elements held by a frame that are still to be compared. *)
Definition frame_rest (frame : MergeFrame) : nat :=
  length (drop (Frame.leftIdx frame) (Frame.left frame))
  + length (drop (Frame.rightIdx frame) (Frame.right frame)).

Definition frame_size (frame : MergeFrame) : nat :=
  length (Frame.merged frame) + frame_rest frame.

Definition internal_size (int : MergeSortState) : nat :=
  sum_list (length <$> runs int) + sum_list (frame_size <$> stack int).

(** A number of calls that [requestNextPair] never exceeds from [state]. *)
Definition request_fuel (state : SortingState) : nat :=
  match internal state with
  | None => 1
  | Some int =>
    (2 * length (runs int) + 3 * length (stack int)) * S (internal_size int)
    + from_option frame_rest 0 (last (stack int)) + 1
  end.

Definition requestNextPair (state : SortingState)
  : option ComparisonPair * SortingState :=
  default (None, state) (requestNextPair_fuel (request_fuel state) state).

(** [commitComparison]; [None] is the [TypeError] raised on reading
    [internal.stack] when [internal] is [null]. *)
Definition commitComparison (state : SortingState) (a b : IdVal)
    (res : CompareResult) : option SortingState :=
  let cache := createComparisonCache (Some (cache state)) in
  match internal state with
  | None => None
  | Some int =>
    let cache := Cache.set cache a b res in
    let int :=
      match array_pop (stack int) with
      | Some (rest, frame) =>
        {| runs := runs int;
           stack := rest ++ [advanceFrame frame res];
           result := result int |}
      | None => int
      end in
    Some {| algo := algo state;
            comparisonsAsked := comparisonsAsked state + 1;
            comparisonsTotal := comparisonsTotal state;
            cache := Cache.toRecord cache;
            internal := Some int |}
  end.

Definition isComplete (state : SortingState) : bool :=
  match internal state with
  | None => true
  | Some int =>
    bool_decide (length (runs int) = 1) && bool_decide (length (stack int) = 0)
  end.

Definition finalize (state : SortingState) : list IdVal :=
  match internal state with
  | None => []
  | Some int =>
    match runs int with
    | [run] => run
    | _ => result int
    end
  end.

Definition resetWithCache (state : SortingState) (taskIds : list TaskId)
  : SortingState :=
  createSession taskIds (Some (cache state)).

(** Whether the character [|] occurs in a string. *)
Fixpoint has_pipe (s : string) : bool :=
  match s with
  | EmptyString => false
  | String c s => bool_decide (c = "|"%char) || has_pipe s
  end.

(** ** Notions used to state the properties *)

(** The graph has the edge [a -> b]: [a] is recorded as greater than [b]. *)
Definition edge (graph : gmap TaskId (gset TaskId)) (a b : TaskId) : Prop :=
  graph_has graph a b = true.

(** Every identifier of the list has its (possibly empty) set of successors. *)
Definition keyed (taskIds : list TaskId) (graph : gmap TaskId (gset TaskId))
  : Prop :=
  ∀ id, id ∈ taskIds → is_Some (graph !! id).

(** [a] is directly recorded as strictly greater than [b], both taken from
    the list handed to the closure pass. *)
Definition direct (cache : Cache.t) (taskIds : list TaskId) (a b : TaskId)
  : Prop :=
  a ∈ taskIds ∧ b ∈ taskIds ∧ a ≠ b
  ∧ Cache.get cache (Id a) (Id b) = Some Greater.

(** What the closure pass keeps true of its graph and cache, [cache0]
    being the cache it was handed: every edge is a chain of direct
    comparisons between two different identifiers of the list and has an
    entry in the cache; no entry of [cache0] is lost or changed; every
    other entry was entered as [greater] for a pair related by a chain. *)
Record closure_inv (cache0 : Cache.t) (taskIds : list TaskId)
    (st : gmap TaskId (gset TaskId) * Cache.t) : Prop := {
  ci_keyed : keyed taskIds st.1;
  ci_sound : ∀ x y, edge st.1 x y →
    x ≠ y ∧ x ∈ taskIds ∧ y ∈ taskIds ∧ tc (direct cache0 taskIds) x y;
  ci_sub : ∀ key v, cache0 !! key = Some v → st.2 !! key = Some v;
  ci_new : ∀ key v, st.2 !! key = Some v →
    cache0 !! key = Some v
    ∨ ∃ i j, i ≠ j ∧ tc (direct cache0 taskIds) i j
             ∧ Cache.has cache0 (Id i) (Id j) = false
             ∧ key = createCacheKey (Id i) (Id j)
             ∧ v = normalizeResult (Id i) (Id j) Greater;
  ci_cached : ∀ x y, edge st.1 x y → Cache.has st.2 (Id x) (Id y) = true
}.

(** The condition under which the body of the closure loops acts. *)
Definition fires (graph : gmap TaskId (gset TaskId)) (k i j : TaskId) : Prop :=
  i ≠ j ∧ i ≠ k ∧ j ≠ k ∧ edge graph i k ∧ edge graph k j.

(** One round of the outer loop of the closure pass. *)
Definition closure_round (taskIds : list TaskId)
    (st : gmap TaskId (gset TaskId) * Cache.t) (k : TaskId)
  : gmap TaskId (gset TaskId) * Cache.t :=
  foldl (λ st i, foldl (λ st j, closure_body k i j st) st taskIds) st taskIds.

(** One call of [requestNextPair] up to the point where it returns
    ([inl]) or calls itself on the updated state ([inr]). *)
Definition request_step (state : SortingState)
  : (option ComparisonPair * SortingState) + SortingState :=
  match internal state with
  | None => inl (None, state)
  | Some int =>
    let cache := createComparisonCache (Some (cache state)) in
    match array_pop (stack int) with
    | Some (rest, frame) =>
      if bool_decide (length (Frame.left frame) ≤ Frame.leftIdx frame)
         || bool_decide (length (Frame.right frame) ≤ Frame.rightIdx frame)
      then
        inr (with_internal state
               {| runs := runs int
                    ++ [Frame.merged frame
                          ++ drop (Frame.leftIdx frame) (Frame.left frame)
                          ++ drop (Frame.rightIdx frame) (Frame.right frame)];
                  stack := rest;
                  result := result int |})
      else
        let a := array_get (Frame.left frame) (Frame.leftIdx frame) in
        let b := array_get (Frame.right frame) (Frame.rightIdx frame) in
        if Cache.has cache a b then
          inr (with_internal state
                 {| runs := runs int;
                    stack := rest
                      ++ [advanceFrame frame (default Less (Cache.get cache a b))];
                    result := result int |})
        else inl (Some (MkPair a b), state)
    | None =>
      match runs int with
      | [] => inl (None, state)
      | [run] =>
        inl (None,
             with_internal state
               {| runs := runs int; stack := stack int; result := run |})
      | left_run :: right_run :: others =>
        inr (with_internal state
               {| runs := others;
                  stack := stack int ++ [Frame.mk left_run right_run 0 0 []];
                  result := result int |})
      end
    end
  end.

(** ** Sessions *)

(** The person who answers: a result for each pair shown. *)
Definition Oracle := IdVal → IdVal → CompareResult.

(** How a session driven by a caller ends. *)
Inductive Outcome :=
| OutOfFuel
| Threw (asked : list ComparisonPair)
| Finished (asked : list ComparisonPair) (final : SortingState).

(** The caller's loop: request a pair, obtain the answer, commit it, until
    [requestNextPair] signals that nothing is pending.  [asked] collects
    the pairs shown to the person, in order. *)
Fixpoint run_session (fuel : nat) (answer : Oracle) (state : SortingState)
  : Outcome :=
  match fuel with
  | 0 => OutOfFuel
  | S fuel =>
    match requestNextPair state with
    | (None, state) => Finished [] state
    | (Some p, state) =>
      match commitComparison state (pair_a p) (pair_b p)
              (answer (pair_a p) (pair_b p)) with
      | None => Threw [p]
      | Some state =>
        match run_session fuel answer state with
        | OutOfFuel => OutOfFuel
        | Threw asked => Threw (p :: asked)
        | Finished asked final => Finished (p :: asked) final
        end
      end
    end
  end.

(** States that a caller can reach from [start] with any sequence of
    [requestNextPair] and [commitComparison] calls. *)
Inductive reachable (start : SortingState) : SortingState → Prop :=
| reachable_start : reachable start start
| reachable_request state :
    reachable start state →
    reachable start (requestNextPair state).2
| reachable_commit state a b res state' :
    reachable start state →
    commitComparison state a b res = Some state' →
    reachable start state'.

(** States that a caller reaches when it keeps to the protocol: a commit
    follows a request that returned a pair, and is for that pair. *)
Inductive protocol (start : SortingState) : SortingState → Prop :=
| protocol_start : protocol start start
| protocol_request state :
    protocol start state →
    protocol start (requestNextPair state).2
| protocol_commit state p res state' :
    protocol start state →
    (requestNextPair state).1 = Some p →
    commitComparison (requestNextPair state).2 (pair_a p) (pair_b p) res
      = Some state' →
    protocol start state'.

(** The identifiers that a frame still holds: its output so far and what
    is left of its two runs. *)
Definition frame_ids (frame : MergeFrame) : list IdVal :=
  Frame.merged frame
    ++ drop (Frame.leftIdx frame) (Frame.left frame)
    ++ drop (Frame.rightIdx frame) (Frame.right frame).

(** The identifiers held by the run queue and the active frames. *)
Definition held_ids (int : MergeSortState) : list IdVal :=
  concat (runs int) ++ concat (frame_ids <$> stack int).

(** States that the caller's loop goes through when the answers come from
    [answer]: the protocol, with each committed result being the answer to
    the pair that was returned. *)
Inductive session (answer : Oracle) (start : SortingState)
  : SortingState → Prop :=
| session_start : session answer start start
| session_request state :
    session answer start state →
    session answer start (requestNextPair state).2
| session_commit state p state' :
    session answer start state →
    (requestNextPair state).1 = Some p →
    commitComparison (requestNextPair state).2 (pair_a p) (pair_b p)
      (answer (pair_a p) (pair_b p)) = Some state' →
    session answer start state'.

(** A frame one of whose cursors has reached the end of its run. *)
Definition exhausted (frame : MergeFrame) : Prop :=
  length (Frame.left frame) ≤ Frame.leftIdx frame
  ∨ length (Frame.right frame) ≤ Frame.rightIdx frame.

(** The pair under the cursors of a frame. *)
Definition frame_pair (frame : MergeFrame) : ComparisonPair :=
  MkPair (array_get (Frame.left frame) (Frame.leftIdx frame))
         (array_get (Frame.right frame) (Frame.rightIdx frame)).

(** What every state of a session over [taskIds] looks like: at most one
    frame is active, the run queue and the frame hold the identifiers of
    the list, each as often as the list does, and the stored result is
    empty unless it is the one run that is left. *)
Definition well_shaped (taskIds : list TaskId) (state : SortingState) : Prop :=
  ∃ int,
    internal state = Some int
    ∧ length (stack int) ≤ 1
    ∧ held_ids int ≡ₚ Id <$> taskIds
    ∧ (result int = [] ∨ (stack int = [] ∧ runs int = [result int])).

(** ** Counting comparisons *)

(** The most comparisons that merging a queue of runs of the given sizes
    can take: the first two runs, of sizes [a] and [b], are merged with at
    most [a + b - 1] comparisons and the merged run joins the queue at the
    back.  [fuel] bounds the number of merges. *)
Fixpoint queue_cost_fuel (fuel : nat) (sizes : list nat) : nat :=
  match fuel with
  | 0 => 0
  | S fuel =>
    match sizes with
    | a :: b :: rest => (a + b - 1) + queue_cost_fuel fuel (rest ++ [a + b])
    | _ => 0
    end
  end.

Definition queue_cost (sizes : list nat) : nat :=
  queue_cost_fuel (length sizes) sizes.

(** The most comparisons that an active frame can still take. *)
Definition frame_cost (frame : MergeFrame) : nat :=
  if decide (Frame.leftIdx frame < length (Frame.left frame)
             ∧ Frame.rightIdx frame < length (Frame.right frame))
  then frame_rest frame - 1
  else 0.

(** The most comparisons that are still to come from a state with at most
    one active frame. *)
Definition potential (int : MergeSortState) : nat :=
  match stack int with
  | [] => queue_cost (length <$> runs int)
  | frame :: _ =>
    frame_cost frame + queue_cost ((length <$> runs int) ++ [frame_size frame])
  end.

(** ** Answers that follow an order *)

(** The position of [x] in [order] (its length when [x] is not in it). *)
Fixpoint index_of (x : TaskId) (order : list TaskId) : nat :=
  match order with
  | [] => 0
  | y :: order => if decide (x = y) then 0 else S (index_of x order)
  end.

Definition rank (order : list TaskId) (v : IdVal) : nat :=
  match v with
  | Id x => index_of x order
  | Undef => length order
  end.

(** The person whose ranking is [order], most important first: the first
    item shown is greater when it comes earlier in [order]. *)
Definition answer_by (order : list TaskId) : Oracle :=
  λ a b,
    match Nat.compare (rank order a) (rank order b) with
    | Lt => Greater
    | Eq => Equal
    | Gt => Less
    end.

(** [a] comes before [b] in [order]. *)
Definition before (order : list TaskId) (a b : IdVal) : Prop :=
  rank order a < rank order b.

(** The output of a frame followed by what is left of either run is in
    order. *)
Definition frame_sorted (order : list TaskId) (frame : MergeFrame) : Prop :=
  StronglySorted (before order)
    (Frame.merged frame ++ drop (Frame.leftIdx frame) (Frame.left frame))
  ∧ StronglySorted (before order)
      (Frame.merged frame ++ drop (Frame.rightIdx frame) (Frame.right frame)).

(** Every answer that the cache holds for two different identifiers of the
    list is the one that [order] gives. *)
Definition consistent (order taskIds : list TaskId) (c : Cache.t) : Prop :=
  ∀ x y r,
    x ∈ taskIds → y ∈ taskIds → x ≠ y →
    Cache.get c (Id x) (Id y) = Some r →
    r = answer_by order (Id x) (Id y).

(** What holds of every state of a session answered by [order]: runs and
    frames are in order and the cache agrees with [order]. *)
Definition sorted_state (order taskIds : list TaskId) (state : SortingState)
  : Prop :=
  well_shaped taskIds state
  ∧ ∃ int,
      internal state = Some int
      ∧ Forall (StronglySorted (before order)) (runs int)
      ∧ Forall (frame_sorted order) (stack int)
      ∧ consistent order taskIds (cache state).

(** ** Items that were never judged less *)

(** The cache [c] holds no answer that says that [v], an identifier of the
    list, is less than another identifier of the list. *)
Definition unbeaten (taskIds : list TaskId) (c : Cache.t) (v : IdVal) : Prop :=
  ∀ z y, v = Id z → z ∈ taskIds → y ∈ taskIds → y ≠ z →
    Cache.get c (Id z) (Id y) ≠ Some Less.

Definition head_unbeaten (taskIds : list TaskId) (c : Cache.t)
    (run : list IdVal) : Prop :=
  ∀ h, head run = Some h → unbeaten taskIds c h.

(** The first element of the output of a frame, or, while the output is
    empty, the first elements of its two runs, were never judged less. *)
Definition frame_unbeaten (taskIds : list TaskId) (c : Cache.t)
    (frame : MergeFrame) : Prop :=
  length (Frame.merged frame) = Frame.leftIdx frame + Frame.rightIdx frame
  ∧ match Frame.merged frame with
    | [] => head_unbeaten taskIds c (Frame.left frame)
            ∧ head_unbeaten taskIds c (Frame.right frame)
    | m :: _ => unbeaten taskIds c m
    end.

Definition unbeaten_state (taskIds : list TaskId) (state : SortingState)
  : Prop :=
  well_shaped taskIds state
  ∧ ∃ int,
      internal state = Some int
      ∧ Forall (head_unbeaten taskIds (cache state)) (runs int)
      ∧ Forall (frame_unbeaten taskIds (cache state)) (stack int).

(** A second run over the cache [C] is where the first run is in [s1]
    when it has the same cursor and [C] holds every answer that [s1] has. *)
Definition follows (C : Cache.t) (s1 s2 : SortingState) : Prop :=
  internal s2 = internal s1
  ∧ cache s2 = C
  ∧ ∀ a b v, cache s1 !! createCacheKey a b = Some v →
             C !! createCacheKey a b = Some v.

(** ** Where an answer places the two items *)





(** ** States without [undefined] *)

(** [v] is an identifier of the list, not [undefined]. *)
Definition listed (taskIds : list TaskId) (v : IdVal) : Prop :=
  ∃ id, v = Id id ∧ id ∈ taskIds.

Definition frame_listed (taskIds : list TaskId) (frame : MergeFrame) : Prop :=
  Forall (listed taskIds) (Frame.left frame)
  ∧ Forall (listed taskIds) (Frame.right frame)
  ∧ Forall (listed taskIds) (Frame.merged frame).

(** Every array of the algorithm state holds identifiers of the list only. *)
Definition state_listed (taskIds : list TaskId) (state : SortingState) : Prop :=
  ∃ int,
    internal state = Some int
    ∧ Forall (Forall (listed taskIds)) (runs int)
    ∧ Forall (frame_listed taskIds) (stack int)
    ∧ Forall (listed taskIds) (result int).

(** * Properties *)

(** ** Facts about identifiers and keys *)

Section keys.

Lemma negate_involutive r : negate (negate r) = r.
Proof. by destruct r. Qed.

Lemma ltb_irrefl (s : string) : String.ltb s s = false.
Proof.
  unfold String.ltb.
  destruct (String.compare s s) eqn:E; try done.
  pose proof (String.compare_antisym s s) as H. rewrite E in H. done.
Qed.

Lemma ltb_asym (s1 s2 : string) :
  String.ltb s1 s2 = true → String.ltb s2 s1 = false.
Proof.
  unfold String.ltb. rewrite (String.compare_antisym s1 s2).
  by destruct (String.compare s2 s1).
Qed.

Lemma ltb_total (s1 s2 : string) :
  s1 ≠ s2 → String.ltb s1 s2 = true ∨ String.ltb s2 s1 = true.
Proof.
  intros Hne. unfold String.ltb. rewrite (String.compare_antisym s1 s2).
  destruct (String.compare s2 s1) eqn:E; simpl; auto.
  apply String.compare_eq_iff in E. congruence.
Qed.

(** Exactly one of [a < b], [b < a] holds for distinct strings. *)
Lemma js_lt_flip (a b : TaskId) :
  a ≠ b → js_lt (Id b) (Id a) = negb (js_lt (Id a) (Id b)).
Proof.
  intros Hne. simpl. destruct (ltb_total a b Hne) as [H|H].
  - rewrite H. by rewrite (ltb_asym _ _ H).
  - rewrite H. by rewrite (ltb_asym _ _ H).
Qed.

Lemma createCacheKey_comm (a b : TaskId) :
  createCacheKey (Id a) (Id b) = createCacheKey (Id b) (Id a).
Proof.
  destruct (decide (a = b)) as [->|Hne]; [done|].
  unfold createCacheKey. rewrite (js_lt_flip a b Hne).
  by destruct (js_lt (Id a) (Id b)).
Qed.

Lemma normalizeResult_flip (a b : TaskId) r :
  a ≠ b →
  normalizeResult (Id b) (Id a) r = negate (normalizeResult (Id a) (Id b) r).
Proof.
  intros Hne. unfold normalizeResult. rewrite (js_lt_flip a b Hne).
  destruct (js_lt (Id a) (Id b)); simpl; by rewrite ?negate_involutive.
Qed.

Lemma normalizeResult_involutive a b r :
  normalizeResult a b (normalizeResult a b r) = r.
Proof.
  unfold normalizeResult. destruct (js_lt a b); by rewrite ?negate_involutive.
Qed.

End keys.

(** ** The cache as a finite map *)

Lemma has_pipe_app (x y : string) :
  has_pipe (x +:+ y) = has_pipe x || has_pipe y.
Proof.
  induction x as [|c x IH]; simpl; [done|].
  rewrite IH. by rewrite orb_assoc.
Qed.

Lemma createCacheKey_has_pipe a b : has_pipe (createCacheKey a b) = true.
Proof.
  unfold createCacheKey.
  destruct (js_lt a b); rewrite !has_pipe_app; simpl;
    by rewrite orb_true_r.
Qed.

Lemma createCacheKey_not_proto a b : createCacheKey a b ≠ "__proto__".
Proof.
  intros E. pose proof (createCacheKey_has_pipe a b) as H.
  rewrite E in H. discriminate H.
Qed.

Lemma entries_fold_insert (record : gmap string CompareResult) :
  map_fold (λ key value c, <[key := value]> c) ∅ record = record.
Proof.
  apply (map_fold_weak_ind (λ r m, r = m)); [done|].
  by intros i x m r _ ->.
Qed.

Lemma createComparisonCache_Some record :
  createComparisonCache (Some record) = record.
Proof. apply entries_fold_insert. Qed.

Lemma fromRecord_eq c0 record : Cache.fromRecord c0 record = record.
Proof. apply entries_fold_insert. Qed.

Lemma toRecord_eq (c : Cache.t) : Cache.toRecord c = delete "__proto__" c.
Proof.
  unfold Cache.toRecord.
  apply (map_fold_weak_ind (λ r m, r = delete "__proto__" m)).
  - by rewrite delete_empty.
  - intros i x m r Hi ->. unfold record_assign. case_decide as E.
    + subst i. rewrite delete_insert_eq. done.
    + by rewrite delete_insert_ne.
Qed.

Lemma toRecord_lookup (c : Cache.t) key :
  key ≠ "__proto__" → Cache.toRecord c !! key = c !! key.
Proof. intros H. rewrite toRecord_eq. by rewrite lookup_delete_ne. Qed.

Lemma toRecord_lookup_key (c : Cache.t) a b :
  Cache.toRecord c !! createCacheKey a b = c !! createCacheKey a b.
Proof. apply toRecord_lookup, createCacheKey_not_proto. Qed.

Lemma toRecord_idemp (c : Cache.t) :
  Cache.toRecord (Cache.toRecord c) = Cache.toRecord c.
Proof. rewrite !toRecord_eq. apply delete_delete_eq. Qed.

Lemma get_toRecord c a b : Cache.get (Cache.toRecord c) a b = Cache.get c a b.
Proof. unfold Cache.get. by rewrite toRecord_lookup_key. Qed.

Lemma has_toRecord c a b : Cache.has (Cache.toRecord c) a b = Cache.has c a b.
Proof. unfold Cache.has. by rewrite toRecord_lookup_key. Qed.

Lemma has_get c a b : Cache.has c a b = true ↔ is_Some (Cache.get c a b).
Proof.
  unfold Cache.has, Cache.get. rewrite bool_decide_eq_true.
  destruct (c !! createCacheKey a b); split; intros [? ?]; eauto; done.
Qed.

Lemma has_false_get c a b : Cache.has c a b = false ↔ Cache.get c a b = None.
Proof.
  unfold Cache.has, Cache.get. rewrite bool_decide_eq_false.
  destruct (c !! createCacheKey a b); split; try done.
  intros H. destruct H. eauto.
Qed.

Lemma get_set_same c a b r : Cache.get (Cache.set c a b r) a b = Some r.
Proof.
  unfold Cache.get, Cache.set. rewrite lookup_insert_eq.
  by rewrite normalizeResult_involutive.
Qed.

Lemma has_comm c (a b : TaskId) :
  Cache.has c (Id a) (Id b) = Cache.has c (Id b) (Id a).
Proof. unfold Cache.has. by rewrite createCacheKey_comm. Qed.

Lemma get_flip c (a b : TaskId) :
  a ≠ b → Cache.get c (Id b) (Id a) = negate <$> Cache.get c (Id a) (Id b).
Proof.
  intros Hne. unfold Cache.get. rewrite (createCacheKey_comm b a).
  destruct (c !! createCacheKey (Id a) (Id b)); simpl; [|done].
  by rewrite normalizeResult_flip.
Qed.

(** ** Cache symmetry *)

(** C3, as the code has it.  For two distinct identifiers [a] and [b] and
    any result [r]: after [set(a,b,r)], [get(a,b)] is [r] and [get(b,a)] is
    the inverse of [r]; on any cache, [get(b,a)] is the inverse of
    [get(a,b)] or both are absent.  [has] does not depend on the order of
    its operands, whether they are distinct or not. *)
Theorem cache_symmetry (c : Cache.t) (a b : TaskId) (r : CompareResult) :
  a ≠ b →
  Cache.get (Cache.set c (Id a) (Id b) r) (Id a) (Id b) = Some r
  ∧ Cache.get (Cache.set c (Id a) (Id b) r) (Id b) (Id a) = Some (negate r)
  ∧ Cache.get c (Id b) (Id a) = negate <$> Cache.get c (Id a) (Id b)
  ∧ (∀ x y : TaskId, Cache.has c (Id x) (Id y) = Cache.has c (Id y) (Id x)).
Proof.
  intros Hne. split; [apply get_set_same|]. split; [|split].
  - rewrite get_flip by done. by rewrite get_set_same.
  - by apply get_flip.
  - intros x y. apply has_comm.
Qed.

Lemma cache_symmetry_witness :
  "A" ≠ "B"
  ∧ Cache.get (Cache.set ∅ (Id "A") (Id "B") Less) (Id "B") (Id "A")
    = Some Greater.
Proof.
  split; [done|].
  exact (proj1 (proj2 (cache_symmetry ∅ "A" "B" Less ltac:(done)))).
Defined.

(** C3 as stated fails when the two operands are the same identifier:
    after [set(x,x,greater)], [get(x,x)] is [greater], which is not the
    inverse of itself. *)
Lemma cache_self_pair_not_inverse :
  Cache.get (Cache.set ∅ (Id "x") (Id "x") Greater) (Id "x") (Id "x")
    = Some Greater
  ∧ Cache.get (Cache.set ∅ (Id "x") (Id "x") Greater) (Id "x") (Id "x")
    ≠ negate <$> Cache.get (Cache.set ∅ (Id "x") (Id "x") Greater)
                   (Id "x") (Id "x").
Proof. split; [reflexivity | by vm_compute]. Qed.

(** ** Serialization of the cache *)

(** C4.  [fromRecord(toRecord(c))] answers every pair query, [get] and
    [has], as [c] does; and [fromRecord] leaves nothing of the contents
    the cache had before: the cache is the imported record. *)
Theorem fromRecord_toRecord (c prior : Cache.t) :
  (∀ a b : IdVal,
     Cache.get (Cache.fromRecord prior (Cache.toRecord c)) a b = Cache.get c a b
     ∧ Cache.has (Cache.fromRecord prior (Cache.toRecord c)) a b
       = Cache.has c a b)
  ∧ (∀ record : gmap string CompareResult,
       Cache.fromRecord prior record = record).
Proof.
  split.
  - intros a b. rewrite fromRecord_eq. by rewrite get_toRecord, has_toRecord.
  - intros record. apply fromRecord_eq.
Qed.

(** ** Loops that accumulate *)

(** A [forEach] whose body keeps an invariant [P] and, for the element it
    visits, establishes a fact [Q] that later iterations do not undo. *)
Lemma foldl_establish {A B} (f : A → B → A) (P : A → Prop)
    (Q : B → A → Prop) (l : list B) (a : A) :
  P a →
  (∀ a x, x ∈ l → P a → P (f a x)) →
  (∀ a x, x ∈ l → P a → Q x (f a x)) →
  (∀ a x y, x ∈ l → P a → Q y a → Q y (f a x)) →
  P (foldl f a l) ∧ ∀ x, x ∈ l → Q x (foldl f a l).
Proof.
  intros Ha Hstep Hest Hkeep.
  assert (∀ l', l' ⊆ l → ∀ a, P a →
            P (foldl f a l') ∧
            (∀ y, Q y a → Q y (foldl f a l')) ∧
            (∀ x, x ∈ l' → Q x (foldl f a l'))) as Hgen.
  { induction l' as [|x l' IH]; intros Hsub a0 Ha0; simpl.
    - split; [done|]. split; [done|]. intros x Hx. by apply elem_of_nil in Hx.
    - assert (x ∈ l) as Hx by (apply Hsub; left).
      assert (l' ⊆ l) as Hsub' by (intros z Hz; apply Hsub; by right).
      destruct (IH Hsub' (f a0 x) (Hstep _ _ Hx Ha0)) as (IH1 & IH2 & IH3).
      split; [done|]. split.
      + intros y Hy. apply IH2. by apply Hkeep.
      + intros z Hz. apply elem_of_cons in Hz as [->|Hz].
        * apply IH2. by apply Hest.
        * by apply IH3. }
  destruct (Hgen l (reflexivity _) a Ha) as (H1 & _ & H3). done.
Qed.

Lemma foldl_invariant {A B} (f : A → B → A) (P : A → Prop)
    (l : list B) (a : A) :
  P a → (∀ a x, x ∈ l → P a → P (f a x)) → P (foldl f a l).
Proof.
  intros Ha Hstep.
  apply (foldl_establish f P (λ _ _, True) l a); auto.
Qed.

(** ** The comparison graph *)

Lemma edge_graph_add graph a b x y :
  is_Some (graph !! a) →
  edge (graph_add graph a b) x y ↔ edge graph x y ∨ (x = a ∧ y = b).
Proof.
  intros [s Hs]. unfold edge, graph_has, graph_add. rewrite Hs.
  destruct (decide (x = a)) as [->|Hne].
  - rewrite lookup_insert_eq, Hs. rewrite !bool_decide_eq_true.
    rewrite elem_of_union, elem_of_singleton. intuition congruence.
  - rewrite lookup_insert_ne by done. intuition congruence.
Qed.

Lemma keyed_graph_add taskIds graph a b :
  keyed taskIds graph → keyed taskIds (graph_add graph a b).
Proof.
  intros Hk id Hid. unfold graph_add.
  destruct (graph !! a) as [s|] eqn:Hs; [|by apply Hk].
  destruct (decide (id = a)) as [->|Hne].
  - rewrite lookup_insert_eq. eauto.
  - rewrite lookup_insert_ne by done. by apply Hk.
Qed.

Lemma keyed_closure_init taskIds : keyed taskIds (closure_init taskIds).
Proof.
  unfold closure_init.
  pose proof (foldl_establish
    (λ (graph : gmap TaskId (gset TaskId)) id, <[id := ∅]> graph)
    (λ _, True) (λ id g, is_Some (g !! id)) taskIds ∅) as H.
  destruct H as [_ H]; auto.
  - intros g x _ _. rewrite lookup_insert_eq. eauto.
  - intros g x y _ _ Hy. destruct (decide (x = y)) as [->|Hne].
    + rewrite lookup_insert_eq. eauto.
    + by rewrite lookup_insert_ne.
Qed.

Lemma no_edge_closure_init taskIds a b : ¬ edge (closure_init taskIds) a b.
Proof.
  unfold closure_init.
  apply (foldl_invariant
    (λ (graph : gmap TaskId (gset TaskId)) id, <[id := ∅]> graph)
    (λ g, ¬ edge g a b)).
  - unfold edge, graph_has. by rewrite lookup_empty.
  - intros g x _ Hg. unfold edge, graph_has in *.
    destruct (decide (x = a)) as [->|Hne].
    + rewrite lookup_insert_eq. rewrite bool_decide_eq_true. set_solver.
    + by rewrite lookup_insert_ne.
Qed.

(** The graph built from the direct comparisons has exactly the edges
    [a -> b] for which the cache says that [a] is greater than [b]. *)
Lemma closure_direct_body_spec cache taskIds a b graph :
  a ∈ taskIds → b ∈ taskIds → keyed taskIds graph →
  keyed taskIds (closure_direct_body cache a b graph)
  ∧ (∀ x y, edge (closure_direct_body cache a b graph) x y ↔
       edge graph x y
       ∨ (a ≠ b ∧ x = a ∧ y = b
          ∧ Cache.get cache (Id a) (Id b) = Some Greater)
       ∨ (a ≠ b ∧ x = b ∧ y = a
          ∧ Cache.get cache (Id a) (Id b) = Some Less)).
Proof.
  intros Ha Hb Hk. unfold closure_direct_body.
  destruct (decide (a = b)) as [->|Hne]; [split; [done|]; intuition|].
  destruct (Cache.get cache (Id a) (Id b)) as [[| |]|] eqn:Hget.
  - split; [by apply keyed_graph_add|]. intros x y.
    rewrite edge_graph_add by (by apply Hk). intuition congruence.
  - split; [done|]. intuition congruence.
  - split; [by apply keyed_graph_add|]. intros x y.
    rewrite edge_graph_add by (by apply Hk). intuition congruence.
  - split; [done|]. intuition congruence.
Qed.

Lemma closure_direct_spec cache taskIds graph :
  keyed taskIds graph → (∀ a b, ¬ edge graph a b) →
  keyed taskIds (closure_direct cache taskIds graph)
  ∧ (∀ a b, edge (closure_direct cache taskIds graph) a b
            ↔ direct cache taskIds a b).
Proof.
  intros Hk Hempty. unfold closure_direct.
  set (P := λ g : gmap TaskId (gset TaskId),
         keyed taskIds g ∧ ∀ x y, edge g x y → direct cache taskIds x y).
  set (inner := λ (g : gmap TaskId (gset TaskId)) a,
         foldl (λ g b, closure_direct_body cache a b g) g taskIds).
  assert (∀ g a, a ∈ taskIds → P g →
            P (inner g a)
            ∧ (∀ x y, edge g x y → edge (inner g a) x y)
            ∧ (∀ b, direct cache taskIds a b → edge (inner g a) a b))
    as Hinner.
  { intros g a Ha HP. unfold inner.
    pose proof (foldl_establish
      (λ g b, closure_direct_body cache a b g)
      (λ g', P g' ∧ ∀ x y, edge g x y → edge g' x y)
      (λ b g', direct cache taskIds a b → edge g' a b) taskIds g) as H.
    destruct H as [[H1 H2] H3].
    - split; [done|auto].
    - intros g' b Hb [[Hk' Hs'] Hmono].
      destruct (closure_direct_body_spec cache taskIds a b g' Ha Hb Hk')
        as [Hk'' He].
      split; [split; [done|]|].
      + intros x y. rewrite He. intros [?|[(Hne & -> & -> & Hg)|(Hne & -> & -> & Hg)]].
        * by apply Hs'.
        * done.
        * repeat split; try done. rewrite get_flip by done. by rewrite Hg.
      + intros x y Hxy. apply He. left. by apply Hmono.
    - intros g' b Hb [[Hk' Hs'] Hmono] (_ & _ & Hne & Hg).
      destruct (closure_direct_body_spec cache taskIds a b g' Ha Hb Hk')
        as [_ He].
      apply He. right. left. done.
    - intros g' b b' Hb [[Hk' Hs'] Hmono] Hq Hd.
      destruct (closure_direct_body_spec cache taskIds a b g' Ha Hb Hk')
        as [_ He].
      apply He. left. by apply Hq.
    - split; [done|]. split; [done|].
      intros b Hd. apply H3; [|done]. by destruct Hd as (_ & ? & _). }
  pose proof (foldl_establish inner P
    (λ a g, ∀ b, direct cache taskIds a b → edge g a b) taskIds graph) as H.
  destruct H as [[H1 H2] H3].
  - split; [done|]. intros x y Hxy. by destruct (Hempty x y).
  - intros g a Ha HP. by destruct (Hinner g a Ha HP).
  - intros g a Ha HP. by destruct (Hinner g a Ha HP) as (_ & _ & ?).
  - intros g a a' Ha HP Hq b Hd.
    destruct (Hinner g a Ha HP) as (_ & Hmono & _). apply Hmono. by apply Hq.
  - split; [done|]. intros a b. split; [apply H2|].
    intros Hd. apply H3; [|done]. by destruct Hd.
Qed.

(** ** The closure loops *)

Lemma has_set_mono c a b r x y :
  Cache.has c x y = true → Cache.has (Cache.set c a b r) x y = true.
Proof.
  unfold Cache.has, Cache.set. rewrite !bool_decide_eq_true.
  intros Hs. destruct (decide (createCacheKey a b = createCacheKey x y)) as [->|Hne].
  - rewrite lookup_insert_eq. eauto.
  - by rewrite lookup_insert_ne.
Qed.

Lemma has_set_same c a b r : Cache.has (Cache.set c a b r) a b = true.
Proof.
  unfold Cache.has, Cache.set. rewrite bool_decide_eq_true.
  rewrite lookup_insert_eq. eauto.
Qed.

Lemma closure_body_spec taskIds k i j graph c :
  i ∈ taskIds → keyed taskIds graph →
  ∃ graph' c',
    closure_body k i j (graph, c) = (graph', c')
    ∧ keyed taskIds graph'
    ∧ (∀ x y, edge graph' x y
              ↔ edge graph x y ∨ (fires graph k i j ∧ x = i ∧ y = j))
    ∧ (c' = c
       ∨ (fires graph k i j ∧ Cache.has c (Id i) (Id j) = false
          ∧ c' = Cache.set c (Id i) (Id j) Greater))
    ∧ (fires graph k i j → Cache.has c' (Id i) (Id j) = true).
Proof.
  intros Hi Hk. unfold closure_body, fires.
  destruct (decide (i = j ∨ i = k ∨ j = k)) as [Hskip|Hgo].
  { exists graph, c. repeat split; auto; intuition. }
  destruct (graph_has graph i k) eqn:Hik; simpl;
    [destruct (graph_has graph k j) eqn:Hkj; simpl|].
  - assert (fires graph k i j) as Hf.
    { unfold fires, edge. intuition. }
    eexists _, _. split; [done|]. split; [by apply keyed_graph_add|].
    split; [|split].
    + intros x y. rewrite edge_graph_add by (by apply Hk).
      unfold fires in Hf. intuition.
    + destruct (Cache.has c (Id i) (Id j)) eqn:Hhas; [by left|right; done].
    + intros _. destruct (Cache.has c (Id i) (Id j)) eqn:Hhas; [done|].
      apply has_set_same.
  - exists graph, c. unfold edge. rewrite Hkj.
    repeat split; auto; intuition congruence.
  - exists graph, c. unfold edge. rewrite Hik.
    repeat split; auto; intuition congruence.
Qed.

Lemma closure_body_inv cache0 taskIds k i j st :
  k ∈ taskIds → i ∈ taskIds → j ∈ taskIds →
  closure_inv cache0 taskIds st →
  closure_inv cache0 taskIds (closure_body k i j st).
Proof.
  destruct st as [g c].
  intros Hk Hi Hj [Hkeyed Hsound Hsub Hnew Hcached]. cbn [fst snd] in *.
  destruct (closure_body_spec taskIds k i j g c Hi Hkeyed)
    as (g' & c' & -> & Hk' & He & Hc & Hfc).
  assert (fires g k i j → i ≠ j ∧ tc (direct cache0 taskIds) i j) as Hchain.
  { intros (Hij & _ & _ & Hik & Hkj). split; [done|].
    destruct (Hsound _ _ Hik) as (_ & _ & _ & T1).
    destruct (Hsound _ _ Hkj) as (_ & _ & _ & T2).
    by etrans. }
  constructor; cbn [fst snd].
  - done.
  - intros x y. rewrite He. intros [Hxy|(Hf & -> & ->)]; [by apply Hsound|].
    destruct (Hchain Hf) as [? ?]. done.
  - intros key v Hv. apply Hsub in Hv.
    destruct Hc as [->|(Hf & Hhas & ->)]; [done|].
    unfold Cache.set. rewrite lookup_insert_ne; [done|].
    intros <-. unfold Cache.has in Hhas. rewrite Hv in Hhas.
    rewrite bool_decide_eq_false in Hhas. apply Hhas. eauto.
  - intros key v Hv.
    destruct Hc as [->|(Hf & Hhas & ->)]; [by apply Hnew|].
    unfold Cache.set in Hv.
    destruct (decide (createCacheKey (Id i) (Id j) = key)) as [<-|Hne].
    + rewrite lookup_insert_eq in Hv. injection Hv as <-.
      right. exists i, j. destruct (Hchain Hf) as [? ?].
      repeat split; try done.
      unfold Cache.has in *. rewrite bool_decide_eq_false in *.
      intros [w Hw]. apply Hhas. apply Hsub in Hw. eauto.
    + rewrite lookup_insert_ne in Hv by done. by apply Hnew.
  - intros x y. rewrite He. intros [Hxy|(Hf & -> & ->)]; [|by apply Hfc].
    pose proof (Hcached _ _ Hxy) as Hh.
    destruct Hc as [->|(_ & _ & ->)]; [done|]. by apply has_set_mono.
Qed.

(** Two nested [forEach] loops visit the pairs in row order. *)
Lemma foldl_nested {A B C} (f : A → B → C → A) (l1 : list B) (l2 : list C) a :
  foldl (λ a x, foldl (λ a y, f a x y) a l2) a l1
  = foldl (λ a p, f a p.1 p.2) a (list_prod l1 l2).
Proof.
  revert a. induction l1 as [|x l1 IH]; intros a; simpl; [done|].
  rewrite foldl_app, <- IH. f_equal.
  generalize a. clear. induction l2 as [|y l2 IH]; intros a; simpl; [done|].
  apply IH.
Qed.

Lemma elem_of_list_prod_1 {B C} (l1 : list B) (l2 : list C) p :
  p ∈ list_prod l1 l2 ↔ p.1 ∈ l1 ∧ p.2 ∈ l2.
Proof. rewrite <- list_cprod_list_prod. apply list_elem_of_cprod. Qed.

Lemma closure_round_spec cache0 taskIds k G C :
  k ∈ taskIds → closure_inv cache0 taskIds (G, C) →
  closure_inv cache0 taskIds (closure_round taskIds (G, C) k)
  ∧ (∀ x y, edge G x y → edge (closure_round taskIds (G, C) k).1 x y)
  ∧ (∀ x y, edge (closure_round taskIds (G, C) k).1 x y →
            edge G x y ∨ fires G k x y)
  ∧ (∀ i j, i ∈ taskIds → j ∈ taskIds → fires G k i j →
            edge (closure_round taskIds (G, C) k).1 i j).
Proof.
  intros Hk Hinv. unfold closure_round.
  rewrite (foldl_nested (λ st i j, closure_body k i j st)).
  set (R := λ st : gmap TaskId (gset TaskId) * Cache.t,
         closure_inv cache0 taskIds st
         ∧ (∀ x y, edge G x y → edge st.1 x y)
         ∧ (∀ x y, edge st.1 x y → edge G x y ∨ fires G k x y)).
  assert (∀ st i j, R st → fires st.1 k i j ↔ fires G k i j) as Hsame.
  { intros st i j (_ & Hmono & Hb). unfold fires. split.
    - intros (? & ? & ? & Hik & Hkj). repeat split; try done.
      + destruct (Hb _ _ Hik) as [?|(_ & _ & ? & _)]; done.
      + destruct (Hb _ _ Hkj) as [?|(_ & ? & _)]; done.
    - intros (? & ? & ? & Hik & Hkj). repeat split; auto. }
  pose proof (foldl_establish
    (λ st (p : TaskId * TaskId), closure_body k p.1 p.2 st) R
    (λ p st, fires G k p.1 p.2 → edge st.1 p.1 p.2)
    (list_prod taskIds taskIds) (G, C)) as H.
  destruct H as [(H1 & H2 & H3) H4].
  - split; [done|]. split; auto.
  - intros [g c] [i j] [Hi Hj]%elem_of_list_prod_1 HR. simpl in Hi, Hj.
    pose proof (Hsame _ i j HR) as Hs.
    destruct HR as (Hinv' & Hmono & Hb). cbn [fst snd] in *.
    pose proof (closure_body_inv cache0 taskIds k i j (g, c) Hk Hi Hj Hinv')
      as Hinv''.
    destruct (closure_body_spec taskIds k i j g c Hi (ci_keyed _ _ _ Hinv'))
      as (g' & c' & Heq & _ & He & _).
    rewrite Heq in *. split; [done|]. cbn [fst snd]. split.
    + intros x y Hxy. apply He. left. by apply Hmono.
    + intros x y. rewrite He. intros [Hxy|(Hf & -> & ->)]; [by apply Hb|].
      right. by apply Hs.
  - intros [g c] [i j] [Hi Hj]%elem_of_list_prod_1 HR Hf. simpl in Hi, Hj.
    pose proof (Hsame _ i j HR) as Hs.
    destruct HR as (Hinv' & Hmono & Hb). cbn [fst snd] in *.
    destruct (closure_body_spec taskIds k i j g c Hi (ci_keyed _ _ _ Hinv'))
      as (g' & c' & Heq & _ & He & _).
    rewrite Heq. cbn [fst snd]. apply He. right. split; [by apply Hs|done].
  - intros [g c] [i j] [i' j'] [Hi Hj]%elem_of_list_prod_1 HR Hq Hf.
    simpl in Hi, Hj. destruct HR as (Hinv' & Hmono & Hb). cbn [fst snd] in *.
    destruct (closure_body_spec taskIds k i j g c Hi (ci_keyed _ _ _ Hinv'))
      as (g' & c' & Heq & _ & He & _).
    rewrite Heq. cbn [fst snd]. apply He. left. by apply Hq.
  - split; [done|]. split; [done|]. split; [done|].
    intros i j Hi Hj Hf.
    apply (H4 (i, j)); [|done]. by apply elem_of_list_prod_1.
Qed.

(** After the round of [k], the graph is closed under steps through [k],
    and rounds do not undo this for the identifiers handled before. *)
Lemma closure_round_through cache0 taskIds k G C :
  k ∈ taskIds → closure_inv cache0 taskIds (G, C) →
  ∀ i j, fires (closure_round taskIds (G, C) k).1 k i j →
         edge (closure_round taskIds (G, C) k).1 i j.
Proof.
  intros Hk Hinv i j (Hij & Hik & Hjk & E1 & E2).
  destruct (closure_round_spec cache0 taskIds k G C Hk Hinv)
    as (_ & Hmono & Hb & Hc).
  assert (edge G i k) as E1'.
  { destruct (Hb _ _ E1) as [?|(_ & _ & ? & _)]; done. }
  assert (edge G k j) as E2'.
  { destruct (Hb _ _ E2) as [?|(_ & ? & _)]; done. }
  destruct (ci_sound _ _ _ Hinv _ _ E1') as (_ & Hi & _).
  destruct (ci_sound _ _ _ Hinv _ _ E2') as (_ & _ & Hj & _).
  apply Hc; [done|done|]. repeat split; done.
Qed.

Lemma closure_round_keeps cache0 taskIds k k' G C :
  k ∈ taskIds → closure_inv cache0 taskIds (G, C) →
  (∀ i j, fires G k' i j → edge G i j) →
  ∀ i j, fires (closure_round taskIds (G, C) k).1 k' i j →
         edge (closure_round taskIds (G, C) k).1 i j.
Proof.
  intros Hk Hinv Hthrough i j (Hij & Hik' & Hjk' & E1 & E2).
  destruct (closure_round_spec cache0 taskIds k G C Hk Hinv)
    as (_ & Hmono & Hb & Hc).
  assert (∀ x y, edge G x y → x ∈ taskIds ∧ y ∈ taskIds) as Hin.
  { intros x y Hxy. destruct (ci_sound _ _ _ Hinv _ _ Hxy) as (_ & ? & ? & _).
    done. }
  assert (∀ x y, x ≠ y → x ≠ k → y ≠ k → edge G x k → edge G k y →
            edge (closure_round taskIds (G, C) k).1 x y) as Hnew.
  { intros x y ? ? ? Hxk Hky. apply Hc; [by apply (Hin x k)|by apply (Hin k y)|].
    repeat split; done. }
  destruct (Hb _ _ E1) as [O1|(_ & N1a & N1b & N1c & N1d)];
    destruct (Hb _ _ E2) as [O2|(_ & N2a & N2b & N2c & N2d)].
  - apply Hmono, (Hthrough i j). repeat split; done.
  - (* i -> k' old; k' -> k -> j *)
    destruct (decide (i = k)) as [->|Hik]; [by apply Hmono|].
    apply Hnew; try done. apply (Hthrough i k). repeat split; done.
  - (* i -> k -> k'; k' -> j old *)
    destruct (decide (j = k)) as [->|Hjk]; [by apply Hmono|].
    apply Hnew; try done. apply (Hthrough k j). repeat split; done.
  - by apply Hnew.
Qed.

Lemma closure_loop_rounds taskIds st :
  closure_loop taskIds st = foldl (closure_round taskIds) st taskIds.
Proof. reflexivity. Qed.

Lemma closure_loop_spec cache0 taskIds G C :
  closure_inv cache0 taskIds (G, C) →
  closure_inv cache0 taskIds (closure_loop taskIds (G, C))
  ∧ (∀ x y, edge G x y → edge (closure_loop taskIds (G, C)).1 x y)
  ∧ (∀ k, k ∈ taskIds →
       ∀ i j, fires (closure_loop taskIds (G, C)).1 k i j →
              edge (closure_loop taskIds (G, C)).1 i j).
Proof.
  intros Hinv. rewrite closure_loop_rounds.
  pose proof (foldl_establish (closure_round taskIds)
    (λ st, closure_inv cache0 taskIds st ∧ ∀ x y, edge G x y → edge st.1 x y)
    (λ k st, ∀ i j, fires st.1 k i j → edge st.1 i j)
    taskIds (G, C)) as H.
  destruct H as [[H1 H2] H3].
  - split; [done|auto].
  - intros [g c] k Hk [Hi Hm].
    destruct (closure_round_spec cache0 taskIds k g c Hk Hi) as (? & Hmono & _).
    split; [done|]. intros x y Hxy. apply Hmono. by apply Hm.
  - intros [g c] k Hk [Hi Hm]. by apply (closure_round_through cache0).
  - intros [g c] k k' Hk [Hi Hm] Hq. by apply (closure_round_keeps cache0).
  - split; [done|]. split; done.
Qed.

(** Every chain of direct comparisons between two different identifiers
    ends up as an edge of the closed graph. *)
Lemma chain_edge (taskIds : list TaskId) (R : relation TaskId)
    (graph : gmap TaskId (gset TaskId)) :
  (∀ x y, R x y → x ≠ y ∧ y ∈ taskIds ∧ edge graph x y) →
  (∀ k, k ∈ taskIds → ∀ i j, fires graph k i j → edge graph i j) →
  ∀ i j, tc R i j → i = j ∨ edge graph i j.
Proof.
  intros Hdirect Hclosed i j Htc.
  induction Htc as [x y Hxy|x y z Hxy Hyz IH].
  - right. by destruct (Hdirect _ _ Hxy) as (_ & _ & ?).
  - destruct (Hdirect _ _ Hxy) as (Hne & Hy & Exy).
    destruct (decide (y = z)) as [<-|Hyz']; [by right|].
    destruct IH as [?|Eyz]; [done|].
    destruct (decide (x = z)) as [->|Hxz]; [by left|].
    right. apply (Hclosed y Hy).
    repeat split; done.
Qed.

Lemma closure_inv_start cache taskIds :
  closure_inv cache taskIds
    (closure_direct cache taskIds (closure_init taskIds), cache).
Proof.
  destruct (closure_direct_spec cache taskIds (closure_init taskIds)
              (keyed_closure_init taskIds) (no_edge_closure_init taskIds))
    as [Hk He].
  constructor; cbn [fst snd].
  - done.
  - intros x y Hxy%He. destruct Hxy as (Hx & Hy & Hne & Hg) eqn:E.
    repeat split; try done. apply tc_once. done.
  - done.
  - intros key v Hv. by left.
  - intros x y (_ & _ & _ & Hg)%He. apply has_get. rewrite Hg. eauto.
Qed.

Lemma closure_final cache taskIds :
  closure_inv cache taskIds
    (closure_loop taskIds
       (closure_direct cache taskIds (closure_init taskIds), cache))
  ∧ ∀ i j, i ≠ j → tc (direct cache taskIds) i j →
      edge (closure_loop taskIds
              (closure_direct cache taskIds (closure_init taskIds), cache)).1
        i j.
Proof.
  destruct (closure_loop_spec cache taskIds _ _ (closure_inv_start cache taskIds))
    as (Hinv & Hmono & Hclosed).
  split; [done|]. intros i j Hne Htc.
  destruct (closure_direct_spec cache taskIds (closure_init taskIds)
              (keyed_closure_init taskIds) (no_edge_closure_init taskIds))
    as [_ He].
  destruct (chain_edge taskIds (direct cache taskIds)
    (closure_loop taskIds
       (closure_direct cache taskIds (closure_init taskIds), cache)).1)
    with (i := i) (j := j) as [?|?]; [|done|done|done|done].
  intros x y Hd. pose proof Hd as (_ & Hy & Hxy & _).
  repeat split; [done|done|]. apply Hmono. by apply He.
Qed.

Lemma normalizeResult_strict a b r :
  r ≠ Equal → normalizeResult a b r ≠ Equal.
Proof. unfold normalizeResult. destruct (js_lt a b), r; simpl; done. Qed.

(** ** [requestNextPair] returns *)

Lemma array_pop_Some {A} (arr rest : list A) x :
  array_pop arr = Some (rest, x) ↔ arr = rest ++ [x].
Proof.
  unfold array_pop. split.
  - destruct (last arr) as [y|] eqn:Hl; [|done]. intros [= <- <-].
    apply last_Some in Hl as [l' ->].
    rewrite length_app. simpl.
    replace (length l' + 1 - 1) with (length l') by lia.
    by rewrite take_app_length.
  - intros ->. rewrite last_snoc, length_app. simpl.
    replace (length rest + 1 - 1) with (length rest) by lia.
    by rewrite take_app_length.
Qed.

Lemma array_pop_None {A} (arr : list A) : array_pop arr = None ↔ arr = [].
Proof.
  unfold array_pop. split.
  - destruct (last arr) eqn:Hl; [done|]. intros _. by apply last_None.
  - by intros ->.
Qed.

Lemma requestNextPair_fuel_step fuel state :
  requestNextPair_fuel (S fuel) state
  = match request_step state with
    | inl r => Some r
    | inr state' => requestNextPair_fuel fuel state'
    end.
Proof.
  unfold request_step. simpl.
  destruct (internal state) as [int|]; [|done].
  destruct (array_pop (stack int)) as [[rest frame]|].
  - destruct (bool_decide _ || bool_decide _); [done|].
    by destruct (Cache.has _ _ _).
  - by destruct (runs int) as [|? [|? ?]].
Qed.

Lemma sum_list_snoc (l : list nat) x : sum_list (l ++ [x]) = sum_list l + x.
Proof. induction l as [|y l IH]; simpl; lia. Qed.

Lemma sum_list_fmap_snoc {A} (f : A → nat) (l : list A) x :
  sum_list (f <$> l ++ [x]) = sum_list (f <$> l) + f x.
Proof. rewrite fmap_app. apply sum_list_snoc. Qed.

Lemma frame_rest_advance frame res :
  Frame.leftIdx frame < length (Frame.left frame) →
  Frame.rightIdx frame < length (Frame.right frame) →
  S (frame_rest (advanceFrame frame res)) = frame_rest frame
  ∧ frame_size (advanceFrame frame res) = frame_size frame.
Proof.
  intros Hl Hr. unfold frame_size, frame_rest.
  destruct res; simpl; rewrite ?length_app, !length_drop; simpl; lia.
Qed.

Lemma last_frame_rest_le int :
  from_option frame_rest 0 (last (stack int)) ≤ internal_size int.
Proof.
  unfold internal_size. destruct (last (stack int)) as [f|] eqn:Hl; simpl; [|lia].
  apply last_Some in Hl as [l' ->].
  rewrite sum_list_fmap_snoc. unfold frame_size. lia.
Qed.

Lemma request_step_decreases state state' :
  request_step state = inr state' → request_fuel state' < request_fuel state.
Proof.
  unfold request_step, request_fuel.
  destruct (internal state) as [int|]; [|done].
  destruct (array_pop (stack int)) as [[rest frame]|] eqn:Hpop.
  - apply array_pop_Some in Hpop.
    destruct (bool_decide _ || bool_decide _) eqn:Hdone.
    + intros [= <-]. simpl.
      pose proof (last_frame_rest_le
        {| runs := runs int
             ++ [Frame.merged frame
                   ++ drop (Frame.leftIdx frame) (Frame.left frame)
                   ++ drop (Frame.rightIdx frame) (Frame.right frame)];
           stack := rest; result := result int |}) as Hle.
      revert Hle. unfold internal_size. simpl.
      rewrite Hpop. rewrite last_snoc. simpl.
      rewrite !length_app, !sum_list_fmap_snoc. simpl.
      rewrite !length_app. fold (frame_rest frame). unfold frame_size.
      generalize (from_option frame_rest 0 (last rest)).
      generalize (sum_list (length <$> runs int)).
      generalize (sum_list
        ((λ f, length (Frame.merged f) + frame_rest f) <$> rest)).
      generalize (length (Frame.merged frame)) (frame_rest frame).
      generalize (length (runs int)) (length rest). intros. nia.
    + apply orb_false_iff in Hdone as [H1 H2].
      apply bool_decide_eq_false in H1, H2.
      destruct (Cache.has _ _ _); [|done]. intros [= <-].
      match goal with
      | |- context [advanceFrame frame ?r] =>
        destruct (frame_rest_advance frame r) as [Hrest Hsize]; [lia|lia|];
        generalize dependent (advanceFrame frame r)
      end.
      intros frame' Hrest Hsize.
      unfold internal_size. simpl. rewrite Hpop.
      rewrite !last_snoc, !length_app, !sum_list_fmap_snoc. simpl.
      rewrite Hsize. lia.
  - apply array_pop_None in Hpop.
    destruct (runs int) as [|l [|r others]] eqn:Hruns; [done|done|].
    intros [= <-]. simpl. rewrite Hpop. simpl.
    unfold internal_size. simpl. rewrite Hpop, Hruns. simpl.
    unfold frame_size, frame_rest. simpl. rewrite !drop_0.
    change (list_fmap (list IdVal) nat length others) with (length <$> others).
    generalize (sum_list (length <$> others)) (length l) (length r)
      (length others). intros. nia.
Qed.

Lemma request_fuel_pos state : 0 < request_fuel state.
Proof. unfold request_fuel. destruct (internal state); lia. Qed.

(** The fuel computed by [request_fuel], or any larger one, is enough. *)
Lemma requestNextPair_fuel_enough fuel state :
  request_fuel state ≤ fuel → is_Some (requestNextPair_fuel fuel state).
Proof.
  revert state. induction fuel as [|fuel IH]; intros state Hle.
  - pose proof (request_fuel_pos state). lia.
  - rewrite requestNextPair_fuel_step.
    destruct (request_step state) as [r|state'] eqn:Hstep; [eauto|].
    apply IH. apply request_step_decreases in Hstep. lia.
Qed.

Lemma requestNextPair_fuel_mono fuel fuel' state r :
  requestNextPair_fuel fuel state = Some r → fuel ≤ fuel' →
  requestNextPair_fuel fuel' state = Some r.
Proof.
  revert fuel' state. induction fuel as [|fuel IH]; intros fuel' state; [done|].
  destruct fuel' as [|fuel']; [lia|]. rewrite !requestNextPair_fuel_step.
  destruct (request_step state); [done|]. intros H Hle. apply IH; [done|lia].
Qed.

Lemma requestNextPair_fuel_eq fuel state r :
  requestNextPair_fuel fuel state = Some r → requestNextPair state = r.
Proof.
  intros H. unfold requestNextPair.
  destruct (requestNextPair_fuel_enough (request_fuel state) state) as [r' Hr'];
    [done|].
  rewrite Hr'. simpl.
  destruct (decide (fuel ≤ request_fuel state)).
  - rewrite (requestNextPair_fuel_mono _ _ _ _ H) in Hr' by done. congruence.
  - rewrite (requestNextPair_fuel_mono _ _ _ _ Hr') in H by lia. congruence.
Qed.

(** The recursion equation of [requestNextPair]. *)
Lemma requestNextPair_unfold state :
  requestNextPair state
  = match request_step state with
    | inl r => r
    | inr state' => requestNextPair state'
    end.
Proof.
  destruct (requestNextPair_fuel_enough (request_fuel state) state) as [r Hr];
    [done|].
  rewrite (requestNextPair_fuel_eq _ _ _ Hr).
  destruct (request_fuel state) as [|fuel] eqn:Hf; [done|].
  rewrite requestNextPair_fuel_step in Hr.
  destruct (request_step state) as [r'|state']; [congruence|].
  symmetry. by apply (requestNextPair_fuel_eq fuel).
Qed.

(** Induction along the calls that [requestNextPair] makes to itself. *)
Lemma requestNextPair_ind
    (P : SortingState → option ComparisonPair * SortingState → Prop) :
  (∀ state r, request_step state = inl r → P state r) →
  (∀ state state' r, request_step state = inr state' →
     P state' r → P state r) →
  ∀ state, P state (requestNextPair state).
Proof.
  intros Hret Hrec state.
  remember (request_fuel state) as n eqn:Hn. revert state Hn.
  induction (lt_wf n) as [n _ IH]. intros state ->.
  rewrite requestNextPair_unfold.
  destruct (request_step state) as [r|state'] eqn:Hstep.
  - by apply Hret.
  - apply (Hrec _ state'); [done|].
    apply (IH (request_fuel state')); [|done].
    by apply request_step_decreases.
Qed.

(** ** What a call of [requestNextPair] returns *)

Lemma request_step_pair state p state' :
  request_step state = inl (Some p, state') →
  state' = state
  ∧ ∃ int rest frame,
      internal state = Some int
      ∧ stack int = rest ++ [frame]
      ∧ Frame.leftIdx frame < length (Frame.left frame)
      ∧ Frame.rightIdx frame < length (Frame.right frame)
      ∧ p = MkPair (array_get (Frame.left frame) (Frame.leftIdx frame))
                   (array_get (Frame.right frame) (Frame.rightIdx frame))
      ∧ Cache.has (cache state) (pair_a p) (pair_b p) = false.
Proof.
  unfold request_step. rewrite createComparisonCache_Some.
  destruct (internal state) as [int|]; [|done].
  destruct (array_pop (stack int)) as [[rest frame]|] eqn:Hpop.
  - apply array_pop_Some in Hpop.
    destruct (bool_decide _ || bool_decide _) eqn:Hdone; [done|].
    apply orb_false_iff in Hdone as [H1 H2].
    apply bool_decide_eq_false in H1, H2.
    destruct (Cache.has _ _ _) eqn:Hhas; [done|]. intros [= <- <-].
    split; [done|]. exists int, rest, frame. simpl.
    repeat split; try done; lia.
  - by destruct (runs int) as [|? [|? ?]].
Qed.

Lemma request_step_done state state' :
  request_step state = inl (None, state') →
  (internal state = None ∧ state' = state)
  ∨ ∃ int, internal state = Some int ∧ stack int = []
      ∧ ((runs int = [] ∧ state' = state)
         ∨ ∃ run, runs int = [run]
             ∧ state' = with_internal state
                          {| runs := [run]; stack := []; result := run |}).
Proof.
  unfold request_step.
  destruct (internal state) as [int|] eqn:Hint; [|intros [= <-]; by left].
  destruct (array_pop (stack int)) as [[rest frame]|] eqn:Hpop.
  - destruct (bool_decide _ || bool_decide _); [done|].
    by destruct (Cache.has _ _ _).
  - apply array_pop_None in Hpop. intros H. right. exists int.
    split; [done|]. split; [done|].
    destruct (runs int) as [|run [|? ?]] eqn:Hruns; [| |done].
    + injection H as <-. by left.
    + injection H as <-. right. exists run. by rewrite Hpop.
Qed.

(** The state returned with a pair is one on which [requestNextPair]
    returns that pair at once. *)
Lemma requestNextPair_pending state p :
  (requestNextPair state).1 = Some p →
  request_step (requestNextPair state).2 = inl (Some p, (requestNextPair state).2).
Proof.
  revert p. apply (requestNextPair_ind
    (λ _ r, ∀ p, r.1 = Some p → request_step r.2 = inl (Some p, r.2))).
  - intros st [[q|] st'] Hstep p; simpl; [|done]. intros [= ->].
    destruct (request_step_pair _ _ _ Hstep) as [-> _]. done.
  - auto.
Qed.

Lemma requestNextPair_idempotent state :
  requestNextPair (requestNextPair state).2 = requestNextPair state
  ∨ (requestNextPair state).1 = None.
Proof.
  destruct (requestNextPair state) as [[p|] st'] eqn:E; [left|by right].
  pose proof (requestNextPair_pending state p) as H. rewrite E in H.
  simpl in *. rewrite requestNextPair_unfold. by rewrite H.
Qed.

(** ** Invariants of the protocol *)

Lemma requestNextPair_invariant (I : SortingState → Prop) :
  (∀ st st', I st → request_step st = inr st' → I st') →
  (∀ st st', I st → request_step st = inl (None, st') → I st') →
  ∀ state, I state → I (requestNextPair state).2.
Proof.
  intros Hrec Hdone.
  apply (requestNextPair_ind (λ st r, I st → I r.2)).
  - intros st [[p|] st'] Hstep HI; simpl.
    + by destruct (request_step_pair _ _ _ Hstep) as [-> _].
    + by apply (Hdone st).
  - intros st st' r Hstep IH HI. apply IH. by apply (Hrec st).
Qed.

Lemma protocol_invariant (I : SortingState → Prop) start :
  I start →
  (∀ st st', I st → request_step st = inr st' → I st') →
  (∀ st st', I st → request_step st = inl (None, st') → I st') →
  (∀ st p res st',
     I st → request_step st = inl (Some p, st) →
     commitComparison st (pair_a p) (pair_b p) res = Some st' → I st') →
  ∀ state, protocol start state → I state.
Proof.
  intros Hstart Hrec Hdone Hcommit state Hp.
  induction Hp as [|st Hp IH|st p res st' Hp IH Hreq Hc].
  - done.
  - by apply requestNextPair_invariant.
  - apply (Hcommit (requestNextPair st).2 p res); [|by apply requestNextPair_pending|done].
    by apply requestNextPair_invariant.
Qed.

(** [requestNextPair] changes nothing but the algorithm's cursor. *)
Lemma request_step_frame state state' :
  request_step state = inr state' →
  algo state' = algo state
  ∧ comparisonsAsked state' = comparisonsAsked state
  ∧ comparisonsTotal state' = comparisonsTotal state
  ∧ cache state' = cache state.
Proof.
  unfold request_step.
  destruct (internal state) as [int|]; [|done].
  destruct (array_pop (stack int)) as [[rest frame]|].
  - destruct (bool_decide _ || bool_decide _); [by intros [= <-]|].
    destruct (Cache.has _ _ _); [by intros [= <-]|done].
  - destruct (runs int) as [|? [|? ?]]; [done|done|by intros [= <-]].
Qed.

Lemma request_step_done_frame state state' :
  request_step state = inl (None, state') →
  algo state' = algo state
  ∧ comparisonsAsked state' = comparisonsAsked state
  ∧ comparisonsTotal state' = comparisonsTotal state
  ∧ cache state' = cache state.
Proof.
  intros [[_ ->]|(int & _ & _ & [[_ ->]|(run & _ & ->)])]%request_step_done;
    done.
Qed.

Lemma requestNextPair_frame state :
  algo (requestNextPair state).2 = algo state
  ∧ comparisonsAsked (requestNextPair state).2 = comparisonsAsked state
  ∧ comparisonsTotal (requestNextPair state).2 = comparisonsTotal state
  ∧ cache (requestNextPair state).2 = cache state.
Proof.
  apply (requestNextPair_invariant (λ st,
    algo st = algo state
    ∧ comparisonsAsked st = comparisonsAsked state
    ∧ comparisonsTotal st = comparisonsTotal state
    ∧ cache st = cache state)); [| |done].
  - intros st st' (? & ? & ? & ?) (? & ? & ? & ?)%request_step_frame.
    repeat split; congruence.
  - intros st st' (? & ? & ? & ?) (? & ? & ? & ?)%request_step_done_frame.
    repeat split; congruence.
Qed.

(** ** Degenerate input *)

(** For a list of at most one identifier, [requestNextPair] signals
    completion at once and nothing has been asked. *)
Lemma degenerate_session_done (taskIds : list TaskId) existingCache :
  length taskIds ≤ 1 →
  (requestNextPair (createSession taskIds existingCache)).1 = None
  ∧ comparisonsAsked (createSession taskIds existingCache) = 0
  ∧ comparisonsAsked (requestNextPair (createSession taskIds existingCache)).2
    = 0.
Proof.
  intros Hlen. split; [|split; [done|]].
  - rewrite requestNextPair_unfold.
    destruct taskIds as [|id [|? ?]]; [done|done|simpl in Hlen; lia].
  - by destruct (requestNextPair_frame (createSession taskIds existingCache))
      as (_ & -> & _).
Qed.

(** A session over a single identifier is complete from the start. *)
Lemma single_item_session_complete (id : TaskId) existingCache :
  isComplete (createSession [id] existingCache) = true
  ∧ finalize (requestNextPair (createSession [id] existingCache)).2 = [Id id].
Proof. split; [done|]. by rewrite requestNextPair_unfold. Qed.

(** C6 holds for a single identifier and, for the empty list, as far as
    the request goes: [requestNextPair] returns "done" with nothing asked.
    But [isComplete] is false on the session of an empty list, before and
    after the request, because it insists on exactly one run. *)
Theorem isComplete_empty_session existingCache :
  (requestNextPair (createSession [] existingCache)).1 = None
  ∧ comparisonsAsked (requestNextPair (createSession [] existingCache)).2 = 0
  ∧ isComplete (createSession [] existingCache) = false
  ∧ isComplete (requestNextPair (createSession [] existingCache)).2 = false.
Proof.
  destruct (degenerate_session_done [] existingCache) as (H1 & _ & H2);
    [simpl; lia|].
  split; [done|]. split; [done|]. split; [done|].
  by rewrite requestNextPair_unfold.
Qed.

(** ** Commits are not validated *)

Lemma commitComparison_Some state a b res int :
  internal state = Some int →
  commitComparison state a b res
  = Some {| algo := algo state;
            comparisonsAsked := comparisonsAsked state + 1;
            comparisonsTotal := comparisonsTotal state;
            cache := Cache.toRecord (Cache.set (cache state) a b res);
            internal := Some
              match array_pop (stack int) with
              | Some (rest, frame) =>
                {| runs := runs int;
                   stack := rest ++ [advanceFrame frame res];
                   result := result int |}
              | None => int
              end |}.
Proof.
  intros Hint. unfold commitComparison.
  by rewrite Hint, createComparisonCache_Some.
Qed.

(** C5, as the code has it.  [commitComparison] compares neither the pair
    it is given with the pending one nor checks that a frame is active; it
    fails only on a state without algorithm state.  Otherwise it records
    the answer and counts it, and then: without an active frame the run
    queue, the stack and the result stay as they are; with one, the top
    frame is advanced by the result, whatever the pair. *)
Theorem commitComparison_unchecked state (a b : IdVal) (res : CompareResult) :
  (internal state = None → commitComparison state a b res = None)
  ∧ (∀ int, internal state = Some int →
       ∃ state',
         commitComparison state a b res = Some state'
         ∧ comparisonsAsked state' = comparisonsAsked state + 1
         ∧ Cache.get (cache state') a b = Some res
         ∧ (stack int = [] → internal state' = Some int)
         ∧ (∀ rest frame,
              stack int = rest ++ [frame] →
              internal state'
              = Some {| runs := runs int;
                        stack := rest ++ [advanceFrame frame res];
                        result := result int |})).
Proof.
  split.
  - intros Hint. unfold commitComparison. by rewrite Hint.
  - intros int Hint. eexists. split; [by apply commitComparison_Some|].
    simpl. split; [done|]. split; [|split].
    + rewrite get_toRecord. apply get_set_same.
    + intros ->. by destruct int.
    + intros rest frame Hs.
      by rewrite (proj2 (array_pop_Some _ _ _) Hs).
Qed.

Lemma commitComparison_unchecked_witness :
  internal (createSession ["A"; "B"] None)
  = Some {| runs := [[Id "A"]; [Id "B"]]; stack := []; result := [] |}
  ∧ ∃ state',
      commitComparison (createSession ["A"; "B"] None) (Id "X") (Id "Y") Less
      = Some state'
      ∧ comparisonsAsked state' = 1
      ∧ Cache.get (cache state') (Id "X") (Id "Y") = Some Less.
Proof.
  split; [reflexivity|].
  destruct (proj2 (commitComparison_unchecked
    (createSession ["A"; "B"] None) (Id "X") (Id "Y") Less) _ eq_refl)
    as (state' & H1 & H2 & H3 & _).
  exists state'. split; [exact H1|]. split; [exact H2|exact H3].
Defined.

(** C5 as stated fails.  The pair [(A,B)] is pending on the session of
    [A], [B], [C]; a commit for the pair [(X,Y)] is accepted and moves [A]
    to the output of the frame. *)
Lemma commit_other_pair_accepted :
  (requestNextPair (createSession ["A"; "B"; "C"] None)).1
  = Some (MkPair (Id "A") (Id "B"))
  ∧ internal (requestNextPair (createSession ["A"; "B"; "C"] None)).2
    = Some {| runs := [[Id "C"]];
              stack := [Frame.mk [Id "A"] [Id "B"] 0 0 []];
              result := [] |}
  ∧ ∃ state',
      commitComparison (requestNextPair (createSession ["A"; "B"; "C"] None)).2
        (Id "X") (Id "Y") Greater = Some state'
      ∧ internal state'
        = Some {| runs := [[Id "C"]];
                  stack := [Frame.mk [Id "A"] [Id "B"] 1 0 [Id "A"]];
                  result := [] |}.
Proof.
  split; [by vm_compute|]. split; [by vm_compute|].
  eexists. split; by vm_compute.
Qed.

(** ** Restarting with the cache *)

Lemma commitComparison_cache_grows state a b res state' key :
  commitComparison state a b res = Some state' →
  key ≠ "__proto__" → is_Some (cache state !! key) →
  is_Some (cache state' !! key).
Proof.
  destruct (internal state) as [int|] eqn:Hint;
    [|unfold commitComparison; by rewrite Hint].
  rewrite (commitComparison_Some _ _ _ _ _ Hint).
  intros [= <-] Hkey Hs. cbn [cache].
  rewrite toRecord_lookup by done.
  unfold Cache.set.
  destruct (decide (createCacheKey a b = key)) as [<-|Hne].
  - rewrite lookup_insert_eq. eauto.
  - by rewrite lookup_insert_ne.
Qed.

Lemma createSession_cache taskIds record :
  cache (createSession taskIds (Some record)) = Cache.toRecord record.
Proof. unfold createSession. cbn [cache]. by rewrite createComparisonCache_Some. Qed.

Lemma reachable_cache_grows start st key :
  reachable start st →
  key ≠ "__proto__" → is_Some (cache start !! key) →
  is_Some (cache st !! key).
Proof.
  intros Hreach Hkey Hs.
  induction Hreach as [|st Hreach IH|st a b res st' Hreach IH Hc].
  - done.
  - by destruct (requestNextPair_frame st) as (_ & _ & _ & ->).
  - by apply (commitComparison_cache_grows _ _ _ _ _ _ Hc Hkey).
Qed.

(** C9.  [resetWithCache(state, itemIds)] is [createSession(itemIds,
    state.cache)]; and in the restarted session, whatever the caller does
    with it, [requestNextPair] never returns a pair for which the cache of
    [state] has an answer. *)
Theorem resetWithCache_never_reasks state (taskIds : list TaskId) :
  resetWithCache state taskIds = createSession taskIds (Some (cache state))
  ∧ ∀ st p,
      reachable (resetWithCache state taskIds) st →
      (requestNextPair st).1 = Some p →
      Cache.has (cache state) (pair_a p) (pair_b p) = false.
Proof.
  split; [done|]. intros st p Hreach Hp.
  pose proof (requestNextPair_pending st p Hp) as Hpend.
  apply request_step_pair in Hpend
    as (_ & int & rest & frame & _ & _ & _ & _ & _ & Hno).
  destruct (requestNextPair_frame st) as (_ & _ & _ & Hcache).
  rewrite Hcache in Hno.
  unfold Cache.has in *. rewrite bool_decide_eq_false in *.
  intros Hs. apply Hno.
  apply (reachable_cache_grows _ _ _ Hreach (createCacheKey_not_proto _ _)).
  unfold resetWithCache. by rewrite createSession_cache, toRecord_lookup_key.
Qed.

Lemma resetWithCache_never_reasks_witness :
  (requestNextPair
     (resetWithCache (createSession [] (Some {[ "A|B" := Greater ]}))
        ["A"; "B"; "C"])).1
  = Some (MkPair (Id "C") (Id "A"))
  ∧ Cache.has (cache (createSession [] (Some {[ "A|B" := Greater ]})))
      (Id "C") (Id "A") = false.
Proof.
  split; [by vm_compute|].
  apply (proj2 (resetWithCache_never_reasks
                  (createSession [] (Some {[ "A|B" := Greater ]}))
                  ["A"; "B"; "C"])
           _ (MkPair (Id "C") (Id "A")) (reachable_start _)).
  by vm_compute.
Defined.

(** * Further properties of the merge engine *)

(** ** [requestNextPair] on arbitrary states *)

(** [requestNextPair] returns on every state, also on one that no session
    produces (cursors past the end, several frames on the stack): the
    number of calls it makes to itself stays below [request_fuel]. *)
Theorem requestNextPair_terminates state :
  requestNextPair_fuel (request_fuel state) state
  = Some (requestNextPair state).
Proof.
  destruct (requestNextPair_fuel_enough (request_fuel state) state) as [r Hr];
    [done|].
  by rewrite (requestNextPair_fuel_eq _ _ _ Hr).
Qed.

(** The state that [requestNextPair] leaves is one on which it returns at
    once, with the same answer and without changing the state again. *)
Lemma requestNextPair_settled state :
  request_step (requestNextPair state).2 = inl (requestNextPair state).
Proof.
  apply (requestNextPair_ind (λ _ r, request_step r.2 = inl r)); [|auto].
  intros st [[p|] st'] Hstep; simpl.
  - destruct (request_step_pair _ _ _ Hstep) as [-> _]. done.
  - destruct (request_step_done _ _ Hstep)
      as [[_ ->]|(int & Hint & Hstack & [[_ ->]|(run & Hruns & ->)])];
      done.
Qed.

Lemma requestNextPair_fixed state :
  requestNextPair (requestNextPair state).2 = requestNextPair state.
Proof.
  rewrite requestNextPair_unfold. by rewrite requestNextPair_settled.
Qed.

(** Asking again without committing changes nothing: the same pair (or
    "done") comes back and the state stays as the first call left it,
    also when asked a third time. *)
Theorem requestNextPair_again state :
  requestNextPair (requestNextPair state).2 = requestNextPair state
  ∧ (requestNextPair (requestNextPair state).2).2 = (requestNextPair state).2
  ∧ requestNextPair (requestNextPair (requestNextPair state).2).2
    = requestNextPair state.
Proof.
  pose proof (requestNextPair_fixed state) as H.
  split; [done|]. split; [by rewrite H|]. by rewrite H, H.
Qed.

(** [requestNextPair] changes the algorithm's cursor only: the strategy
    tag, the number of comparisons asked, the estimate and the cache stay
    as they are, however many cached answers the call consumes. *)
Theorem requestNextPair_keeps_record state :
  algo (requestNextPair state).2 = algo state
  ∧ comparisonsAsked (requestNextPair state).2 = comparisonsAsked state
  ∧ comparisonsTotal (requestNextPair state).2 = comparisonsTotal state
  ∧ cache (requestNextPair state).2 = cache state.
Proof.
  apply (requestNextPair_invariant (λ st,
    algo st = algo state
    ∧ comparisonsAsked st = comparisonsAsked state
    ∧ comparisonsTotal st = comparisonsTotal state
    ∧ cache st = cache state)); [| |done].
  - intros st st' (? & ? & ? & ?) Hstep.
    apply request_step_frame in Hstep as (? & ? & ? & ?).
    repeat split; congruence.
  - intros st st' (? & ? & ? & ?) Hstep.
    apply request_step_done_frame in Hstep as (? & ? & ? & ?).
    repeat split; congruence.
Qed.

(** A pair that [requestNextPair] returns is the pair under the cursors of
    the top frame, both cursors are inside their runs, and the cache has
    no answer for it. *)
Theorem requestNextPair_pair_pending state p :
  (requestNextPair state).1 = Some p →
  ∃ int rest frame,
    internal (requestNextPair state).2 = Some int
    ∧ stack int = rest ++ [frame]
    ∧ Frame.leftIdx frame < length (Frame.left frame)
    ∧ Frame.rightIdx frame < length (Frame.right frame)
    ∧ Frame.left frame !! Frame.leftIdx frame = Some (pair_a p)
    ∧ Frame.right frame !! Frame.rightIdx frame = Some (pair_b p)
    ∧ Cache.has (cache state) (pair_a p) (pair_b p) = false.
Proof.
  intros Hp. pose proof (requestNextPair_settled state) as Hs.
  destruct (requestNextPair state) as [q st'] eqn:E. simpl in *. subst q.
  apply request_step_pair in Hs
    as (_ & int & rest & frame & Hint & Hstack & Hl & Hr & -> & Hno).
  exists int, rest, frame. simpl in *.
  destruct (requestNextPair_frame state) as (_ & _ & _ & Hc).
  rewrite E in Hc. simpl in Hc. rewrite Hc in Hno.
  repeat split; try done.
  - unfold array_get. destruct (lookup_lt_is_Some_2 _ _ Hl) as [x ->]. done.
  - unfold array_get. destruct (lookup_lt_is_Some_2 _ _ Hr) as [x ->]. done.
Qed.

Lemma requestNextPair_pair_pending_witness :
  (requestNextPair (createSession ["A"; "B"; "C"] None)).1
  = Some (MkPair (Id "A") (Id "B"))
  ∧ ∃ int rest frame,
      internal (requestNextPair (createSession ["A"; "B"; "C"] None)).2
      = Some int
      ∧ stack int = rest ++ [frame]
      ∧ Frame.left frame !! Frame.leftIdx frame = Some (Id "A")
      ∧ Frame.right frame !! Frame.rightIdx frame = Some (Id "B").
Proof.
  split; [by vm_compute|].
  destruct (requestNextPair_pair_pending
              (createSession ["A"; "B"; "C"] None)
              (MkPair (Id "A") (Id "B")) ltac:(by vm_compute))
    as (int & rest & frame & H1 & H2 & _ & _ & H3 & H4 & _).
  exists int, rest, frame. repeat split; assumption.
Defined.

(** When [requestNextPair] signals "done", no frame is active and at most
    one run is left.  If one is left, it is stored as the result, it is
    what [finalize] returns, and [isComplete] holds; if none is left (the
    list was empty), [finalize] returns the stored result and [isComplete]
    is false. *)
Theorem requestNextPair_done state int :
  (requestNextPair state).1 = None →
  internal (requestNextPair state).2 = Some int →
  stack int = []
  ∧ ((runs int = []
      ∧ finalize (requestNextPair state).2 = result int
      ∧ isComplete (requestNextPair state).2 = false)
     ∨ (runs int = [result int]
        ∧ finalize (requestNextPair state).2 = result int
        ∧ isComplete (requestNextPair state).2 = true)).
Proof.
  intros Hp Hint. pose proof (requestNextPair_settled state) as Hs.
  destruct (requestNextPair state) as [q st'] eqn:E. simpl in *. subst q.
  apply request_step_done in Hs
    as [[Hn _]|(int' & Hint' & Hstack & [[Hruns _]|(run & Hruns & Heq)])].
  - congruence.
  - assert (int' = int) as -> by congruence. split; [done|]. left.
    unfold finalize, isComplete. rewrite Hint, Hruns, Hstack. done.
  - assert (int' = int) as -> by congruence. split; [done|]. right.
    assert (result int = run) as Hres.
    { rewrite Heq in Hint. simpl in Hint. by injection Hint as <-. }
    unfold finalize, isComplete. rewrite Hint, Hruns, Hstack, Hres. done.
Qed.

Lemma requestNextPair_done_witness :
  (requestNextPair (createSession ["A"] None)).1 = None
  ∧ finalize (requestNextPair (createSession ["A"] None)).2 = [Id "A"]
  ∧ isComplete (requestNextPair (createSession ["A"] None)).2 = true.
Proof.
  split; [by vm_compute|].
  destruct (requestNextPair_done (createSession ["A"] None)
              {| runs := [[Id "A"]]; stack := []; result := [Id "A"] |}
              ltac:(by vm_compute) ltac:(by vm_compute))
    as [_ [(Hr & _)|(_ & H1 & H2)]].
  - discriminate Hr.
  - split; [exact H1|exact H2].
Defined.

(** * Further properties of the comparison cache *)

(** ** Pair keys *)

Lemma pipe_split (x x' y y' : string) :
  has_pipe x = false → has_pipe x' = false →
  x +:+ "|" +:+ y = x' +:+ "|" +:+ y' → x = x' ∧ y = y'.
Proof.
  revert x'. induction x as [|c x IH]; intros [|c' x'] Hx Hx'; simpl in *.
  - intros [= H]. by subst.
  - intros [= H _]. subst c'. by rewrite bool_decide_eq_true_2 in Hx'.
  - intros [= H _]. subst c. by rewrite bool_decide_eq_true_2 in Hx.
  - apply orb_false_iff in Hx as [_ Hx]. apply orb_false_iff in Hx' as [_ Hx'].
    intros [= H Heq]. subst c'. destruct (IH x' Hx Hx' Heq) as [H1 H2].
    by subst.
Qed.

(** Two identifiers with a [|] inside can share their key with another
    pair: the key does not tell where the first identifier ends. *)
Lemma createCacheKey_collision :
  createCacheKey (Id "a") (Id "b|c") = createCacheKey (Id "a|b") (Id "c").
Proof. reflexivity. Qed.

Lemma createCacheKey_inj (a b c d : TaskId) :
  has_pipe a = false → has_pipe b = false →
  has_pipe c = false → has_pipe d = false →
  createCacheKey (Id a) (Id b) = createCacheKey (Id c) (Id d) →
  (a = c ∧ b = d) ∨ (a = d ∧ b = c).
Proof.
  intros Ha Hb Hc Hd. unfold createCacheKey. simpl.
  destruct (String.ltb a b), (String.ltb c d); intros H;
    apply pipe_split in H as [-> ->]; auto.
Qed.

(** For identifiers that do not contain [|], the key identifies the
    unordered pair: two pairs have the same key exactly when they are the
    same pair, in the same or in the opposite order. *)
Theorem createCacheKey_unordered_pair (a b c d : TaskId) :
  has_pipe a = false → has_pipe b = false →
  has_pipe c = false → has_pipe d = false →
  createCacheKey (Id a) (Id b) = createCacheKey (Id c) (Id d)
  ↔ (a = c ∧ b = d) ∨ (a = d ∧ b = c).
Proof.
  intros Ha Hb Hc Hd. split; [by apply createCacheKey_inj|].
  intros [[-> ->]|[-> ->]]; [done|apply createCacheKey_comm].
Qed.

Lemma createCacheKey_unordered_pair_witness :
  createCacheKey (Id "t2") (Id "t1") = createCacheKey (Id "t1") (Id "t2")
  ∧ createCacheKey (Id "t1") (Id "t2") ≠ createCacheKey (Id "t1") (Id "t3").
Proof.
  split.
  - apply (createCacheKey_unordered_pair "t2" "t1" "t1" "t2");
      [reflexivity..|]. right. split; reflexivity.
  - intros H.
    apply (createCacheKey_unordered_pair "t1" "t2" "t1" "t3") in H;
      [|reflexivity..].
    destruct H as [[_ H]|[H _]]; discriminate H.
Defined.

(** ** Reading after writing *)

Lemma get_set_other (c : Cache.t) (a b x y : TaskId) (r : CompareResult) :
  has_pipe a = false → has_pipe b = false →
  has_pipe x = false → has_pipe y = false →
  ¬ (x = a ∧ y = b) → ¬ (x = b ∧ y = a) →
  Cache.get (Cache.set c (Id a) (Id b) r) (Id x) (Id y)
  = Cache.get c (Id x) (Id y).
Proof.
  intros Ha Hb Hx Hy H1 H2.
  unfold Cache.get, Cache.set. rewrite lookup_insert_ne; [done|].
  intros Hk. apply createCacheKey_inj in Hk; [|done..].
  destruct Hk as [[-> ->]|[-> ->]]; [by apply H1|by apply H2].
Qed.

(** What [get] returns after a [set], for identifiers that do not contain
    [|] and a pair of two different identifiers: the result for the pair
    as written, its inverse for the pair in the opposite order, and what
    the cache held before for every other pair. *)
Theorem get_after_set (c : Cache.t) (a b x y : TaskId) (r : CompareResult) :
  has_pipe a = false → has_pipe b = false →
  has_pipe x = false → has_pipe y = false →
  a ≠ b →
  Cache.get (Cache.set c (Id a) (Id b) r) (Id x) (Id y)
  = if decide (x = a ∧ y = b) then Some r
    else if decide (x = b ∧ y = a) then Some (negate r)
    else Cache.get c (Id x) (Id y).
Proof.
  intros Ha Hb Hx Hy Hne.
  destruct (decide (x = a ∧ y = b)) as [[-> ->]|H1]; [apply get_set_same|].
  destruct (decide (x = b ∧ y = a)) as [[-> ->]|H2].
  - rewrite get_flip by done. by rewrite get_set_same.
  - by apply get_set_other.
Qed.

Lemma get_after_set_witness :
  Cache.get (Cache.set ∅ (Id "t1") (Id "t2") Greater) (Id "t2") (Id "t1")
  = Some Less
  ∧ Cache.get (Cache.set ∅ (Id "t1") (Id "t2") Greater) (Id "t1") (Id "t3")
    = None.
Proof.
  split.
  - exact (get_after_set ∅ "t1" "t2" "t2" "t1" Greater
             eq_refl eq_refl eq_refl eq_refl ltac:(discriminate)).
  - exact (get_after_set ∅ "t1" "t2" "t1" "t3" Greater
             eq_refl eq_refl eq_refl eq_refl ltac:(discriminate)).
Defined.

(** ** Rebuilding and clearing *)

(** A cache built by [createComparisonCache] from the record of another
    cache answers every pair as that cache does (each engine call rebuilds
    the cache this way); built from nothing, or cleared, it answers no
    pair and its record is empty. *)
Theorem createComparisonCache_answers (c : Cache.t) (a b : IdVal) :
  Cache.get (createComparisonCache (Some (Cache.toRecord c))) a b
  = Cache.get c a b
  ∧ Cache.has (createComparisonCache (Some (Cache.toRecord c))) a b
    = Cache.has c a b
  ∧ Cache.get (createComparisonCache None) a b = None
  ∧ Cache.has (Cache.clear c) a b = false
  ∧ Cache.get (Cache.clear c) a b = None
  ∧ Cache.toRecord (Cache.clear c) = ∅.
Proof.
  rewrite createComparisonCache_Some, get_toRecord, has_toRecord.
  repeat split; done.
Qed.

(** ** What the closure pass adds *)

Lemma tc_direct_members cache taskIds i j :
  tc (direct cache taskIds) i j → i ∈ taskIds ∧ j ∈ taskIds.
Proof.
  induction 1 as [x y (Hx & Hy & _)|x y z (Hx & _) _ [_ Hz]]; done.
Qed.

(** [applyTransitiveClosure] invents nothing: an entry of the cache after
    the pass was there before, or it is the entry [i > j] of two different
    identifiers of the list that had no entry and are related by a chain
    of recorded strict results from [i] down to [j].  So when the cache
    records no strict result between two identifiers of the list, the
    pass leaves the cache as it is. *)
Theorem applyTransitiveClosure_sound (cache : Cache.t) (taskIds : list TaskId) :
  (∀ key v,
     applyTransitiveClosure cache taskIds !! key = Some v →
     cache !! key = Some v
     ∨ ∃ i j, i ≠ j ∧ i ∈ taskIds ∧ j ∈ taskIds
         ∧ tc (direct cache taskIds) i j
         ∧ Cache.has cache (Id i) (Id j) = false
         ∧ key = createCacheKey (Id i) (Id j)
         ∧ v = normalizeResult (Id i) (Id j) Greater)
  ∧ ((∀ i j, ¬ direct cache taskIds i j) →
     applyTransitiveClosure cache taskIds = cache).
Proof.
  destruct (closure_final cache taskIds) as [Hinv _].
  fold (applyTransitiveClosure cache taskIds) in Hinv.
  assert (∀ key v,
     applyTransitiveClosure cache taskIds !! key = Some v →
     cache !! key = Some v
     ∨ ∃ i j, i ≠ j ∧ i ∈ taskIds ∧ j ∈ taskIds
         ∧ tc (direct cache taskIds) i j
         ∧ Cache.has cache (Id i) (Id j) = false
         ∧ key = createCacheKey (Id i) (Id j)
         ∧ v = normalizeResult (Id i) (Id j) Greater) as Hsound.
  { intros key v Hv.
    destruct (ci_new _ _ _ Hinv _ _ Hv) as [?|(i & j & ? & Htc & ? & ? & ?)];
      [by left|right].
    destruct (tc_direct_members _ _ _ _ Htc). exists i, j. done. }
  split; [done|]. intros Hnone. apply map_eq. intros key.
  destruct (applyTransitiveClosure cache taskIds !! key) as [v|] eqn:Hv.
  - destruct (Hsound _ _ Hv) as [?|(i & j & _ & _ & _ & Htc & _)]; [done|].
    destruct Htc as [x y Hd|x y z Hd _]; by destruct (Hnone _ _ Hd).
  - destruct (cache !! key) as [w|] eqn:Hw; [|done].
    apply (ci_sub _ _ _ Hinv) in Hw. unfold applyTransitiveClosure in Hv.
    congruence.
Qed.

Lemma applyTransitiveClosure_sound_witness :
  applyTransitiveClosure (Cache.set ∅ (Id "A") (Id "B") Equal) ["A"; "B"; "C"]
  = Cache.set ∅ (Id "A") (Id "B") Equal.
Proof.
  apply (proj2 (applyTransitiveClosure_sound
                  (Cache.set ∅ (Id "A") (Id "B") Equal) ["A"; "B"; "C"])).
  intros i j (Hi & Hj & _ & Hg).
  apply list_elem_of_In in Hi. apply list_elem_of_In in Hj. simpl in Hi, Hj.
  destruct Hi as [<-|[<-|[<-|[]]]], Hj as [<-|[<-|[<-|[]]]];
    vm_compute in Hg; discriminate Hg.
Defined.

(** ** What the closure pass infers *)

Lemma get_empty (a b : IdVal) : Cache.get (∅ : Cache.t) a b = None.
Proof. unfold Cache.get. by rewrite lookup_empty. Qed.

(** Between identifiers without [|], a pair that had no entry and is
    related by a chain from [i] down to [j] reads [greater] after the pass;
    it can read [less] only when a chain leads back from [j] to [i], and a
    pair that has an entry only after the pass is a pair of different
    identifiers that a chain relates one way or the other. *)
Lemma closure_direction (cache : Cache.t) (taskIds : list TaskId) (i j : TaskId) :
  Forall (λ id, has_pipe id = false) taskIds →
  has_pipe i = false → has_pipe j = false →
  Cache.has cache (Id i) (Id j) = false →
  (i ≠ j → tc (direct cache taskIds) i j →
   Cache.get (applyTransitiveClosure cache taskIds) (Id i) (Id j) = Some Greater
   ∨ (tc (direct cache taskIds) j i
      ∧ Cache.get (applyTransitiveClosure cache taskIds) (Id i) (Id j)
        = Some Less))
  ∧ (Cache.has (applyTransitiveClosure cache taskIds) (Id i) (Id j) = true →
     i ≠ j ∧ (tc (direct cache taskIds) i j ∨ tc (direct cache taskIds) j i)).
Proof.
  intros Hplain Hi Hj Hno.
  destruct (closure_final cache taskIds) as [Hinv Hedge].
  unfold applyTransitiveClosure.
  remember (closure_loop taskIds
              (closure_direct cache taskIds (closure_init taskIds), cache))
    as st eqn:Hst.
  clear Hst.
  assert (∀ w, st.2 !! createCacheKey (Id i) (Id j) = Some w →
               i ≠ j
               ∧ ((tc (direct cache taskIds) i j
                   ∧ w = normalizeResult (Id i) (Id j) Greater)
                  ∨ (tc (direct cache taskIds) j i
                     ∧ w = normalizeResult (Id j) (Id i) Greater))) as Hentry.
  { intros w Hw.
    destruct (ci_new _ _ _ Hinv _ _ Hw)
      as [Hold|(i' & j' & Hne' & Hchain & _ & Hkey & ->)].
    - unfold Cache.has in Hno. rewrite bool_decide_eq_false in Hno.
      destruct Hno. rewrite Hold. eauto.
    - destruct (tc_direct_members _ _ _ _ Hchain) as [Hi' Hj'].
      rewrite Forall_forall in Hplain.
      destruct (createCacheKey_inj i j i' j') as [[-> ->]|[-> ->]];
        auto. }
  split.
  - intros Hne Htc.
    pose proof (ci_cached _ _ _ Hinv _ _ (Hedge i j Hne Htc)) as Hhas.
    unfold Cache.has in Hhas. apply bool_decide_eq_true in Hhas as [w Hw].
    unfold Cache.get. rewrite Hw.
    destruct (Hentry w Hw) as [_ [[_ ->]|[Hback ->]]].
    + left. by rewrite normalizeResult_involutive.
    + right. split; [done|].
      rewrite (normalizeResult_flip j i) by done.
      by rewrite normalizeResult_involutive.
  - unfold Cache.has. intros [w Hw]%bool_decide_eq_true.
    destruct (Hentry w Hw) as [Hne [[? _]|[? _]]]; auto.
Qed.

(** The cache that holds exactly [a > b] and [b > c], for identifiers
    without [|]: [a] and [c] have no entry, and the only direct
    comparisons are the two that were set. *)
Lemma two_answers_direct (taskIds : list TaskId) (a b c : TaskId) :
  Forall (λ id, has_pipe id = false) taskIds →
  has_pipe a = false → has_pipe b = false → has_pipe c = false →
  a ≠ b → b ≠ c → a ≠ c →
  Cache.get (Cache.set (Cache.set ∅ (Id a) (Id b) Greater) (Id b) (Id c) Greater)
    (Id a) (Id b) = Some Greater
  ∧ Cache.has (Cache.set (Cache.set ∅ (Id a) (Id b) Greater) (Id b) (Id c) Greater)
      (Id a) (Id c) = false
  ∧ ∀ x y,
      direct (Cache.set (Cache.set ∅ (Id a) (Id b) Greater) (Id b) (Id c) Greater)
        taskIds x y →
      (x = a ∧ y = b) ∨ (x = b ∧ y = c).
Proof.
  intros Hplain Ha Hb Hc Hab Hbc Hac.
  split; [|split].
  - rewrite get_set_other by (try done; intros [? ?]; congruence).
    apply get_set_same.
  - apply has_false_get.
    rewrite !get_set_other by (try done; intros [? ?]; congruence).
    apply get_empty.
  - intros x y (Hx & Hy & Hxy & Hg).
    rewrite Forall_forall in Hplain.
    pose proof (Hplain _ Hx) as Px. pose proof (Hplain _ Hy) as Py.
    destruct (decide (x = b ∧ y = c)) as [?|N1]; [by right|].
    destruct (decide (x = c ∧ y = b)) as [[-> ->]|N2].
    { rewrite (get_flip _ b c), get_set_same in Hg by done. done. }
    rewrite get_set_other in Hg by done.
    destruct (decide (x = a ∧ y = b)) as [?|N3]; [by left|].
    destruct (decide (x = b ∧ y = a)) as [[-> ->]|N4].
    { rewrite (get_flip _ a b), get_set_same in Hg by done. done. }
    rewrite get_set_other, get_empty in Hg by done. done.
Qed.

(** The pass reads the cache through [get] only for the pairs of the
    list, so the scenario holds over any list that has [a], [b] and [c]
    in it, in any order. *)
Lemma closure_infers (taskIds : list TaskId) (a b c : TaskId) :
  Forall (λ id, has_pipe id = false) taskIds →
  a ∈ taskIds → b ∈ taskIds → c ∈ taskIds →
  a ≠ b → b ≠ c → a ≠ c →
  Cache.get
    (applyTransitiveClosure
       (Cache.set (Cache.set ∅ (Id a) (Id b) Greater) (Id b) (Id c) Greater)
       taskIds) (Id a) (Id c) = Some Greater.
Proof.
  intros Hplain Ha Hb Hc Hab Hbc Hac.
  pose proof Hplain as Hp. rewrite Forall_forall in Hp.
  destruct (two_answers_direct taskIds a b c) as (Gab & Nac & Hdirect); auto.
  assert (∀ x y,
    tc (direct (Cache.set (Cache.set ∅ (Id a) (Id b) Greater)
                  (Id b) (Id c) Greater) taskIds) x y →
    (x = a ∧ y = b) ∨ (x = b ∧ y = c) ∨ (x = a ∧ y = c)) as Htc.
  { intros x y Hxy. induction Hxy as [x y Hd|x y z Hd _ IH].
    - destruct (Hdirect _ _ Hd) as [?|?]; auto.
    - destruct (Hdirect _ _ Hd) as [[-> ->]|[-> ->]];
        destruct IH as [[? ?]|[[? ?]|[? ?]]]; subst; auto; done. }
  destruct (closure_direction
              (Cache.set (Cache.set ∅ (Id a) (Id b) Greater)
                 (Id b) (Id c) Greater) taskIds a c) as [Hdir _]; auto.
  destruct Hdir as [?|[Hback _]]; [done| |done|].
  - apply (tc_l _ a b c); [|apply tc_once].
    + by repeat split.
    + repeat split; try done. apply get_set_same.
  - destruct (Htc _ _ Hback) as [[? ?]|[[? ?]|[? ?]]]; congruence.
Qed.

(** C8.  [applyTransitiveClosure] changes no entry that the cache already
    has, so every pair answered before is answered the same afterwards,
    and every two different identifiers of the list related by a chain of
    recorded strict greater-than results have an entry afterwards, which
    is [greater] or [less] when they had none before.  For identifiers
    without [|] the inferred entry is pinned: a pair [i], [j] that had no
    entry and is related by a chain from [i] down to [j] reads [greater],
    and can read [less] only when a chain also leads from [j] back to
    [i]; and only pairs of different identifiers that a chain relates one
    way or the other gain an entry.  With exactly [a > b] and [b > c] cached, for three
    different identifiers without [|], the pass over any list that
    contains them makes [get(a,c)] return [greater], although [a] and [c]
    had no entry. *)
Theorem applyTransitiveClosure_spec (taskIds : list TaskId) :
  (∀ cache : Cache.t,
     (∀ key v,
        cache !! key = Some v →
        applyTransitiveClosure cache taskIds !! key = Some v)
     ∧ (∀ a b : IdVal,
          Cache.has cache a b = true →
          Cache.get (applyTransitiveClosure cache taskIds) a b
          = Cache.get cache a b)
     ∧ (∀ i j,
          i ≠ j → tc (direct cache taskIds) i j →
          Cache.has (applyTransitiveClosure cache taskIds) (Id i) (Id j) = true
          ∧ (Cache.has cache (Id i) (Id j) = false →
             Cache.get (applyTransitiveClosure cache taskIds) (Id i) (Id j)
               = Some Greater
             ∨ Cache.get (applyTransitiveClosure cache taskIds) (Id i) (Id j)
               = Some Less))
     ∧ (Forall (λ id, has_pipe id = false) taskIds →
        ∀ i j,
          has_pipe i = false → has_pipe j = false →
          Cache.has cache (Id i) (Id j) = false →
          (i ≠ j → tc (direct cache taskIds) i j →
           Cache.get (applyTransitiveClosure cache taskIds) (Id i) (Id j)
             = Some Greater
           ∨ (tc (direct cache taskIds) j i
              ∧ Cache.get (applyTransitiveClosure cache taskIds) (Id i) (Id j)
                = Some Less))
          ∧ (Cache.has (applyTransitiveClosure cache taskIds) (Id i) (Id j)
             = true →
             i ≠ j
             ∧ (tc (direct cache taskIds) i j
                ∨ tc (direct cache taskIds) j i))))
  ∧ (Forall (λ id, has_pipe id = false) taskIds →
     ∀ a b c : TaskId,
       a ∈ taskIds → b ∈ taskIds → c ∈ taskIds →
       a ≠ b → b ≠ c → a ≠ c →
       Cache.has
         (Cache.set (Cache.set ∅ (Id a) (Id b) Greater) (Id b) (Id c) Greater)
         (Id a) (Id c) = false
       ∧ Cache.get
           (applyTransitiveClosure
              (Cache.set (Cache.set ∅ (Id a) (Id b) Greater)
                 (Id b) (Id c) Greater)
              taskIds) (Id a) (Id c) = Some Greater).
Proof.
  split.
  - intros cache.
    assert (∀ key v, cache !! key = Some v →
              applyTransitiveClosure cache taskIds !! key = Some v) as Hkeep.
    { intros key v Hv.
      destruct (closure_final cache taskIds) as [Hinv _].
      by apply (ci_sub _ _ _ Hinv). }
    split; [done|]. split; [|split].
    + intros a b [v Hv]%has_get. unfold Cache.get in *.
      destruct (cache !! createCacheKey a b) as [w|] eqn:Hw; [|done].
      by rewrite (Hkeep _ _ Hw).
    + intros i j Hne Htc.
      destruct (closure_final cache taskIds) as [Hinv Hedge].
      pose proof (ci_cached _ _ _ Hinv _ _ (Hedge i j Hne Htc)) as Hhas.
      split; [done|]. intros Hno.
      apply has_get in Hhas as [v Hv].
      fold (applyTransitiveClosure cache taskIds) in Hv, Hinv.
      rewrite Hv. unfold Cache.get in Hv.
      destruct (applyTransitiveClosure cache taskIds
                  !! createCacheKey (Id i) (Id j)) as [w|] eqn:Hw; [|done].
      injection Hv as <-.
      assert (w ≠ Equal) as Hstrict.
      { destruct (ci_new _ _ _ Hinv _ _ Hw)
          as [Hold|(i' & j' & _ & _ & _ & _ & ->)].
        - unfold Cache.has in Hno. rewrite Hold in Hno.
          rewrite bool_decide_eq_false in Hno. destruct Hno. eauto.
        - by apply normalizeResult_strict. }
      apply (normalizeResult_strict (Id i) (Id j)) in Hstrict.
      destruct (normalizeResult (Id i) (Id j) w); auto. done.
    + intros Hplain i j Hi Hj Hno.
      by apply closure_direction.
  - intros Hplain a b c Ha Hb Hc Hab Hbc Hac.
    pose proof Hplain as Hp. rewrite Forall_forall in Hp.
    split; [|by apply closure_infers].
    destruct (two_answers_direct taskIds a b c) as (_ & Nac & _); auto.
Qed.

(** The scenario of the specification over the list in another order,
    and a chain of four taken from the list in reverse: [A > B], [B > C]
    and [C > D] are cached, and [get(A,C)] reads [greater] after the pass
    over [D], [C], [B], [A]. *)
Lemma applyTransitiveClosure_spec_witness :
  (Cache.has (Cache.set (Cache.set ∅ (Id "A") (Id "B") Greater)
                (Id "B") (Id "C") Greater) (Id "A") (Id "C") = false
   ∧ Cache.get
       (applyTransitiveClosure
          (Cache.set (Cache.set ∅ (Id "A") (Id "B") Greater)
             (Id "B") (Id "C") Greater)
          ["C"; "A"; "B"]) (Id "A") (Id "C") = Some Greater)
  ∧ Cache.get
      (applyTransitiveClosure
         (Cache.set (Cache.set (Cache.set ∅ (Id "A") (Id "B") Greater)
                       (Id "B") (Id "C") Greater) (Id "C") (Id "D") Greater)
         ["D"; "C"; "B"; "A"]) (Id "A") (Id "C") = Some Greater.
Proof.
  split.
  - apply (proj2 (applyTransitiveClosure_spec ["C"; "A"; "B"]));
      try discriminate.
    + by repeat constructor.
    + by right; left.
    + by right; right; left.
    + by left.
  - destruct (proj2 (proj2 (proj2 (proj1
        (applyTransitiveClosure_spec ["D"; "C"; "B"; "A"])
        (Cache.set (Cache.set (Cache.set ∅ (Id "A") (Id "B") Greater)
                      (Id "B") (Id "C") Greater) (Id "C") (Id "D") Greater))))
      ltac:(by repeat constructor) "A" "C" eq_refl eq_refl eq_refl)
      as [Hdir _].
    destruct Hdir as [H|[_ H]]; [discriminate| | |].
    + apply (tc_l _ "A" "B" "C"); [|apply tc_once].
      * repeat split; try discriminate; try reflexivity; repeat constructor.
      * repeat split; try discriminate; try reflexivity; repeat constructor.
    + exact H.
    + vm_compute in H. discriminate H.
Defined.

(** With [|] inside identifiers the scenario can fail: the pairs
    [(a|z, a|z|a)] and [(z|a, a|z|a)] share the key [a|z|a|z|a], so the
    answer recorded for [B] and [C] is read for [A] and [C], and the pass,
    which overwrites nothing, leaves [get(A,C)] at [less]. *)
Lemma closure_misled_by_pipe :
  "a|z" ≠ "z|a" ∧ "z|a" ≠ "a|z|a" ∧ "a|z" ≠ "a|z|a"
  ∧ Cache.get (Cache.set (Cache.set ∅ (Id "a|z") (Id "z|a") Greater)
                 (Id "z|a") (Id "a|z|a") Greater) (Id "a|z") (Id "z|a")
    = Some Greater
  ∧ Cache.get (Cache.set (Cache.set ∅ (Id "a|z") (Id "z|a") Greater)
                 (Id "z|a") (Id "a|z|a") Greater) (Id "z|a") (Id "a|z|a")
    = Some Greater
  ∧ Cache.get
      (applyTransitiveClosure
         (Cache.set (Cache.set ∅ (Id "a|z") (Id "z|a") Greater)
            (Id "z|a") (Id "a|z|a") Greater)
         ["a|z"; "z|a"; "a|z|a"]) (Id "a|z") (Id "a|z|a") = Some Less.
Proof. do 3 (split; [discriminate|]). repeat split; by vm_compute. Qed.

(** * Sessions that keep to the protocol *)

(** ** The steps of a session *)

(** The three ways in which [requestNextPair] goes on: it closes an
    exhausted frame, consumes a cached answer, or opens a frame. *)
Lemma request_step_inr state state' :
  request_step state = inr state' →
  ∃ int, internal state = Some int
    ∧ ((∃ rest frame,
          stack int = rest ++ [frame] ∧ exhausted frame
          ∧ state' = with_internal state
                       {| runs := runs int ++ [frame_ids frame];
                          stack := rest; result := result int |})
       ∨ (∃ rest frame res,
            stack int = rest ++ [frame]
            ∧ Frame.leftIdx frame < length (Frame.left frame)
            ∧ Frame.rightIdx frame < length (Frame.right frame)
            ∧ Cache.get (cache state) (pair_a (frame_pair frame))
                (pair_b (frame_pair frame)) = Some res
            ∧ state' = with_internal state
                         {| runs := runs int;
                            stack := rest ++ [advanceFrame frame res];
                            result := result int |})
       ∨ (∃ left_run right_run others,
            stack int = [] ∧ runs int = left_run :: right_run :: others
            ∧ state' = with_internal state
                         {| runs := others;
                            stack := [Frame.mk left_run right_run 0 0 []];
                            result := result int |})).
Proof.
  unfold request_step. rewrite createComparisonCache_Some.
  destruct (internal state) as [int|]; [|done]. intros H. exists int.
  split; [done|].
  destruct (array_pop (stack int)) as [[rest frame]|] eqn:Hpop.
  - apply array_pop_Some in Hpop.
    destruct (bool_decide _ || bool_decide _) eqn:Hdone.
    + left. exists rest, frame. injection H as <-. split; [done|].
      split; [|done]. apply orb_true_iff in Hdone.
      rewrite !bool_decide_eq_true in Hdone. done.
    + right. left. apply orb_false_iff in Hdone as [H1 H2].
      apply bool_decide_eq_false in H1, H2.
      destruct (Cache.has _ _ _) eqn:Hhas; [|done].
      apply has_get in Hhas as [res Hres]. rewrite Hres in H. simpl in H.
      injection H as <-. exists rest, frame, res.
      repeat split; try done; lia.
  - apply array_pop_None in Hpop. right. right.
    destruct (runs int) as [|l [|r others]] eqn:Hruns; [done|done|].
    injection H as <-. exists l, r, others. by rewrite Hpop.
Qed.

(** A commit on a state with a pending pair advances the top frame. *)
Lemma commit_pending state p res state' :
  request_step state = inl (Some p, state) →
  commitComparison state (pair_a p) (pair_b p) res = Some state' →
  ∃ int rest frame,
    internal state = Some int
    ∧ stack int = rest ++ [frame]
    ∧ Frame.leftIdx frame < length (Frame.left frame)
    ∧ Frame.rightIdx frame < length (Frame.right frame)
    ∧ p = frame_pair frame
    ∧ Cache.has (cache state) (pair_a p) (pair_b p) = false
    ∧ state' = {| algo := algo state;
                  comparisonsAsked := comparisonsAsked state + 1;
                  comparisonsTotal := comparisonsTotal state;
                  cache := Cache.toRecord
                             (Cache.set (cache state) (pair_a p) (pair_b p) res);
                  internal := Some
                    {| runs := runs int;
                       stack := rest ++ [advanceFrame frame res];
                       result := result int |} |}.
Proof.
  intros (_ & int & rest & frame & Hint & Hstack & Hl & Hr & Hp & Hno)%request_step_pair.
  rewrite (commitComparison_Some _ _ _ _ _ Hint).
  rewrite (proj2 (array_pop_Some _ _ _) Hstack). intros [= <-].
  exists int, rest, frame. done.
Qed.

Lemma session_protocol answer start state :
  session answer start state → protocol start state.
Proof.
  induction 1 as [|st _ IH|st p st' _ IH Hp Hc].
  - constructor.
  - by constructor.
  - by eapply (protocol_commit _ st p).
Qed.

Lemma session_invariant (I : SortingState → Prop) answer start :
  I start →
  (∀ st st', I st → request_step st = inr st' → I st') →
  (∀ st st', I st → request_step st = inl (None, st') → I st') →
  (∀ st p st',
     I st → request_step st = inl (Some p, st) →
     commitComparison st (pair_a p) (pair_b p) (answer (pair_a p) (pair_b p))
       = Some st' → I st') →
  ∀ state, session answer start state → I state.
Proof.
  intros Hstart Hrec Hdone Hcommit state Hp.
  induction Hp as [|st Hp IH|st p st' Hp IH Hreq Hc].
  - done.
  - by apply requestNextPair_invariant.
  - apply (Hcommit (requestNextPair st).2 p);
      [|by apply requestNextPair_pending|done].
    by apply requestNextPair_invariant.
Qed.

(** ** The identifiers are conserved *)

Lemma drop_at (l : list IdVal) i :
  i < length l → drop i l = array_get l i :: drop (S i) l.
Proof.
  intros Hi. unfold array_get.
  destruct (lookup_lt_is_Some_2 _ _ Hi) as [x Hx]. rewrite Hx. simpl.
  by apply drop_S.
Qed.

Lemma frame_ids_advance frame res :
  Frame.leftIdx frame < length (Frame.left frame) →
  Frame.rightIdx frame < length (Frame.right frame) →
  frame_ids (advanceFrame frame res) ≡ₚ frame_ids frame.
Proof.
  intros Hl Hr. unfold frame_ids.
  destruct res; simpl.
  - rewrite (drop_at (Frame.right frame) _ Hr). rewrite <- !app_assoc. simpl.
    apply Permutation_app_head. by rewrite Permutation_middle.
  - rewrite (drop_at (Frame.left frame) _ Hl). by rewrite <- !app_assoc.
  - rewrite (drop_at (Frame.left frame) _ Hl). by rewrite <- !app_assoc.
Qed.

Lemma concat_singletons (taskIds : list TaskId) :
  concat ((λ id, [Id id]) <$> taskIds) = Id <$> taskIds.
Proof.
  induction taskIds as [|id l IH]; [done|].
  rewrite !fmap_cons. simpl. by rewrite IH.
Qed.

Lemma stack_single (rest : list MergeFrame) frame :
  length (rest ++ [frame]) ≤ 1 → rest = [].
Proof. rewrite length_app. simpl. destruct rest; simpl; [done|lia]. Qed.

Lemma well_shaped_start taskIds existingCache :
  well_shaped taskIds (createSession taskIds existingCache).
Proof.
  eexists. split; [done|]. simpl. split; [lia|]. split; [|by left].
  unfold held_ids. simpl. by rewrite app_nil_r, concat_singletons.
Qed.

Lemma well_shaped_request_step taskIds st st' :
  well_shaped taskIds st → request_step st = inr st' →
  well_shaped taskIds st'.
Proof.
  intros (int & Hint & Hlen & Hheld & Hres) Hstep.
  destruct (request_step_inr _ _ Hstep) as (int' & Hint' & Hcases).
  assert (int' = int) as -> by congruence.
  destruct Hcases as [(rest & f & Hs & _ & ->)
    |[(rest & f & res & Hs & Hl & Hr & _ & ->)|(l & r & others & Hs & Hr & ->)]].
  - rewrite Hs in Hlen. pose proof (stack_single _ _ Hlen) as ->.
    eexists. split; [done|]. simpl. split; [lia|]. split.
    + rewrite <- Hheld. unfold held_ids. rewrite Hs. simpl.
      rewrite concat_app. simpl. by rewrite !app_nil_r.
    + left. destruct Hres as [?|[Hs' _]]; [done|].
      by rewrite Hs in Hs'.
  - rewrite Hs in Hlen. pose proof (stack_single _ _ Hlen) as ->.
    eexists. split; [done|]. simpl. split; [lia|]. split.
    + rewrite <- Hheld. unfold held_ids. rewrite Hs. simpl.
      rewrite !app_nil_r. by rewrite frame_ids_advance.
    + left. destruct Hres as [?|[Hs' _]]; [done|]. by rewrite Hs in Hs'.
  - eexists. split; [done|]. simpl. split; [lia|]. split.
    + rewrite <- Hheld. unfold held_ids, frame_ids. rewrite Hs, Hr. simpl.
      rewrite !app_nil_r. rewrite (app_assoc l r).
      apply Permutation_app_comm.
    + left. destruct Hres as [?|[_ Hr']]; [done|]. by rewrite Hr in Hr'.
Qed.

Lemma well_shaped_done taskIds st st' :
  well_shaped taskIds st → request_step st = inl (None, st') →
  well_shaped taskIds st'.
Proof.
  intros (int & Hint & Hlen & Hheld & Hres) Hstep.
  destruct (request_step_done _ _ Hstep)
    as [[_ ->]|(int' & Hint' & Hs & [[_ ->]|(run & Hr & ->)])];
    [by exists int..|].
  assert (int' = int) as -> by congruence.
  eexists. split; [done|]. simpl. split; [lia|]. split; [|by right].
  rewrite <- Hheld. unfold held_ids. by rewrite Hs, Hr.
Qed.

Lemma well_shaped_commit taskIds st p res st' :
  well_shaped taskIds st → request_step st = inl (Some p, st) →
  commitComparison st (pair_a p) (pair_b p) res = Some st' →
  well_shaped taskIds st'.
Proof.
  intros (int & Hint & Hlen & Hheld & Hres) Hstep Hc.
  destruct (commit_pending _ _ _ _ Hstep Hc)
    as (int' & rest & f & Hint' & Hs & Hl & Hr & _ & _ & ->).
  assert (int' = int) as -> by congruence.
  rewrite Hs in Hlen. pose proof (stack_single _ _ Hlen) as ->.
  eexists. split; [done|]. simpl. split; [lia|]. split.
  - rewrite <- Hheld. unfold held_ids. rewrite Hs. simpl.
    rewrite !app_nil_r. by rewrite frame_ids_advance.
  - left. destruct Hres as [?|[Hs' _]]; [done|]. by rewrite Hs in Hs'.
Qed.

Lemma protocol_well_shaped taskIds existingCache state :
  protocol (createSession taskIds existingCache) state →
  well_shaped taskIds state.
Proof.
  apply protocol_invariant.
  - apply well_shaped_start.
  - apply well_shaped_request_step.
  - apply well_shaped_done.
  - intros st p res st'. apply well_shaped_commit.
Qed.

(** In a session that keeps to the protocol no identifier is lost,
    duplicated or made up: the run queue and the active frame (its output
    and what is left of its two runs) always hold the identifiers of the
    list, each as often as the list does; and once [isComplete] holds,
    [finalize] returns a permutation of the list. *)
Theorem session_conserves_ids taskIds existingCache state :
  protocol (createSession taskIds existingCache) state →
  ∃ int,
    internal state = Some int
    ∧ held_ids int ≡ₚ Id <$> taskIds
    ∧ (isComplete state = true → finalize state ≡ₚ Id <$> taskIds).
Proof.
  intros (int & Hint & Hlen & Hheld & Hres)%protocol_well_shaped.
  exists int. split; [done|]. split; [done|].
  unfold isComplete, finalize. rewrite Hint.
  intros [Hr Hs]%andb_true_iff.
  apply bool_decide_eq_true in Hr, Hs.
  destruct (runs int) as [|run [|? ?]] eqn:Hruns; try done.
  destruct (stack int) eqn:Hstack; [|done].
  rewrite <- Hheld. unfold held_ids. rewrite Hruns, Hstack. simpl.
  by rewrite !app_nil_r.
Qed.

Lemma session_conserves_ids_witness :
  protocol (createSession ["A"; "B"] None)
    (requestNextPair (createSession ["A"; "B"] None)).2
  ∧ ∃ int,
      internal (requestNextPair (createSession ["A"; "B"] None)).2 = Some int
      ∧ held_ids int ≡ₚ [Id "A"; Id "B"].
Proof.
  assert (protocol (createSession ["A"; "B"] None)
            (requestNextPair (createSession ["A"; "B"] None)).2) as H
    by (apply protocol_request, protocol_start).
  split; [exact H|].
  destruct (session_conserves_ids ["A"; "B"] None _ H) as (int & H1 & H2 & _).
  exists int. split; [exact H1|exact H2].
Defined.

(** In a session that keeps to the protocol at most one merge frame is
    active at a time, and the stored result stays empty until the sort is
    done, when it is the one run left in the queue. *)
Theorem session_one_frame taskIds existingCache state :
  protocol (createSession taskIds existingCache) state →
  ∃ int,
    internal state = Some int
    ∧ length (stack int) ≤ 1
    ∧ (result int = [] ∨ (stack int = [] ∧ runs int = [result int])).
Proof.
  intros (int & Hint & Hlen & Hheld & Hres)%protocol_well_shaped.
  by exists int.
Qed.

Lemma session_one_frame_witness :
  protocol (createSession ["A"; "B"; "C"] None)
    (requestNextPair (createSession ["A"; "B"; "C"] None)).2
  ∧ ∃ int,
      internal (requestNextPair (createSession ["A"; "B"; "C"] None)).2
      = Some int
      ∧ stack int = [Frame.mk [Id "A"] [Id "B"] 0 0 []]
      ∧ length (stack int) ≤ 1
      ∧ (result int = [] ∨ (stack int = [] ∧ runs int = [result int])).
Proof.
  assert (protocol (createSession ["A"; "B"; "C"] None)
            (requestNextPair (createSession ["A"; "B"; "C"] None)).2) as H
    by (apply protocol_request, protocol_start).
  split; [exact H|].
  destruct (session_one_frame ["A"; "B"; "C"] None _ H) as (int & H1 & H2 & H3).
  exists int. split; [exact H1|]. split; [|split; [exact H2|exact H3]].
  vm_compute in H1. injection H1 as <-. reflexivity.
Defined.

(** ** The comparisons still to come *)

Lemma queue_cost_cons2 a b rest :
  queue_cost (a :: b :: rest) = (a + b - 1) + queue_cost (rest ++ [a + b]).
Proof.
  unfold queue_cost. rewrite length_app. simpl.
  by replace (length rest + 1) with (S (length rest)) by lia.
Qed.

Lemma frame_ids_length frame : length (frame_ids frame) = frame_size frame.
Proof. unfold frame_ids, frame_size, frame_rest. rewrite !length_app. lia. Qed.

Lemma frame_cost_exhausted frame : exhausted frame → frame_cost frame = 0.
Proof.
  unfold exhausted, frame_cost. intros H. case_decide; [lia|done].
Qed.

Lemma frame_cost_advance frame res :
  Frame.leftIdx frame < length (Frame.left frame) →
  Frame.rightIdx frame < length (Frame.right frame) →
  frame_cost (advanceFrame frame res) + 1 ≤ frame_cost frame.
Proof.
  intros Hl Hr.
  destruct (frame_rest_advance frame res Hl Hr) as [Hrest _].
  assert (2 ≤ frame_rest frame) as Hge.
  { unfold frame_rest. rewrite !length_drop. lia. }
  unfold frame_cost at 2. rewrite decide_True by done.
  unfold frame_cost. case_decide; lia.
Qed.

Lemma potential_request_step taskIds st st' int int' :
  well_shaped taskIds st → request_step st = inr st' →
  internal st = Some int → internal st' = Some int' →
  potential int' ≤ potential int.
Proof.
  intros (int0 & Hint0 & Hlen & _) Hstep Hint Hint'.
  assert (int0 = int) as -> by congruence.
  destruct (request_step_inr _ _ Hstep) as (int1 & Hint1 & Hcases).
  assert (int1 = int) as -> by congruence.
  destruct Hcases as [(rest & f & Hs & Hex & ->)
    |[(rest & f & res & Hs & Hl & Hr & _ & ->)|(l & r & others & Hs & Hr & ->)]];
    simpl in Hint'; injection Hint' as <-.
  - rewrite Hs in Hlen. pose proof (stack_single _ _ Hlen) as ->.
    unfold potential. rewrite Hs. simpl.
    rewrite fmap_app. simpl. rewrite frame_ids_length.
    rewrite (frame_cost_exhausted _ Hex). lia.
  - rewrite Hs in Hlen. pose proof (stack_single _ _ Hlen) as ->.
    unfold potential. rewrite Hs. simpl.
    destruct (frame_rest_advance f res Hl Hr) as [_ ->].
    pose proof (frame_cost_advance f res Hl Hr). lia.
  - unfold potential. rewrite Hs, Hr. cbn [stack runs].
    rewrite !fmap_cons, queue_cost_cons2.
    unfold frame_size, frame_cost, frame_rest. simpl. rewrite !drop_0.
    case_decide; lia.
Qed.

Lemma potential_done st st' int int' :
  request_step st = inl (None, st') →
  internal st = Some int → internal st' = Some int' →
  potential int' = potential int.
Proof.
  intros Hstep Hint Hint'.
  destruct (request_step_done _ _ Hstep)
    as [[_ ->]|(int0 & Hint0 & Hs & [[_ ->]|(run & Hr & ->)])];
    [congruence..|].
  assert (int0 = int) as -> by congruence.
  simpl in Hint'. injection Hint' as <-.
  unfold potential. by rewrite Hs, Hr.
Qed.

Lemma potential_commit taskIds st p res st' int int' :
  well_shaped taskIds st → request_step st = inl (Some p, st) →
  commitComparison st (pair_a p) (pair_b p) res = Some st' →
  internal st = Some int → internal st' = Some int' →
  potential int' + 1 ≤ potential int.
Proof.
  intros (int0 & Hint0 & Hlen & _) Hstep Hc Hint Hint'.
  assert (int0 = int) as -> by congruence.
  destruct (commit_pending _ _ _ _ Hstep Hc)
    as (int1 & rest & f & Hint1 & Hs & Hl & Hr & _ & _ & ->).
  assert (int1 = int) as -> by congruence.
  simpl in Hint'. injection Hint' as <-.
  rewrite Hs in Hlen. pose proof (stack_single _ _ Hlen) as ->.
  unfold potential. rewrite Hs. simpl.
  destruct (frame_rest_advance f res Hl Hr) as [_ ->].
  pose proof (frame_cost_advance f res Hl Hr). lia.
Qed.

(** A call of [requestNextPair] does not raise what is still to come. *)
Lemma potential_request taskIds st int :
  well_shaped taskIds st → internal st = Some int →
  well_shaped taskIds (requestNextPair st).2
  ∧ ∃ int', internal (requestNextPair st).2 = Some int'
      ∧ potential int' ≤ potential int.
Proof.
  intros Hw Hint.
  pose proof (requestNextPair_invariant
    (λ s, well_shaped taskIds s
          ∧ ∃ int', internal s = Some int' ∧ potential int' ≤ potential int))
    as H.
  apply H; clear H.
  - intros s s' [Hws (i & Hi & Hle)] Hstep.
    pose proof (well_shaped_request_step _ _ _ Hws Hstep) as Hws'.
    split; [done|]. destruct Hws' as (i' & Hi' & _). exists i'.
    split; [done|].
    pose proof (potential_request_step _ _ _ _ _ Hws Hstep Hi Hi'). lia.
  - intros s s' [Hws (i & Hi & Hle)] Hstep.
    pose proof (well_shaped_done _ _ _ Hws Hstep) as Hws'.
    split; [done|]. destruct Hws' as (i' & Hi' & _). exists i'.
    split; [done|].
    pose proof (potential_done _ _ _ _ Hstep Hi Hi'). lia.
  - split; [done|]. exists int. split; [done|lia].
Qed.

(** ** Sessions end *)

Lemma session_trans answer a b c :
  session answer a b → session answer b c → session answer a c.
Proof.
  intros Hab Hbc. induction Hbc as [|st _ IH|st p st' _ IH Hp Hc].
  - done.
  - by constructor.
  - by eapply (session_commit _ _ st p).
Qed.

Lemma run_session_unfold fuel answer state :
  run_session (S fuel) answer state
  = match requestNextPair state with
    | (None, state) => Finished [] state
    | (Some p, state) =>
      match commitComparison state (pair_a p) (pair_b p)
              (answer (pair_a p) (pair_b p)) with
      | None => Threw [p]
      | Some state =>
        match run_session fuel answer state with
        | OutOfFuel => OutOfFuel
        | Threw asked => Threw (p :: asked)
        | Finished asked final => Finished (p :: asked) final
        end
      end
    end.
Proof. reflexivity. Qed.

Lemma run_session_mono answer fuel fuel' state asked final :
  run_session fuel answer state = Finished asked final → fuel ≤ fuel' →
  run_session fuel' answer state = Finished asked final.
Proof.
  revert fuel' state asked final.
  induction fuel as [|fuel IH]; intros fuel' state asked final; [done|].
  destruct fuel' as [|fuel']; [lia|]. rewrite !run_session_unfold.
  destruct (requestNextPair state) as [[p|] st1]; [|done].
  destruct (commitComparison st1 _ _ _) as [st2|]; [|done].
  destruct (run_session fuel answer st2) as [| |asked' final'] eqn:E; try done.
  intros [= <- <-] Hle. by rewrite (IH fuel' st2 asked' final' E) by lia.
Qed.

Lemma run_session_finishes answer taskIds fuel :
  ∀ st int,
    well_shaped taskIds st → internal st = Some int →
    potential int < fuel →
    ∃ asked final int',
      run_session fuel answer st = Finished asked final
      ∧ session answer st final
      ∧ internal final = Some int'
      ∧ comparisonsAsked final = comparisonsAsked st + length asked
      ∧ length asked + potential int' ≤ potential int
      ∧ requestNextPair final = (None, final).
Proof.
  induction fuel as [|fuel IH]; intros st int Hw Hint Hfuel; [lia|].
  rewrite run_session_unfold.
  destruct (potential_request taskIds st int Hw Hint)
    as (Hw1 & int1 & Hint1 & Hpot1).
  destruct (requestNextPair_frame st) as (_ & Hasked1 & _).
  pose proof (requestNextPair_fixed st) as Hagain.
  pose proof (requestNextPair_pending st) as Hpend.
  pose proof (session_request answer st st (session_start _ _)) as Hs1.
  pose proof (λ p, session_commit answer st st p) as Hs2.
  destruct (requestNextPair st) as [[p|] st1] eqn:E; simpl in *.
  - specialize (Hpend p eq_refl).
    rewrite (commitComparison_Some _ _ _ _ _ Hint1).
    match goal with
    | |- context [run_session fuel answer ?s] => set (st2 := s)
    end.
    assert (commitComparison st1 (pair_a p) (pair_b p)
              (answer (pair_a p) (pair_b p)) = Some st2) as Hc
      by apply (commitComparison_Some _ _ _ _ _ Hint1).
    pose proof (well_shaped_commit _ _ _ _ _ Hw1 Hpend Hc) as Hw2.
    destruct Hw2 as (int2 & Hint2 & Hrest2).
    pose proof (potential_commit _ _ _ _ _ _ _ Hw1 Hpend Hc Hint1 Hint2) as Hpot2.
    destruct (IH st2 int2) as (asked & final & int' & Hrun & Hsess & Hint' & Hcount & Hpot & Hdone);
      [by exists int2|done|lia|].
    rewrite Hrun. exists (p :: asked), final, int'.
    split; [done|]. split.
    { apply (session_trans _ _ st2); [|done].
      apply (Hs2 p st2 (session_start _ _) eq_refl Hc). }
    split; [done|]. split.
    { rewrite Hcount. subst st2. simpl. lia. }
    split; [simpl; lia|done].
  - exists [], st1, int1. simpl. repeat split; try done; lia.
Qed.

Lemma singleton_sizes (taskIds : list TaskId) :
  length <$> ((λ id, [Id id]) <$> taskIds) = repeat 1 (length taskIds).
Proof.
  induction taskIds as [|id l IH]; [done|].
  rewrite !fmap_cons. simpl. by rewrite IH.
Qed.

Lemma session_finishes_with answer taskIds existingCache :
  ∃ asked final,
    run_session (S (queue_cost (repeat 1 (length taskIds)))) answer
      (createSession taskIds existingCache) = Finished asked final
    ∧ length asked ≤ queue_cost (repeat 1 (length taskIds))
    ∧ comparisonsAsked final = length asked
    ∧ requestNextPair final = (None, final)
    ∧ session answer (createSession taskIds existingCache) final.
Proof.
  destruct (run_session_finishes answer taskIds
              (S (queue_cost (repeat 1 (length taskIds))))
              (createSession taskIds existingCache)
              {| runs := (λ id, [Id id]) <$> taskIds; stack := []; result := [] |})
    as (asked & final & int' & Hrun & Hsess & Hint' & Hcount & Hpot & Hdone).
  - apply well_shaped_start.
  - done.
  - unfold potential. simpl. rewrite singleton_sizes. lia.
  - exists asked, final. split; [done|].
    unfold potential in Hpot at 2. simpl in Hpot.
    rewrite singleton_sizes in Hpot. simpl in Hcount.
    repeat split; try done; lia.
Qed.

(** The caller's loop ends for every list, every prior cache and every
    way of answering, consistent or not: it neither runs on nor fails,
    [requestNextPair] signals "done" on the state it ends in, and the
    number of pairs shown, which is the final [comparisonsAsked], is at
    most what merging the queue of singletons pairwise can take. *)
Theorem session_finishes answer taskIds existingCache :
  ∃ asked final,
    run_session (S (queue_cost (repeat 1 (length taskIds)))) answer
      (createSession taskIds existingCache) = Finished asked final
    ∧ length asked ≤ queue_cost (repeat 1 (length taskIds))
    ∧ comparisonsAsked final = length asked
    ∧ requestNextPair final = (None, final)
    ∧ protocol (createSession taskIds existingCache) final.
Proof.
  destruct (session_finishes_with answer taskIds existingCache)
    as (asked & final & H1 & H2 & H3 & H4 & H5).
  exists asked, final. repeat split; try done.
  by apply (session_protocol answer).
Qed.

(** ** How many pairs are shown *)

Lemma queue_cost_table (n : nat) :
  n ≤ 100 →
  (Z.of_nat (queue_cost (repeat 1%nat n))
   = Z.of_nat n * Z.log2_up (Z.of_nat n) - 2 ^ Z.log2_up (Z.of_nat n) + 1)%Z
  ∧ (2 ^ Z.of_nat (queue_cost (repeat 1%nat n)) ≤ Z.of_nat n ^ Z.of_nat n)%Z.
Proof.
  intros Hn.
  assert (forallb (λ n,
            (Z.of_nat (queue_cost (repeat 1%nat n))
             =? Z.of_nat n * Z.log2_up (Z.of_nat n)
                - 2 ^ Z.log2_up (Z.of_nat n) + 1)%Z
            && (2 ^ Z.of_nat (queue_cost (repeat 1%nat n))
                <=? Z.of_nat n ^ Z.of_nat n)%Z)
            (seq 0 101) = true) as Htable by (vm_compute; reflexivity).
  rewrite forallb_forall in Htable.
  specialize (Htable n). rewrite in_seq in Htable.
  destruct (andb_prop _ _ (Htable ltac:(lia))) as [H1 H2].
  split; [by apply Z.eqb_eq|by apply Z.leb_le].
Qed.

Lemma run_session_agree answer state fuel fuel' asked asked' final final' :
  run_session fuel answer state = Finished asked final →
  run_session fuel' answer state = Finished asked' final' →
  asked = asked' ∧ final = final'.
Proof.
  intros H H'.
  apply (run_session_mono _ _ (fuel `max` fuel')) in H; [|lia].
  apply (run_session_mono _ _ (fuel `max` fuel')) in H'; [|lia].
  rewrite H in H'. by injection H' as -> ->.
Qed.

(** For a list of [n] identifiers, [n] up to 100, a session that the
    caller's loop finishes has shown at most
    [n * ceil(log2 n) - 2 ^ ceil(log2 n) + 1] pairs, the worst case of a
    merge sort, which is below [n * log2 n] (stated as [2 ^ asked <= n ^ n]);
    whatever the answers and the prior cache were. *)
Theorem session_comparison_bound answer taskIds existingCache fuel asked final :
  length taskIds ≤ 100 →
  run_session fuel answer (createSession taskIds existingCache)
  = Finished asked final →
  (Z.of_nat (length asked)
   ≤ Z.of_nat (length taskIds) * Z.log2_up (Z.of_nat (length taskIds))
     - 2 ^ Z.log2_up (Z.of_nat (length taskIds)) + 1)%Z
  ∧ (2 ^ Z.of_nat (length asked)
     ≤ Z.of_nat (length taskIds) ^ Z.of_nat (length taskIds))%Z.
Proof.
  intros Hn Hrun.
  destruct (session_finishes_with answer taskIds existingCache)
    as (asked' & final' & Hrun' & Hle & _).
  destruct (run_session_agree _ _ _ _ _ _ _ _ Hrun Hrun') as [-> _].
  destruct (queue_cost_table _ Hn) as [Heq Hpow].
  split; [lia|].
  etrans; [|exact Hpow]. apply Z.pow_le_mono_r; lia.
Qed.

Lemma session_comparison_bound_witness :
  run_session 10 (λ _ _, Greater) (createSession ["A"; "B"; "C"] None)
  = Finished [MkPair (Id "A") (Id "B"); MkPair (Id "C") (Id "A")]
      {| algo := merge; comparisonsAsked := 2; comparisonsTotal := 5;
         cache := {[ "A|B" := Greater; "A|C" := Less ]};
         internal := Some {| runs := [[Id "C"; Id "A"; Id "B"]];
                             stack := [];
                             result := [Id "C"; Id "A"; Id "B"] |} |}
  ∧ (2 ^ 2 ≤ 3 ^ 3)%Z.
Proof.
  assert (run_session 10 (λ _ _, Greater) (createSession ["A"; "B"; "C"] None)
          = Finished [MkPair (Id "A") (Id "B"); MkPair (Id "C") (Id "A")]
              {| algo := merge; comparisonsAsked := 2; comparisonsTotal := 5;
                 cache := {[ "A|B" := Greater; "A|C" := Less ]};
                 internal := Some {| runs := [[Id "C"; Id "A"; Id "B"]];
                                     stack := [];
                                     result := [Id "C"; Id "A"; Id "B"] |} |})
    as Hrun by (vm_compute; reflexivity).
  split; [exact Hrun|].
  exact (proj2 (session_comparison_bound _ ["A"; "B"; "C"] None 10 _ _
                  ltac:(simpl; lia) Hrun)).
Defined.

(** * Sessions answered by a ranking *)

(** ** Positions in the ranking *)

Lemma index_of_inj (order : list TaskId) x y :
  x ∈ order → y ∈ order → index_of x order = index_of y order → x = y.
Proof.
  induction order as [|z order IH]; intros Hx Hy; [by apply elem_of_nil in Hx|].
  simpl. destruct (decide (x = z)) as [->|Hxz], (decide (y = z)) as [->|Hyz];
    try done.
  intros [= Heq]. apply IH; [| |done].
  - apply elem_of_cons in Hx as [?|?]; done.
  - apply elem_of_cons in Hy as [?|?]; done.
Qed.

Lemma answer_by_flip order a b :
  answer_by order b a = negate (answer_by order a b).
Proof.
  unfold answer_by. rewrite (Nat.compare_antisym (rank order a) (rank order b)).
  by destruct (rank order a ?= rank order b).
Qed.

Lemma answer_by_ids order (x y : TaskId) :
  x ∈ order → y ∈ order → x ≠ y →
  (answer_by order (Id x) (Id y) = Greater ∧ before order (Id x) (Id y))
  ∨ (answer_by order (Id x) (Id y) = Less ∧ before order (Id y) (Id x)).
Proof.
  intros Hx Hy Hne. unfold answer_by, before. simpl.
  destruct (Nat.compare_spec (index_of x order) (index_of y order)) as [Heq|?|?].
  - by destruct Hne; apply (index_of_inj order).
  - by left.
  - by right.
Qed.

Global Instance before_trans order : Transitive (before order).
Proof. unfold before. intros a b c. lia. Qed.

Lemma StronglySorted_impl_on {A} (R R' : relation A) (l : list A) :
  (∀ a b, a ∈ l → b ∈ l → R a b → R' a b) →
  StronglySorted R l → StronglySorted R' l.
Proof.
  intros Himpl Hs. induction Hs as [|x l Hs IH Hall]; constructor.
  - apply IH. intros a b Ha Hb. apply Himpl; by right.
  - rewrite Forall_forall in *. intros y Hy.
    apply Himpl; [by left|by right|by apply Hall].
Qed.

(** The ranking itself is in order. *)
Lemma order_sorted (order : list TaskId) :
  NoDup order → StronglySorted (before order) (Id <$> order).
Proof.
  induction 1 as [|x order Hx Hnd IH]; [constructor|].
  rewrite fmap_cons. constructor.
  - apply (StronglySorted_impl_on (before order)); [|done].
    intros a b [a' [-> Ha]]%list_elem_of_fmap [b' [-> Hb]]%list_elem_of_fmap.
    unfold before. simpl.
    rewrite !decide_False by (intros ->; done). lia.
  - apply Forall_forall. intros a [a' [-> Ha]]%list_elem_of_fmap.
    unfold before. simpl. rewrite decide_True by done.
    rewrite decide_False by (intros ->; done). lia.
Qed.

Lemma before_asym order a b : before order a b → before order b a → a = b.
Proof. unfold before. lia. Qed.

(** ** Frames stay in order *)

Lemma frame_sorted_advance order frame res :
  frame_sorted order frame →
  Frame.leftIdx frame < length (Frame.left frame) →
  Frame.rightIdx frame < length (Frame.right frame) →
  (res ≠ Less → before order (pair_a (frame_pair frame))
                              (pair_b (frame_pair frame))) →
  (res = Less → before order (pair_b (frame_pair frame))
                             (pair_a (frame_pair frame))) →
  frame_sorted order (advanceFrame frame res).
Proof.
  intros [Sl Sr] Hl Hr Hge Hlt. unfold frame_sorted, frame_pair in *.
  simpl in Hge, Hlt.
  rewrite (drop_at _ _ Hl) in Sl. rewrite (drop_at _ _ Hr) in Sr.
  set (a := array_get (Frame.left frame) (Frame.leftIdx frame)) in *.
  set (b := array_get (Frame.right frame) (Frame.rightIdx frame)) in *.
  assert (∀ m, m ∈ Frame.merged frame → before order m a) as Hma.
  { intros m Hm. apply (StronglySorted_app_1_elem_of _ _ _ _ _ Sl Hm). by left. }
  assert (∀ m, m ∈ Frame.merged frame → before order m b) as Hmb.
  { intros m Hm. apply (StronglySorted_app_1_elem_of _ _ _ _ _ Sr Hm). by left. }
  assert (∀ head rest other,
            StronglySorted (before order) (Frame.merged frame ++ head :: rest) →
            StronglySorted (before order) (Frame.merged frame ++ other :: []) →
            before order other head →
            StronglySorted (before order)
              ((Frame.merged frame ++ [other]) ++ head :: rest)) as Hins.
  { intros head rest other S1 S2 Hoh. rewrite <- app_assoc. simpl.
    apply StronglySorted_app in S1 as (S1a & S1b & S1c).
    apply StronglySorted_app in S2 as (S2a & _ & _).
    apply StronglySorted_app_2; [|done|].
    - intros x1 x2 Hx1 [->|Hx2]%elem_of_cons; [apply S2a; [done|by left]|].
      by apply S1a.
    - constructor; [done|]. apply StronglySorted_cons in S1c as [Hall _].
      constructor; [done|]. rewrite Forall_forall in *.
      intros z Hz. etrans; [exact Hoh|by apply Hall]. }
  assert (∀ x rest, StronglySorted (before order)
                      (Frame.merged frame ++ x :: rest) →
                    StronglySorted (before order) (Frame.merged frame ++ [x]))
    as Hcut.
  { intros x rest S. apply StronglySorted_app in S as (Sa & Sb & Sc).
    apply StronglySorted_app_2; [|done|repeat constructor].
    intros x1 x2 Hx1 Hx2. apply list_elem_of_singleton in Hx2 as ->.
    apply Sa; [done|by left]. }
  destruct res; simpl; fold a b.
  - (* less: the right element goes first *)
    split; [|by rewrite <- app_assoc].
    rewrite (drop_at _ _ Hl). fold a.
    apply Hins; [done|by eapply Hcut|by apply Hlt].
  - split; [by rewrite <- app_assoc|].
    rewrite (drop_at _ _ Hr). fold b.
    apply Hins; [done|by eapply Hcut|by apply Hge].
  - split; [by rewrite <- app_assoc|].
    rewrite (drop_at _ _ Hr). fold b.
    apply Hins; [done|by eapply Hcut|by apply Hge].
Qed.

(** ** The invariant of a session answered by a ranking *)

Section ranking.

Variables (order taskIds : list TaskId).
Hypothesis taskIds_NoDup : NoDup taskIds.
Hypothesis taskIds_order : taskIds ≡ₚ order.
Hypothesis taskIds_plain : Forall (λ id, has_pipe id = false) taskIds.

(** The pair under the cursors of the active frame consists of two
    different identifiers of the list. *)
Lemma pending_ids st int rest frame :
  well_shaped taskIds st → internal st = Some int →
  stack int = rest ++ [frame] →
  Frame.leftIdx frame < length (Frame.left frame) →
  Frame.rightIdx frame < length (Frame.right frame) →
  ∃ x y, frame_pair frame = MkPair (Id x) (Id y)
    ∧ x ∈ taskIds ∧ y ∈ taskIds ∧ x ≠ y.
Proof.
  intros (int0 & Hint0 & Hlen & Hheld & _) Hint Hs Hl Hr.
  assert (int0 = int) as -> by congruence.
  rewrite Hs in Hlen. pose proof (stack_single _ _ Hlen) as ->.
  assert (NoDup (held_ids int)) as Hnd.
  { rewrite Hheld. by apply (NoDup_fmap_2 Id). }
  unfold held_ids, frame_ids in Hheld, Hnd. rewrite Hs in Hheld, Hnd.
  simpl in Hheld, Hnd. rewrite !app_nil_r in Hheld, Hnd.
  rewrite (drop_at _ _ Hl), (drop_at _ _ Hr) in Hheld, Hnd.
  set (a := array_get (Frame.left frame) (Frame.leftIdx frame)) in *.
  set (b := array_get (Frame.right frame) (Frame.rightIdx frame)) in *.
  assert (a ∈ Id <$> taskIds) as Ha.
  { rewrite <- Hheld. rewrite !elem_of_app. right. right. left. by left. }
  assert (b ∈ Id <$> taskIds) as Hb.
  { rewrite <- Hheld. rewrite !elem_of_app. right. right. right. by left. }
  apply list_elem_of_fmap in Ha as (x & Hax & Hx).
  apply list_elem_of_fmap in Hb as (y & Hby & Hy).
  exists x, y. unfold frame_pair. fold a b. rewrite Hax, Hby.
  repeat split; try done.
  intros ->. rewrite Hax, Hby in Hnd.
  apply NoDup_app in Hnd as (_ & _ & Hnd).
  apply NoDup_app in Hnd as (_ & _ & Hnd).
  apply NoDup_app in Hnd as (_ & Hdis & _).
  apply (Hdis (Id y)); by left.
Qed.

Lemma in_order x : x ∈ taskIds → x ∈ order.
Proof. by rewrite taskIds_order. Qed.

Lemma sorted_request_step st st' :
  sorted_state order taskIds st → request_step st = inr st' →
  sorted_state order taskIds st'.
Proof.
  intros [Hw (int & Hint & Hruns & Hstack & Hcons)] Hstep.
  split; [by apply (well_shaped_request_step _ st)|].
  destruct (request_step_inr _ _ Hstep) as (int' & Hint' & Hcases).
  assert (int' = int) as -> by congruence.
  destruct Hcases as [(rest & f & Hs & Hex & ->)
    |[(rest & f & res & Hs & Hl & Hr & Hget & ->)|(l & r & others & Hs & Hr & ->)]].
  - eexists. split; [done|]. simpl. rewrite Hs in Hstack.
    apply Forall_app in Hstack as [Hrest Hf].
    rewrite Forall_singleton in Hf. destruct Hf as [Sl Sr].
    split; [|by split]. apply Forall_app. split; [done|].
    rewrite Forall_singleton. unfold frame_ids.
    destruct Hex as [Hex|Hex].
    + rewrite (drop_ge (Frame.left f)) by done. done.
    + rewrite (drop_ge (Frame.right f)) by done. by rewrite app_nil_r.
  - eexists. split; [done|]. simpl. rewrite Hs in Hstack.
    apply Forall_app in Hstack as [Hrest Hf].
    rewrite Forall_singleton in Hf.
    split; [done|]. split; [|done]. apply Forall_app. split; [done|].
    rewrite Forall_singleton.
    destruct (pending_ids st int rest f Hw Hint Hs Hl Hr)
      as (x & y & Hp & Hx & Hy & Hne).
    rewrite Hp in Hget. simpl in Hget.
    apply Hcons in Hget; [|done..].
    apply frame_sorted_advance; [done..| |]; rewrite Hp; simpl;
      destruct (answer_by_ids order x y (in_order _ Hx) (in_order _ Hy) Hne)
        as [[Ha Hb]|[Ha Hb]]; congruence.
  - eexists. split; [done|]. simpl. rewrite Hr in Hruns.
    apply Forall_cons in Hruns as [Sl Hruns].
    apply Forall_cons in Hruns as [Sr Hruns].
    split; [done|]. split; [|done]. rewrite Forall_singleton.
    unfold frame_sorted. simpl. by rewrite !drop_0.
Qed.

Lemma sorted_done st st' :
  sorted_state order taskIds st → request_step st = inl (None, st') →
  sorted_state order taskIds st'.
Proof.
  intros [Hw (int & Hint & Hruns & Hstack & Hcons)] Hstep.
  split; [by apply (well_shaped_done _ st)|].
  destruct (request_step_done _ _ Hstep)
    as [[_ ->]|(int' & Hint' & Hs & [[_ ->]|(run & Hr & ->)])];
    [by exists int..|].
  assert (int' = int) as -> by congruence.
  eexists. split; [done|]. simpl. rewrite Hs in Hstack. by rewrite Hr in Hruns.
Qed.

Lemma sorted_commit st p st' :
  sorted_state order taskIds st → request_step st = inl (Some p, st) →
  commitComparison st (pair_a p) (pair_b p)
    (answer_by order (pair_a p) (pair_b p)) = Some st' →
  sorted_state order taskIds st'.
Proof.
  intros [Hw (int & Hint & Hruns & Hstack & Hcons)] Hstep Hc.
  split; [by eapply (well_shaped_commit _ st p)|].
  destruct (commit_pending _ _ _ _ Hstep Hc)
    as (int' & rest & f & Hint' & Hs & Hl & Hr & -> & Hno & ->).
  assert (int' = int) as -> by congruence.
  destruct (pending_ids st int rest f Hw Hint Hs Hl Hr)
    as (x & y & Hp & Hx & Hy & Hne).
  rewrite Hp in *. simpl in *.
  eexists. split; [done|]. simpl. split; [done|]. split.
  - rewrite Hs in Hstack. apply Forall_app in Hstack as [Hrest Hf].
    rewrite Forall_singleton in Hf.
    apply Forall_app. split; [done|]. rewrite Forall_singleton.
    apply frame_sorted_advance; [done..| |]; rewrite Hp; simpl;
      destruct (answer_by_ids order x y (in_order _ Hx) (in_order _ Hy) Hne)
        as [[Ha Hb]|[Ha Hb]]; congruence.
  - intros x' y' r Hx' Hy' Hne'. rewrite get_toRecord.
    rewrite Forall_forall in taskIds_plain.
    destruct (decide (x' = x ∧ y' = y)) as [[-> ->]|H1].
    { rewrite get_set_same. congruence. }
    destruct (decide (x' = y ∧ y' = x)) as [[-> ->]|H2].
    { rewrite get_flip by done. rewrite get_set_same.
      intros [= <-]. by rewrite (answer_by_flip order (Id x) (Id y)). }
    rewrite get_set_other by auto. by apply Hcons.
Qed.

Lemma sorted_start existingCache :
  match existingCache with
  | Some record => consistent order taskIds record
  | None => True
  end →
  sorted_state order taskIds (createSession taskIds existingCache).
Proof.
  intros Hseed. split; [apply well_shaped_start|].
  eexists. split; [done|]. cbn [runs stack]. split; [|split; [done|]].
  - apply Forall_fmap, Forall_forall. intros id _. simpl.
    repeat constructor.
  - intros x y r Hx Hy Hne. unfold createSession. cbn [cache].
    rewrite get_toRecord. destruct existingCache as [record|].
    + rewrite createComparisonCache_Some. by apply Hseed.
    + done.
Qed.

Lemma session_sorted existingCache state :
  match existingCache with
  | Some record => consistent order taskIds record
  | None => True
  end →
  session (answer_by order) (createSession taskIds existingCache) state →
  sorted_state order taskIds state.
Proof.
  intros Hseed. apply session_invariant.
  - by apply sorted_start.
  - apply sorted_request_step.
  - apply sorted_done.
  - apply sorted_commit.
Qed.

(** The end of a session answered by the ranking. *)
Lemma sorted_final state :
  sorted_state order taskIds state →
  requestNextPair state = (None, state) →
  finalize state = Id <$> order
  ∧ (taskIds ≠ [] → isComplete state = true).
Proof.
  intros [(int0 & Hint0 & Hlen & Hheld & Hres)
          (int & Hint & Hruns & Hstack & Hcons)] Hdone.
  assert (int0 = int) as -> by congruence.
  pose proof (requestNextPair_settled state) as Hs.
  rewrite Hdone in Hs. simpl in Hs.
  apply request_step_done in Hs
    as [[? _]|(int' & Hint' & Hs & [[Hr _]|(run & Hr & _)])]; [congruence|..];
    assert (int' = int) as -> by congruence;
    unfold held_ids in Hheld; rewrite Hs, Hr in Hheld; simpl in Hheld.
  - symmetry in Hheld. apply Permutation_nil_r in Hheld.
    apply fmap_nil_inv in Hheld. split; [|done].
    assert (order = []) as -> by (apply Permutation_nil; by rewrite <- taskIds_order, Hheld).
    unfold finalize. rewrite Hint, Hr.
    destruct Hres as [->|[_ Hr']]; [done|]. by rewrite Hr in Hr'.
  - rewrite !app_nil_r in Hheld. rewrite Hr in Hruns.
    rewrite Forall_singleton in Hruns.
    assert (run = Id <$> order) as ->.
    { apply (StronglySorted_unique_strong (before order)); [|done| |].
      - intros ? ? _ _. apply before_asym.
      - apply order_sorted. by rewrite <- taskIds_order.
      - by rewrite Hheld, taskIds_order. }
    unfold finalize, isComplete. rewrite Hint, Hr, Hs. done.
Qed.

End ranking.

(** ** The session sorts *)

(** A session over a list of different identifiers without [|], answered
    throughout by one ranking of them, ends with exactly that ranking,
    most important first, and is then complete; also when it starts from a
    prior cache, provided that cache agrees with the ranking on the pairs
    of the list. *)
Theorem session_sorts (order taskIds : list TaskId) existingCache :
  NoDup taskIds →
  taskIds ≡ₚ order →
  Forall (λ id, has_pipe id = false) taskIds →
  match existingCache with
  | Some record => consistent order taskIds record
  | None => True
  end →
  ∃ asked final,
    run_session (S (queue_cost (repeat 1 (length taskIds)))) (answer_by order)
      (createSession taskIds existingCache) = Finished asked final
    ∧ finalize final = Id <$> order
    ∧ (taskIds ≠ [] → isComplete final = true).
Proof.
  intros Hnd Hperm Hplain Hseed.
  destruct (session_finishes_with (answer_by order) taskIds existingCache)
    as (asked & final & Hrun & _ & _ & Hdone & Hsess).
  exists asked, final. split; [done|].
  apply (sorted_final order taskIds Hnd Hperm); [|done].
  by apply (session_sorted order taskIds Hnd Hperm Hplain existingCache).
Qed.

Lemma session_sorts_witness :
  ∃ asked final,
    run_session 4 (answer_by ["C"; "A"; "B"]) (createSession ["A"; "B"; "C"] None)
    = Finished asked final
    ∧ finalize final = [Id "C"; Id "A"; Id "B"].
Proof.
  destruct (session_sorts ["C"; "A"; "B"] ["A"; "B"; "C"] None)
    as (asked & final & Hrun & Hfin & _).
  - refine (bool_decide_unpack (NoDup _) _). by vm_compute.
  - refine (bool_decide_unpack (_ ≡ₚ _) _). by vm_compute.
  - repeat constructor.
  - exact I.
  - exists asked, final. split; [exact Hrun|exact Hfin].
Defined.

(** Without the condition on [|] the ranking can come out wrong: the pairs
    [(a|b, c)] and [(a, b|c)] share the key [a|b|c], so the answer to the
    first is taken for the second. *)
Lemma session_misled_by_pipe :
  ∃ asked final,
    run_session 10 (answer_by ["b|c"; "a"; "a|b"; "c"])
      (createSession ["a|b"; "c"; "a"; "b|c"] None) = Finished asked final
    ∧ finalize final = [Id "a"; Id "b|c"; Id "a|b"; Id "c"].
Proof. eexists _, _. split; by vm_compute. Qed.

(** * What any sequence of calls keeps *)

Lemma reachable_frame start st :
  reachable start st →
  algo st = algo start
  ∧ comparisonsTotal st = comparisonsTotal start
  ∧ comparisonsAsked start ≤ comparisonsAsked st.
Proof.
  induction 1 as [|st _ IH|st a b res st' _ IH Hc].
  - done.
  - destruct (requestNextPair_frame st) as (-> & -> & -> & _). done.
  - destruct IH as (IH1 & IH2 & IH3).
    destruct (internal st) as [int|] eqn:Hint;
      [|unfold commitComparison in Hc; by rewrite Hint in Hc].
    rewrite (commitComparison_Some _ _ _ _ _ Hint) in Hc.
    injection Hc as <-. simpl. repeat split; [done..|lia].
Qed.

(** Along any sequence of [requestNextPair] and [commitComparison]
    calls, in or out of protocol, the record of the session only grows:
    the count of comparisons asked never goes down, a pair that the cache
    answers stays answered, and the strategy tag and the estimate stay as
    they are. *)
Theorem session_record_grows start st :
  reachable start st →
  comparisonsAsked start ≤ comparisonsAsked st
  ∧ (∀ a b, Cache.has (cache start) a b = true → Cache.has (cache st) a b = true)
  ∧ algo st = algo start
  ∧ comparisonsTotal st = comparisonsTotal start.
Proof.
  intros Hreach. destruct (reachable_frame _ _ Hreach) as (H1 & H2 & H3).
  repeat split; try done.
  intros a b. unfold Cache.has. rewrite !bool_decide_eq_true.
  apply (reachable_cache_grows _ _ _ Hreach), createCacheKey_not_proto.
Qed.

Lemma session_record_grows_witness :
  ∃ st,
    commitComparison (createSession ["A"; "B"] None) (Id "A") (Id "B") Less
    = Some st
    ∧ comparisonsAsked (createSession ["A"; "B"] None) ≤ comparisonsAsked st.
Proof.
  destruct (commitComparison (createSession ["A"; "B"] None)
              (Id "A") (Id "B") Less) as [st|] eqn:E; [|discriminate E].
  exists st. split; [reflexivity|].
  exact (proj1 (session_record_grows (createSession ["A"; "B"] None) st
                  (reachable_commit _ _ (Id "A") (Id "B") Less _
                     (reachable_start _) E))).
Defined.

(** A pair that has been committed is not shown again: whatever calls
    follow the commit of an answer for [a] and [b], no later request
    returns a pair with the key of [a] and [b]; for two identifiers this
    rules out the pair in either order. *)
Theorem committed_pair_not_asked_again state (a b : TaskId) res state' st p :
  commitComparison state (Id a) (Id b) res = Some state' →
  reachable state' st →
  (requestNextPair st).1 = Some p →
  createCacheKey (pair_a p) (pair_b p) ≠ createCacheKey (Id a) (Id b)
  ∧ p ≠ MkPair (Id a) (Id b)
  ∧ p ≠ MkPair (Id b) (Id a).
Proof.
  intros Hc Hreach Hp.
  assert (is_Some (cache state' !! createCacheKey (Id a) (Id b))) as Hset.
  { destruct (internal state) as [int|] eqn:Hint;
      [|unfold commitComparison in Hc; by rewrite Hint in Hc].
    rewrite (commitComparison_Some _ _ _ _ _ Hint) in Hc.
    injection Hc as <-. cbn [cache]. rewrite toRecord_lookup_key.
    unfold Cache.set. rewrite lookup_insert_eq. eauto. }
  pose proof (reachable_cache_grows _ _ _ Hreach
                (createCacheKey_not_proto _ _) Hset) as Hst.
  pose proof (requestNextPair_pending st p Hp) as Hpend.
  apply request_step_pair in Hpend
    as (_ & int & rest & frame & _ & _ & _ & _ & _ & Hno).
  destruct (requestNextPair_frame st) as (_ & _ & _ & Hcache).
  rewrite Hcache in Hno. unfold Cache.has in Hno.
  rewrite bool_decide_eq_false in Hno.
  assert (createCacheKey (pair_a p) (pair_b p) ≠ createCacheKey (Id a) (Id b))
    as Hkey by (intros E; apply Hno; by rewrite E).
  split; [done|]. split.
  - intros ->. by apply Hkey.
  - intros ->. apply Hkey. simpl. apply createCacheKey_comm.
Qed.

Lemma committed_pair_not_asked_again_witness :
  ∃ state' p,
    commitComparison (requestNextPair (createSession ["A"; "B"; "C"] None)).2
      (Id "A") (Id "B") Greater = Some state'
    ∧ (requestNextPair state').1 = Some p
    ∧ p ≠ MkPair (Id "A") (Id "B").
Proof.
  destruct (commitComparison
              (requestNextPair (createSession ["A"; "B"; "C"] None)).2
              (Id "A") (Id "B") Greater) as [state'|] eqn:E;
    [|by vm_compute in E].
  destruct (requestNextPair state').1 as [p|] eqn:Hp.
  - exists state', p. split; [reflexivity|]. split; [exact Hp|].
    exact (proj1 (proj2 (committed_pair_not_asked_again _ "A" "B" Greater
                           state' state' p E (reachable_start _) Hp))).
  - exfalso. vm_compute in E. injection E as <-. by vm_compute in Hp.
Defined.

(** * The step of a merge *)

(** [advanceFrame] moves the element under one cursor to the output: the
    left one for [greater] and for [equal], the right one for [less].
    With both cursors inside their runs nothing is lost or duplicated and
    one element fewer is left to compare.  With the chosen cursor past the
    end of its run (a commit on a frame that is already exhausted on that
    side) the output receives [undefined] instead. *)
Theorem advanceFrame_moves frame res :
  Frame.merged (advanceFrame frame res)
  = Frame.merged frame
      ++ [if decide (res = Less)
          then array_get (Frame.right frame) (Frame.rightIdx frame)
          else array_get (Frame.left frame) (Frame.leftIdx frame)]
  ∧ (Frame.leftIdx frame < length (Frame.left frame) →
     Frame.rightIdx frame < length (Frame.right frame) →
     frame_ids (advanceFrame frame res) ≡ₚ frame_ids frame
     ∧ S (frame_rest (advanceFrame frame res)) = frame_rest frame)
  ∧ (length (Frame.left frame) ≤ Frame.leftIdx frame → res ≠ Less →
     Frame.merged (advanceFrame frame res) = Frame.merged frame ++ [Undef]
     ∧ frame_ids (advanceFrame frame res) ≡ₚ Undef :: frame_ids frame)
  ∧ (length (Frame.right frame) ≤ Frame.rightIdx frame → res = Less →
     Frame.merged (advanceFrame frame res) = Frame.merged frame ++ [Undef]
     ∧ frame_ids (advanceFrame frame res) ≡ₚ Undef :: frame_ids frame).
Proof.
  split; [by destruct res|]. split; [|split].
  - intros Hl Hr. split; [by apply frame_ids_advance|].
    by destruct (frame_rest_advance frame res Hl Hr).
  - intros Hl Hres.
    assert (array_get (Frame.left frame) (Frame.leftIdx frame) = Undef) as Hu.
    { unfold array_get. by rewrite lookup_ge_None_2. }
    unfold frame_ids. destruct res; [done| |]; simpl; rewrite Hu;
      (split; [done|]); rewrite !(drop_ge (Frame.left frame)) by lia;
      simpl; rewrite <- app_assoc; simpl; by rewrite Permutation_middle.
  - intros Hr ->.
    assert (array_get (Frame.right frame) (Frame.rightIdx frame) = Undef) as Hu.
    { unfold array_get. by rewrite lookup_ge_None_2. }
    unfold frame_ids. simpl. rewrite Hu. split; [done|].
    rewrite !(drop_ge (Frame.right frame)) by lia.
    rewrite !app_nil_r. rewrite <- app_assoc. simpl.
    symmetry. apply Permutation_middle.
Qed.

Lemma advanceFrame_moves_witness :
  Frame.merged (advanceFrame (Frame.mk [Id "A"] [Id "B"] 1 0 [Id "A"]) Greater)
  = [Id "A"; Undef].
Proof.
  destruct (advanceFrame_moves
              (Frame.mk [Id "A"] [Id "B"] 1 0 [Id "A"]) Greater)
    as (_ & _ & Hleft & _).
  destruct Hleft as [H _]; [simpl; lia|discriminate|exact H].
Defined.

(** * The first of the final order *)

Section unbeaten.

Variable taskIds : list TaskId.
Hypothesis taskIds_NoDup : NoDup taskIds.
Hypothesis taskIds_plain : Forall (λ id, has_pipe id = false) taskIds.

Lemma held_NoDup st int :
  well_shaped taskIds st → internal st = Some int → NoDup (held_ids int).
Proof.
  intros (int0 & Hint0 & _ & Hheld & _) Hint.
  assert (int0 = int) as -> by congruence.
  rewrite Hheld. by apply (NoDup_fmap_2 Id).
Qed.

Lemma advance_head_unbeaten c frame res :
  frame_unbeaten taskIds c frame →
  Frame.leftIdx frame < length (Frame.left frame) →
  Frame.rightIdx frame < length (Frame.right frame) →
  (Frame.merged frame = [] →
   unbeaten taskIds c
     (if decide (res = Less) then pair_b (frame_pair frame)
      else pair_a (frame_pair frame))) →
  frame_unbeaten taskIds c (advanceFrame frame res).
Proof.
  intros [Hlen Hm] Hl Hr Hw. split.
  - destruct res; simpl; rewrite length_app; simpl; lia.
  - destruct (Frame.merged frame) as [|m ms] eqn:Hmerged.
    + specialize (Hw eq_refl). destruct res; simpl; by rewrite Hmerged.
    + destruct res; simpl; by rewrite Hmerged.
Qed.

Lemma unbeaten_request_step st st' :
  unbeaten_state taskIds st → request_step st = inr st' →
  unbeaten_state taskIds st'.
Proof.
  intros [Hw (int & Hint & Hruns & Hstack)] Hstep.
  split; [by apply (well_shaped_request_step _ st)|].
  destruct (request_step_frame _ _ Hstep) as (_ & _ & _ & Hcache).
  rewrite Hcache.
  destruct (request_step_inr _ _ Hstep) as (int' & Hint' & Hcases).
  assert (int' = int) as -> by congruence.
  destruct Hcases as [(rest & f & Hs & Hex & ->)
    |[(rest & f & res & Hs & Hl & Hr & Hget & ->)|(l & r & others & Hs & Hr & ->)]].
  - eexists. split; [done|]. simpl. rewrite Hs in Hstack.
    apply Forall_app in Hstack as [Hrest Hf].
    rewrite Forall_singleton in Hf. destruct Hf as [Hlen Hm].
    split; [|done]. apply Forall_app. split; [done|].
    rewrite Forall_singleton. unfold frame_ids, head_unbeaten.
    destruct (Frame.merged f) as [|m ms] eqn:Hmerged.
    + simpl in Hlen.
      assert (Frame.leftIdx f = 0) as Hl0 by lia.
      assert (Frame.rightIdx f = 0) as Hr0 by lia.
      rewrite Hl0, Hr0, !drop_0 in *. simpl. destruct Hm as [Hhl Hhr].
      destruct Hex as [Hex|Hex].
      * destruct (Frame.left f); [|simpl in Hex; lia]. simpl. apply Hhr.
      * destruct (Frame.right f); [|simpl in Hex; lia].
        rewrite app_nil_r. apply Hhl.
    + simpl. by intros h [= <-].
  - eexists. split; [done|]. simpl. rewrite Hs in Hstack.
    apply Forall_app in Hstack as [Hrest Hf].
    rewrite Forall_singleton in Hf.
    split; [done|]. apply Forall_app. split; [done|].
    rewrite Forall_singleton.
    apply advance_head_unbeaten; [done..|]. intros Hmerged.
    destruct Hf as [Hlen Hm]. rewrite Hmerged in Hlen, Hm. simpl in Hlen.
    assert (Frame.leftIdx f = 0) as Hl0 by lia.
    assert (Frame.rightIdx f = 0) as Hr0 by lia.
    destruct Hm as [Hhl Hhr]. unfold frame_pair, array_get. simpl.
    rewrite Hl0, Hr0. case_decide.
    + destruct (Frame.right f) as [|b ?]; [simpl in Hr; lia|]. by apply Hhr.
    + destruct (Frame.left f) as [|a ?]; [simpl in Hl; lia|]. by apply Hhl.
  - eexists. split; [done|]. simpl. rewrite Hr in Hruns.
    apply Forall_cons in Hruns as [Hhl Hruns].
    apply Forall_cons in Hruns as [Hhr Hruns].
    split; [done|]. rewrite Forall_singleton. by split.
Qed.

Lemma unbeaten_done st st' :
  unbeaten_state taskIds st → request_step st = inl (None, st') →
  unbeaten_state taskIds st'.
Proof.
  intros [Hw (int & Hint & Hruns & Hstack)] Hstep.
  split; [by apply (well_shaped_done _ st)|].
  destruct (request_step_done_frame _ _ Hstep) as (_ & _ & _ & Hcache).
  rewrite Hcache.
  destruct (request_step_done _ _ Hstep)
    as [[_ ->]|(int' & Hint' & Hs & [[_ ->]|(run & Hr & ->)])];
    [by exists int..|].
  assert (int' = int) as -> by congruence.
  eexists. split; [done|]. simpl. rewrite Hs in Hstack. by rewrite Hr in Hruns.
Qed.

(** An answer for [x] and [y] leaves every third item as it was, and the
    item that the answer favours. *)
Lemma unbeaten_set c (x y : TaskId) res v :
  x ∈ taskIds → y ∈ taskIds → x ≠ y →
  unbeaten taskIds c v →
  v ≠ (if decide (res = Less) then Id x else Id y) →
  unbeaten taskIds (Cache.toRecord (Cache.set c (Id x) (Id y) res)) v.
Proof.
  intros Hx Hy Hne Hv Hloser z y' -> Hz Hy' Hne'.
  rewrite get_toRecord. rewrite Forall_forall in taskIds_plain.
  destruct (decide (z = x ∧ y' = y)) as [[-> ->]|H1].
  { rewrite get_set_same. intros [= ->]. by rewrite decide_True in Hloser. }
  destruct (decide (z = y ∧ y' = x)) as [[-> ->]|H2].
  { rewrite get_flip by done. rewrite get_set_same. by destruct res. }
  rewrite get_set_other by auto. by apply (Hv z).
Qed.

Lemma unbeaten_commit st p res st' :
  unbeaten_state taskIds st → request_step st = inl (Some p, st) →
  commitComparison st (pair_a p) (pair_b p) res = Some st' →
  unbeaten_state taskIds st'.
Proof.
  intros [Hw (int & Hint & Hruns & Hstack)] Hstep Hc.
  split; [by eapply (well_shaped_commit _ st p)|].
  pose proof (held_NoDup st int Hw Hint) as Hnd.
  destruct (commit_pending _ _ _ _ Hstep Hc)
    as (int' & rest & f & Hint' & Hs & Hl & Hr & -> & Hno & ->).
  assert (int' = int) as -> by congruence.
  destruct (pending_ids taskIds taskIds_NoDup st int rest f Hw Hint Hs Hl Hr)
    as (x & y & Hp & Hx & Hy & Hne).
  assert (rest = []) as ->.
  { destruct Hw as (int0 & Hint0 & Hlen & _).
    assert (int0 = int) as -> by congruence.
    rewrite Hs in Hlen. by apply stack_single in Hlen. }
  unfold held_ids, frame_ids in Hnd. rewrite Hs in Hnd. simpl in Hnd.
  rewrite app_nil_r in Hnd.
  rewrite (drop_at _ _ Hl), (drop_at _ _ Hr) in Hnd.
  pose proof Hp as Hp'. unfold frame_pair in Hp'. injection Hp' as Ha Hb.
  rewrite Ha, Hb in Hnd.
  apply NoDup_app in Hnd as (_ & Hruns_frame & Hnd).
  apply NoDup_app in Hnd as (_ & Hmerged_rest & Hnd).
  apply NoDup_app in Hnd as (_ & Hlr & _).
  rewrite Hp. simpl.
  set (loser := if decide (res = Less) then Id x else Id y).
  assert (∀ v, v ∈ Frame.merged f → v ≠ loser) as Hm_loser.
  { intros v Hv ->. apply (Hmerged_rest _ Hv). unfold loser.
    case_decide; rewrite !elem_of_app; [left|right]; by left. }
  assert (∀ run v, run ∈ runs int → head run = Some v → v ≠ loser) as Hr_loser.
  { intros run v Hrun Hhead ->.
    apply (Hruns_frame loser).
    - apply list_elem_of_In, in_concat. exists run.
      split; [by apply list_elem_of_In|]. apply list_elem_of_In.
      destruct run; [done|]. injection Hhead as ->. by left.
    - unfold loser. case_decide; rewrite !elem_of_app; right;
        [left|right]; by left. }
  eexists. split; [done|]. cbn [runs stack cache]. split.
  - rewrite Forall_forall in Hruns. apply Forall_forall. intros run Hrun h Hh.
    apply unbeaten_set; [done..|by apply (Hruns run)|by apply (Hr_loser run)].
  - rewrite Hs in Hstack. simpl in Hstack.
    rewrite Forall_singleton in Hstack. simpl. rewrite Forall_singleton.
    destruct Hstack as [Hlen Hm]. split.
    { destruct res; simpl; rewrite length_app; simpl; lia. }
    destruct (Frame.merged f) as [|m ms] eqn:Hmerged.
    + simpl in Hlen.
      assert (Frame.leftIdx f = 0) as Hl0 by lia.
      assert (Frame.rightIdx f = 0) as Hr0 by lia.
      destruct Hm as [Hhl Hhr].
      assert (head (Frame.left f) = Some (Id x)) as Hhx.
      { rewrite <- Ha. unfold array_get. rewrite Hl0.
        destruct (Frame.left f); [simpl in Hl; lia|done]. }
      assert (head (Frame.right f) = Some (Id y)) as Hhy.
      { rewrite <- Hb. unfold array_get. rewrite Hr0.
        destruct (Frame.right f); [simpl in Hr; lia|done]. }
      destruct res; simpl; rewrite Hmerged; simpl; rewrite ?Ha, ?Hb;
        apply unbeaten_set; auto; simpl; congruence.
    + assert (unbeaten taskIds
                (Cache.toRecord (Cache.set (cache st) (Id x) (Id y) res)) m).
      { apply unbeaten_set; [done..|]. apply Hm_loser. by left. }
      destruct res; simpl; by rewrite Hmerged.
Qed.

Lemma unbeaten_start : unbeaten_state taskIds (createSession taskIds None).
Proof.
  split; [apply well_shaped_start|].
  eexists. split; [done|]. cbn [runs stack]. split; [|done].
  apply Forall_forall. intros run _ h _ z y -> _ _ _. done.
Qed.

Lemma protocol_unbeaten state :
  protocol (createSession taskIds None) state → unbeaten_state taskIds state.
Proof.
  apply protocol_invariant.
  - apply unbeaten_start.
  - apply unbeaten_request_step.
  - apply unbeaten_done.
  - intros st p res st'. apply unbeaten_commit.
Qed.

End unbeaten.

(** In a session that starts without a prior cache, over different
    identifiers without [|], the item that ends up first was never judged
    less than another item, whatever the answers were, consistent or not:
    the cache of the finished session, which holds the answers given, has
    no entry that puts the first item below another one. *)
Theorem first_never_judged_less answer (taskIds : list TaskId) :
  NoDup taskIds →
  Forall (λ id, has_pipe id = false) taskIds →
  ∃ asked final,
    run_session (S (queue_cost (repeat 1 (length taskIds)))) answer
      (createSession taskIds None) = Finished asked final
    ∧ ∀ h y,
        head (finalize final) = Some (Id h) →
        y ∈ taskIds → y ≠ h →
        Cache.get (cache final) (Id h) (Id y) ≠ Some Less
        ∧ Cache.get (cache final) (Id y) (Id h) ≠ Some Greater.
Proof.
  intros Hnd Hplain.
  destruct (session_finishes_with answer taskIds None)
    as (asked & final & Hrun & _ & _ & Hdone & Hsess).
  exists asked, final. split; [done|]. intros h y Hhead Hy Hne.
  apply session_protocol in Hsess.
  destruct (protocol_unbeaten taskIds Hnd Hplain final Hsess)
    as [(int0 & Hint0 & _ & Hheld & Hres) (int & Hint & Hruns & _)].
  assert (int0 = int) as -> by congruence.
  pose proof (requestNextPair_settled final) as Hs.
  rewrite Hdone in Hs. simpl in Hs.
  assert (Cache.get (cache final) (Id h) (Id y) ≠ Some Less) as Hless.
  { apply request_step_done in Hs
      as [[? _]|(int' & Hint' & Hs & [[Hr _]|(run & Hr & _)])]; [congruence|..];
      assert (int' = int) as -> by congruence;
      unfold finalize in Hhead; rewrite Hint, Hr in Hhead.
    - destruct Hres as [Hres|[_ Hres]]; [by rewrite Hres in Hhead|].
      by rewrite Hr in Hres.
    - rewrite Hr in Hruns. rewrite Forall_singleton in Hruns.
      apply (Hruns (Id h) Hhead h y); [done| |done..].
      assert (Id h ∈ Id <$> taskIds) as Hin.
      { rewrite <- Hheld. unfold held_ids. rewrite Hr. simpl.
        rewrite !elem_of_app. left. left. destruct run; [done|].
        injection Hhead as ->. by left. }
      apply list_elem_of_fmap in Hin as (h' & [= ->] & Hh'). done. }
  split; [done|]. rewrite (get_flip _ h y) by done.
  destruct (Cache.get (cache final) (Id h) (Id y)) as [[| |]|]; done.
Qed.

Lemma first_never_judged_less_witness :
  ∃ asked final,
    run_session 4 (λ _ _, Less) (createSession ["A"; "B"; "C"] None)
    = Finished asked final
    ∧ finalize final = [Id "B"; Id "A"; Id "C"]
    ∧ Cache.get (cache final) (Id "B") (Id "A") ≠ Some Less.
Proof.
  destruct (first_never_judged_less (λ _ _, Less) ["A"; "B"; "C"])
    as (asked & final & Hrun & H).
  - refine (bool_decide_unpack (NoDup _) _). by vm_compute.
  - repeat constructor.
  - exists asked, final. split; [exact Hrun|].
    assert (finalize final = [Id "B"; Id "A"; Id "C"]) as Hfin.
    { vm_compute in Hrun. injection Hrun as _ <-. reflexivity. }
    split; [exact Hfin|].
    refine (proj1 (H "B" "A" _ _ _)); [by rewrite Hfin|by left|discriminate].
Defined.

(** * Running a finished session again *)

(** ** The branches of [requestNextPair], read forwards *)

Lemma request_step_complete s int rest frame :
  internal s = Some int → stack int = rest ++ [frame] → exhausted frame →
  request_step s
  = inr (with_internal s
           {| runs := runs int ++ [frame_ids frame];
              stack := rest; result := result int |}).
Proof.
  intros Hint Hs Hex. unfold request_step. rewrite Hint.
  rewrite (proj2 (array_pop_Some _ _ _) Hs).
  destruct Hex as [Hex|Hex].
  - by rewrite (bool_decide_eq_true_2 _ Hex).
  - rewrite (bool_decide_eq_true_2 (_ ≤ Frame.rightIdx frame) Hex).
    by rewrite orb_true_r.
Qed.

Lemma request_step_hit s int rest frame res :
  internal s = Some int → stack int = rest ++ [frame] →
  Frame.leftIdx frame < length (Frame.left frame) →
  Frame.rightIdx frame < length (Frame.right frame) →
  Cache.get (cache s) (pair_a (frame_pair frame)) (pair_b (frame_pair frame))
  = Some res →
  request_step s
  = inr (with_internal s
           {| runs := runs int;
              stack := rest ++ [advanceFrame frame res];
              result := result int |}).
Proof.
  intros Hint Hs Hl Hr Hget. unfold request_step. rewrite Hint.
  rewrite (proj2 (array_pop_Some _ _ _) Hs), createComparisonCache_Some.
  rewrite !bool_decide_eq_false_2 by lia. simpl in *.
  rewrite (proj2 (has_get _ _ _)) by (rewrite Hget; eauto).
  by rewrite Hget.
Qed.

Lemma request_step_start s int left_run right_run others :
  internal s = Some int → stack int = [] →
  runs int = left_run :: right_run :: others →
  request_step s
  = inr (with_internal s
           {| runs := others;
              stack := [Frame.mk left_run right_run 0 0 []];
              result := result int |}).
Proof.
  intros Hint Hs Hr. unfold request_step. by rewrite Hint, Hs, Hr.
Qed.

Lemma request_step_over s int :
  internal s = Some int → stack int = [] → length (runs int) ≤ 1 →
  ∃ s', request_step s = inl (None, s')
    ∧ cache s' = cache s
    ∧ ((runs int = [] ∧ s' = s)
       ∨ ∃ run, runs int = [run]
           ∧ internal s' = Some {| runs := [run]; stack := []; result := run |}).
Proof.
  intros Hint Hs Hlen. unfold request_step. rewrite Hint, Hs. simpl.
  destruct (runs int) as [|run [|? ?]] eqn:Hr; [| |simpl in Hlen; lia].
  - exists s. split; [done|]. split; [done|]. by left.
  - eexists. split; [done|]. split; [done|]. right. by exists run.
Qed.

(** ** The second run follows the first *)

Section rerun.

Variable C : Cache.t.

Lemma follows_get s1 s2 a b res :
  follows C s1 s2 → Cache.get (cache s1) a b = Some res →
  Cache.get (cache s2) a b = Some res.
Proof.
  intros (_ & -> & Hsub). unfold Cache.get.
  destruct (cache s1 !! createCacheKey a b) as [v|] eqn:Hv; [|done].
  by rewrite (Hsub _ _ _ Hv).
Qed.

Lemma follows_request_step s1 s1' s2 :
  follows C s1 s2 → request_step s1 = inr s1' →
  ∃ s2', request_step s2 = inr s2' ∧ follows C s1' s2'.
Proof.
  intros Hf Hstep. pose proof Hf as (Hint & Hc & Hsub).
  destruct (request_step_frame _ _ Hstep) as (_ & _ & _ & Hcache).
  destruct (request_step_inr _ _ Hstep) as (int & Hint1 & Hcases).
  rewrite Hint1 in Hint.
  destruct Hcases as [(rest & f & Hs & Hex & ->)
    |[(rest & f & res & Hs & Hl & Hr & Hget & ->)|(l & r & others & Hs & Hr & ->)]].
  - eexists. split; [by apply (request_step_complete s2 int rest f)|].
    split; [done|]. split; [done|]. by rewrite Hcache.
  - eexists. split.
    + apply (request_step_hit s2 int rest f res); try done.
      by apply (follows_get s1).
    + split; [done|]. split; [done|]. by rewrite Hcache.
  - eexists. split; [by apply (request_step_start s2 int l r others)|].
    split; [done|]. split; [done|]. by rewrite Hcache.
Qed.

(** Up to the point where the first run returns, the second goes through
    the same cursor positions. *)
Lemma follows_request s1 s2 :
  follows C s1 s2 →
  ∃ s2', requestNextPair s2 = requestNextPair s2'
    ∧ follows C (requestNextPair s1).2 s2'.
Proof.
  revert s2.
  apply (requestNextPair_ind (λ s1 r, ∀ s2, follows C s1 s2 →
    ∃ s2', requestNextPair s2 = requestNextPair s2' ∧ follows C r.2 s2')).
  - intros st [[p|] st'] Hstep s2 Hf; simpl.
    + destruct (request_step_pair _ _ _ Hstep) as [-> _]. by exists s2.
    + exists (requestNextPair s2).2.
      split; [by rewrite requestNextPair_fixed|].
      pose proof Hf as (Hint & Hc & Hsub).
      destruct (request_step_done_frame _ _ Hstep) as (_ & _ & _ & Hcache).
      destruct (requestNextPair_frame s2) as (_ & _ & _ & Hcache2).
      split; [|split; [congruence|by rewrite Hcache]].
      rewrite requestNextPair_unfold.
      destruct (request_step_done _ _ Hstep)
        as [[Hn ->]|(int & Hint1 & Hs & [[Hr ->]|(run & Hr & ->)])].
      * unfold request_step. rewrite Hint, Hn. simpl. congruence.
      * rewrite Hint1 in Hint.
        assert (length (runs int) ≤ 1) as Hlen by (rewrite Hr; simpl; lia).
        destruct (request_step_over s2 int Hint Hs Hlen)
          as (s' & -> & _ & [[_ ->]|(run & Hr' & _)]); simpl; congruence.
      * rewrite Hint1 in Hint.
        assert (length (runs int) ≤ 1) as Hlen by (rewrite Hr; simpl; lia).
        destruct (request_step_over s2 int Hint Hs Hlen)
          as (s' & -> & _ & [[Hr' _]|(run' & Hr' & Hs')]); [congruence|].
        simpl. rewrite Hs'. congruence.
  - intros st st' r Hstep IH s2 Hf.
    destruct (follows_request_step _ _ _ Hf Hstep) as (s2' & Hstep2 & Hf').
    destruct (IH s2' Hf') as (s2'' & Heq & Hf'').
    exists s2''. split; [|done].
    rewrite requestNextPair_unfold, Hstep2. done.
Qed.

(** The answers of the first run are all in the cache it ends with. *)
Lemma run_session_keeps_answers answer fuel :
  ∀ s1 asked final,
    run_session fuel answer s1 = Finished asked final →
    ∀ a b v, cache s1 !! createCacheKey a b = Some v →
             cache final !! createCacheKey a b = Some v.
Proof.
  induction fuel as [|fuel IH]; intros s1 asked final; [done|].
  rewrite run_session_unfold.
  pose proof (requestNextPair_pending s1) as Hpend.
  destruct (requestNextPair_frame s1) as (_ & _ & _ & Hcache).
  destruct (requestNextPair s1) as [[p|] s1'] eqn:E; simpl in *.
  - specialize (Hpend p eq_refl).
    destruct (commitComparison s1' _ _ _) as [s1''|] eqn:Hc; [|done].
    destruct (run_session fuel answer s1'') as [| |asked' final'] eqn:Hrun;
      try done.
    intros [= <- <-] a b v Hv. apply (IH _ _ _ Hrun).
    destruct (commit_pending _ _ _ _ Hpend Hc)
      as (int & rest & f & _ & _ & _ & _ & _ & Hno & ->).
    cbn [cache]. rewrite toRecord_lookup_key. unfold Cache.set.
    rewrite lookup_insert_ne; [by rewrite Hcache|].
    intros Hk. unfold Cache.has in Hno. rewrite bool_decide_eq_false in Hno.
    apply Hno. rewrite Hk, Hcache. eauto.
  - intros [= <- <-] a b v Hv. by rewrite Hcache.
Qed.

(** The second run reaches the end of the first without returning a pair. *)
Lemma rerun_follows answer fuel :
  ∀ s1 asked final,
    run_session fuel answer s1 = Finished asked final →
    (∀ a b v, cache final !! createCacheKey a b = Some v →
              C !! createCacheKey a b = Some v) →
    ∀ s2, internal s2 = internal s1 → cache s2 = C →
      (requestNextPair s2).1 = None
      ∧ internal (requestNextPair s2).2 = internal final.
Proof.
  induction fuel as [|fuel IH]; intros s1 asked final; [done|].
  intros Hrun Hfinal s2 Hint2 Hc2.
  pose proof (run_session_keeps_answers _ _ _ _ _ Hrun) as Hkeep.
  assert (follows C s1 s2) as Hf.
  { split; [done|]. split; [done|]. intros a b v Hv. by apply Hfinal, Hkeep. }
  destruct (follows_request s1 s2 Hf) as (s2' & Heq & Hf').
  rewrite run_session_unfold in Hrun.
  pose proof (requestNextPair_pending s1) as Hpend.
  pose proof (requestNextPair_settled s1) as Hsettled.
  destruct (requestNextPair s1) as [[p|] s1'] eqn:E; simpl in *.
  - specialize (Hpend p eq_refl).
    destruct (commitComparison s1' _ _ _) as [s1''|] eqn:Hc; [|done].
    destruct (run_session fuel answer s1'') as [| |asked' final'] eqn:Hrun';
      try done.
    injection Hrun as <- <-.
    destruct (commit_pending _ _ _ _ Hpend Hc)
      as (int & rest & f & Hint & Hs & Hl & Hr & -> & Hno & Hs1'').
    pose proof Hf' as (Hint' & Hc' & _).
    rewrite Hint in Hint'.
    assert (Cache.get (cache s2') (pair_a (frame_pair f)) (pair_b (frame_pair f))
            = Some (answer (pair_a (frame_pair f)) (pair_b (frame_pair f))))
      as Hget.
    { rewrite Hc'. unfold Cache.get.
      rewrite (Hfinal _ _ (normalizeResult (pair_a (frame_pair f))
                 (pair_b (frame_pair f))
                 (answer (pair_a (frame_pair f)) (pair_b (frame_pair f))))).
      - by rewrite normalizeResult_involutive.
      - apply (run_session_keeps_answers _ _ _ _ _ Hrun').
        rewrite Hs1''. cbn [cache]. rewrite toRecord_lookup_key.
        unfold Cache.set. by rewrite lookup_insert_eq. }
    pose proof (request_step_hit s2' int rest f _ Hint' Hs Hl Hr Hget) as Hstep.
    rewrite Heq, requestNextPair_unfold, Hstep.
    apply (IH _ _ _ Hrun' Hfinal).
    + rewrite Hs1''. done.
    + done.
  - injection Hrun as <- <-.
    pose proof Hf' as (Hint' & Hc' & _).
    rewrite Heq.
    destruct (request_step_done _ _ Hsettled)
      as [[Hn _]|(int & Hint & Hs & Hcases)].
    + rewrite requestNextPair_unfold. unfold request_step.
      rewrite Hint', Hn. simpl. by rewrite Hint', Hn.
    + rewrite Hint in Hint'.
      assert (length (runs int) ≤ 1) as Hlen.
      { destruct Hcases as [[-> _]|(run & -> & _)]; simpl; lia. }
      destruct (request_step_over s2' int Hint' Hs Hlen)
        as (s' & Hstep & _ & Hshape).
      rewrite requestNextPair_unfold, Hstep. simpl. split; [done|].
      destruct Hcases as [[Hr _]|(run & Hr & Hst)],
               Hshape as [[Hr' ->]|(run' & Hr' & ->)]; try congruence.
      rewrite Hint. rewrite Hst in Hint. simpl in Hint. congruence.
Qed.

End rerun.

(** A session that has run to its end, started again over the same
    list with the cache it ended with ([resetWithCache]), shows no pair at
    all: the first call of [requestNextPair] already returns [null], no
    comparison is counted, and [finalize] gives the order of the first run.
    Nothing is asked of the identifiers (duplicates and [|] are allowed),
    the seed of the first run or the answers. *)
Theorem rerun_asks_nothing answer taskIds existingCache fuel asked final :
  run_session fuel answer (createSession taskIds existingCache)
  = Finished asked final →
  (requestNextPair (resetWithCache final taskIds)).1 = None
  ∧ comparisonsAsked (requestNextPair (resetWithCache final taskIds)).2 = 0
  ∧ finalize (requestNextPair (resetWithCache final taskIds)).2
    = finalize final.
Proof.
  intros Hrun.
  destruct (requestNextPair_frame (resetWithCache final taskIds))
    as (_ & Hasked & _ & _).
  destruct (rerun_follows (Cache.toRecord (cache final)) answer fuel _ _ _ Hrun)
    with (s2 := resetWithCache final taskIds) as [Hnone Hint].
  - intros a b v Hv. by rewrite toRecord_lookup_key.
  - done.
  - unfold resetWithCache. by rewrite createSession_cache.
  - split; [done|]. split; [by rewrite Hasked|].
    unfold finalize. by rewrite Hint.
Qed.

Lemma rerun_asks_nothing_witness :
  ∃ asked final,
    run_session 4 (λ _ _, Less) (createSession ["A"; "B"; "C"] None)
    = Finished asked final
    ∧ length asked = 3
    ∧ (requestNextPair (resetWithCache final ["A"; "B"; "C"])).1 = None
    ∧ finalize (requestNextPair (resetWithCache final ["A"; "B"; "C"])).2
      = [Id "B"; Id "A"; Id "C"].
Proof.
  destruct (run_session 4 (λ _ _, Less) (createSession ["A"; "B"; "C"] None))
    as [| |asked final] eqn:Hrun; [by vm_compute in Hrun..|].
  exists asked, final. split; [done|].
  destruct (rerun_asks_nothing _ _ _ _ _ _ Hrun) as (Hnone & _ & Hfin).
  split; [|split; [done|]].
  - vm_compute in Hrun. by injection Hrun as <- _.
  - rewrite Hfin. vm_compute in Hrun. by injection Hrun as _ <-.
Defined.

(** * The order in which a merge emits *)

(** ** Answers stay in place *)










(** ** The ordering policy *)



(** * The identifiers of a session *)

(** C10.  In every state that a caller reaches from [createSession] by
    the request/commit protocol, the run queue together with the active
    frame (its output and what is left of its two runs) holds exactly the
    identifiers of the input list, each as often as the list does.  The
    stored result is not a further part of that: it is empty until the
    sort is done, and then it is the one run that is left in the queue.
    Hence [finalize] of a complete session is a permutation of the input
    list. *)
Theorem session_holds_input_ids taskIds existingCache state :
  protocol (createSession taskIds existingCache) state →
  ∃ int,
    internal state = Some int
    ∧ held_ids int ≡ₚ Id <$> taskIds
    ∧ (result int = []
       ∨ (stack int = [] ∧ runs int = [result int]
          ∧ result int ≡ₚ Id <$> taskIds))
    ∧ (isComplete state = true → finalize state ≡ₚ Id <$> taskIds).
Proof.
  intros (int & Hint & Hlen & Hheld & Hres)%protocol_well_shaped.
  exists int. split; [done|]. split; [done|]. split.
  - destruct Hres as [?|[Hs Hr]]; [by left|right].
    split; [done|]. split; [done|].
    rewrite <- Hheld. unfold held_ids. rewrite Hr, Hs. simpl.
    by rewrite !app_nil_r.
  - unfold isComplete, finalize. rewrite Hint.
    intros [Hr Hs]%andb_true_iff.
    apply bool_decide_eq_true in Hr, Hs.
    destruct (runs int) as [|run [|? ?]] eqn:Hruns; try done.
    destruct (stack int) eqn:Hstack; [|done].
    rewrite <- Hheld. unfold held_ids. rewrite Hruns, Hstack. simpl.
    by rewrite !app_nil_r.
Qed.

Lemma session_holds_input_ids_witness :
  protocol (createSession ["A"; "B"; "C"] None)
    (requestNextPair (createSession ["A"; "B"; "C"] None)).2
  ∧ ∃ int,
      internal (requestNextPair (createSession ["A"; "B"; "C"] None)).2
      = Some int
      ∧ runs int = [[Id "C"]]
      ∧ stack int = [Frame.mk [Id "A"] [Id "B"] 0 0 []]
      ∧ held_ids int ≡ₚ [Id "A"; Id "B"; Id "C"]
      ∧ result int = [].
Proof.
  assert (protocol (createSession ["A"; "B"; "C"] None)
            (requestNextPair (createSession ["A"; "B"; "C"] None)).2) as H
    by (apply protocol_request, protocol_start).
  split; [exact H|].
  destruct (session_holds_input_ids ["A"; "B"; "C"] None _ H)
    as (int & H1 & H2 & _).
  exists int. split; [exact H1|].
  assert (int = {| runs := [[Id "C"]];
                   stack := [Frame.mk [Id "A"] [Id "B"] 0 0 []];
                   result := [] |}) as Hint.
  { vm_compute in H1. by injection H1 as <-. }
  split; [by rewrite Hint|]. split; [by rewrite Hint|].
  split; [exact H2|by rewrite Hint].
Defined.

(** Counted together with the run queue and the frames, the stored result
    doubles the identifiers once the sort is done: after the first request
    of the session of the one identifier [A], the queue holds the run [A]
    and the result is that run too. *)
Lemma stored_result_repeats_run :
  protocol (createSession ["A"] None)
    (requestNextPair (createSession ["A"] None)).2
  ∧ ∃ int,
      internal (requestNextPair (createSession ["A"] None)).2 = Some int
      ∧ held_ids int ++ result int = [Id "A"; Id "A"]
      ∧ ¬ (held_ids int ++ result int ≡ₚ Id <$> ["A"]).
Proof.
  split; [apply protocol_request, protocol_start|].
  eexists. split; [by vm_compute|]. split; [by vm_compute|].
  intros Hperm%Permutation_length. vm_compute in Hperm. discriminate Hperm.
Qed.

(** * The ranking and its cost *)

(** C1.  A session over a list of at most 100 different identifiers
    without [|] (the sizes 3 to 50 among them), answered throughout by one
    ranking of them, runs to its end; [finalize] then returns exactly that
    ranking, most important first, and the number of pairs shown, which is
    the final [comparisonsAsked], is at most
    [n * ceil(log2 n) - 2 ^ ceil(log2 n) + 1], the worst case of a merge
    sort, which is below [n * log2 n] (stated as [2 ^ asked <= n ^ n]).
    The session may start from a prior cache that agrees with the ranking
    on the pairs of the list; its hits are not among the pairs shown. *)
Theorem consistent_session_ranks (order taskIds : list TaskId) existingCache :
  NoDup taskIds →
  taskIds ≡ₚ order →
  Forall (λ id, has_pipe id = false) taskIds →
  match existingCache with
  | Some record => consistent order taskIds record
  | None => True
  end →
  length taskIds ≤ 100 →
  ∃ asked final,
    run_session (S (queue_cost (repeat 1 (length taskIds)))) (answer_by order)
      (createSession taskIds existingCache) = Finished asked final
    ∧ requestNextPair final = (None, final)
    ∧ finalize final = Id <$> order
    ∧ comparisonsAsked final = length asked
    ∧ (Z.of_nat (length asked)
       ≤ Z.of_nat (length taskIds) * Z.log2_up (Z.of_nat (length taskIds))
         - 2 ^ Z.log2_up (Z.of_nat (length taskIds)) + 1)%Z
    ∧ (2 ^ Z.of_nat (length asked)
       ≤ Z.of_nat (length taskIds) ^ Z.of_nat (length taskIds))%Z.
Proof.
  intros Hnd Hperm Hplain Hseed Hn.
  destruct (session_finishes_with (answer_by order) taskIds existingCache)
    as (asked & final & Hrun & Hle & Hcount & Hdone & Hsess).
  exists asked, final. split; [done|]. split; [done|].
  split.
  { apply (sorted_final order taskIds Hnd Hperm); [|done].
    by apply (session_sorted order taskIds Hnd Hperm Hplain existingCache). }
  split; [done|].
  destruct (queue_cost_table _ Hn) as [Heq Hpow].
  split; [lia|].
  etrans; [|exact Hpow]. apply Z.pow_le_mono_r; lia.
Qed.

Lemma consistent_session_ranks_witness :
  ∃ asked final,
    run_session 4 (answer_by ["C"; "A"; "B"]) (createSession ["A"; "B"; "C"] None)
    = Finished asked final
    ∧ finalize final = [Id "C"; Id "A"; Id "B"]
    ∧ (Z.of_nat (length asked) ≤ 3)%Z.
Proof.
  destruct (consistent_session_ranks ["C"; "A"; "B"] ["A"; "B"; "C"] None)
    as (asked & final & Hrun & _ & Hfin & _ & Hbound & _).
  - refine (bool_decide_unpack (NoDup _) _). by vm_compute.
  - refine (bool_decide_unpack (_ ≡ₚ _) _). by vm_compute.
  - repeat constructor.
  - exact I.
  - simpl. lia.
  - exists asked, final. split; [exact Hrun|]. split; [exact Hfin|].
    exact Hbound.
Defined.

(** With [|] inside identifiers the ranking can come out wrong, for a list
    of four: the pairs [(a|b, c)] and [(a, b|c)] share the key [a|b|c], so
    the answer given for the first is read for the second. *)
Lemma ranking_wrong_with_pipe :
  NoDup ["a|b"; "c"; "a"; "b|c"]
  ∧ ["a|b"; "c"; "a"; "b|c"] ≡ₚ ["b|c"; "a"; "a|b"; "c"]
  ∧ ∃ asked final,
      run_session 10 (answer_by ["b|c"; "a"; "a|b"; "c"])
        (createSession ["a|b"; "c"; "a"; "b|c"] None) = Finished asked final
      ∧ finalize final ≠ Id <$> ["b|c"; "a"; "a|b"; "c"].
Proof.
  split; [refine (bool_decide_unpack (NoDup _) _); by vm_compute|].
  split; [refine (bool_decide_unpack (_ ≡ₚ _) _); by vm_compute|].
  eexists _, _. split; [by vm_compute|]. vm_compute. discriminate.
Qed.

(** * States without [undefined] *)

Lemma array_get_listed taskIds (arr : list IdVal) i :
  i < length arr → Forall (listed taskIds) arr → listed taskIds (array_get arr i).
Proof.
  intros Hi Hall. unfold array_get.
  destruct (lookup_lt_is_Some_2 arr i Hi) as [v Hv]. rewrite Hv. simpl.
  by apply (Forall_lookup_1 _ _ _ _ Hall Hv).
Qed.

Lemma advance_listed taskIds frame res :
  Frame.leftIdx frame < length (Frame.left frame) →
  Frame.rightIdx frame < length (Frame.right frame) →
  frame_listed taskIds frame → frame_listed taskIds (advanceFrame frame res).
Proof.
  intros Hl Hr (Hleft & Hright & Hmerged).
  destruct res; repeat split; simpl; try done;
    apply Forall_app; (split; [done|]); apply Forall_singleton;
    by apply array_get_listed.
Qed.

Lemma listed_request_step taskIds st st' :
  state_listed taskIds st → request_step st = inr st' →
  state_listed taskIds st'.
Proof.
  intros (int & Hint & Hruns & Hstack & Hres) Hstep.
  destruct (request_step_inr _ _ Hstep) as (int0 & Hint0 & Hcases).
  rewrite Hint in Hint0. injection Hint0 as <-.
  destruct Hcases as [(rest & f & Hs & _ & ->)
    |[(rest & f & res & Hs & Hl & Hr & _ & ->)|(l & r & others & Hs & Hr & ->)]];
    (eexists; split; [reflexivity|]); simpl.
  - rewrite Hs in Hstack. apply Forall_app in Hstack as [Hrest Hf].
    apply Forall_singleton in Hf as (Hleft & Hright & Hmerged).
    split; [|done]. apply Forall_app. split; [done|].
    apply Forall_singleton. unfold frame_ids.
    rewrite !Forall_app. repeat split; [done|by apply Forall_drop..].
  - rewrite Hs in Hstack. apply Forall_app in Hstack as [Hrest Hf].
    rewrite Forall_singleton in Hf.
    split; [done|]. split; [|done]. apply Forall_app. split; [done|].
    apply Forall_singleton. by apply advance_listed.
  - rewrite Hr in Hruns.
    apply Forall_cons in Hruns as [Hleft Hruns].
    apply Forall_cons in Hruns as [Hright Hruns].
    split; [done|]. split; [|done].
    apply Forall_singleton. by repeat split.
Qed.

Lemma listed_done taskIds st st' :
  state_listed taskIds st → request_step st = inl (None, st') →
  state_listed taskIds st'.
Proof.
  intros (int & Hint & Hruns & Hstack & Hres) Hstep.
  destruct (request_step_done _ _ Hstep)
    as [[Hn _]|(int0 & Hint0 & Hs & [[_ ->]|(run & Hr & ->)])].
  - congruence.
  - by exists int.
  - rewrite Hint in Hint0. injection Hint0 as <-.
    eexists. split; [reflexivity|]. simpl.
    rewrite Hr in Hruns. split; [done|]. split; [done|].
    by rewrite Forall_singleton in Hruns.
Qed.

Lemma listed_commit taskIds st p res st' :
  state_listed taskIds st → request_step st = inl (Some p, st) →
  commitComparison st (pair_a p) (pair_b p) res = Some st' →
  state_listed taskIds st'.
Proof.
  intros (int & Hint & Hruns & Hstack & Hres) Hstep Hc.
  destruct (commit_pending _ _ _ _ Hstep Hc)
    as (int0 & rest & f & Hint0 & Hs & Hl & Hr & _ & _ & ->).
  rewrite Hint in Hint0. injection Hint0 as <-.
  eexists. split; [reflexivity|]. simpl.
  rewrite Hs in Hstack. apply Forall_app in Hstack as [Hrest Hf].
  rewrite Forall_singleton in Hf.
  split; [done|]. split; [|done]. apply Forall_app. split; [done|].
  apply Forall_singleton. by apply advance_listed.
Qed.

Lemma listed_start taskIds existingCache :
  state_listed taskIds (createSession taskIds existingCache).
Proof.
  eexists. split; [reflexivity|]. simpl. split; [|by split].
  apply Forall_fmap, Forall_forall. intros id Hid. simpl.
  apply Forall_singleton. by exists id.
Qed.

(** A session that keeps to the protocol never holds [undefined]: every
    run, every array of a frame and the stored result consist of
    identifiers of the input list, and so does every pair that
    [requestNextPair] returns.  (Out of protocol, a commit on an exhausted
    frame does push [undefined].) *)
Theorem protocol_never_undefined taskIds existingCache state :
  protocol (createSession taskIds existingCache) state →
  state_listed taskIds state
  ∧ ∀ p, (requestNextPair state).1 = Some p →
         listed taskIds (pair_a p) ∧ listed taskIds (pair_b p).
Proof.
  intros Hprot.
  assert (∀ st, protocol (createSession taskIds existingCache) st →
                state_listed taskIds st) as Hinv.
  { apply protocol_invariant.
    - apply listed_start.
    - apply listed_request_step.
    - apply listed_done.
    - apply listed_commit. }
  split; [by apply Hinv|]. intros p Hp.
  destruct (Hinv _ (protocol_request _ _ Hprot))
    as (int & Hint & _ & Hstack & _).
  pose proof (requestNextPair_pending state p Hp) as Hpend.
  apply request_step_pair in Hpend
    as (_ & int0 & rest & f & Hint0 & Hs & Hl & Hr & -> & _).
  rewrite Hint in Hint0. injection Hint0 as <-.
  rewrite Hs in Hstack. apply Forall_app in Hstack as [_ Hf].
  apply Forall_singleton in Hf as (Hleft & Hright & _).
  split; simpl; by apply array_get_listed.
Qed.

Lemma protocol_never_undefined_witness :
  protocol (createSession ["A"; "B"; "C"] None)
    (requestNextPair (createSession ["A"; "B"; "C"] None)).2
  ∧ (requestNextPair (requestNextPair (createSession ["A"; "B"; "C"] None)).2).1
    = Some (MkPair (Id "A") (Id "B"))
  ∧ listed ["A"; "B"; "C"] (Id "A") ∧ listed ["A"; "B"; "C"] (Id "B").
Proof.
  assert (protocol (createSession ["A"; "B"; "C"] None)
            (requestNextPair (createSession ["A"; "B"; "C"] None)).2) as H
    by (apply protocol_request, protocol_start).
  split; [exact H|]. split; [reflexivity|].
  exact (proj2 (protocol_never_undefined ["A"; "B"; "C"] None _ H)
           (MkPair (Id "A") (Id "B")) eq_refl).
Defined.
